(** * Manifest builder (scripts/generate-manifest.mjs): model and properties

    The script scans configured directories of HTML fragments, extracts a
    heading and a description from each file with three regular
    expressions, orders the files of each directory and writes one JSON
    manifest.  This development embeds its functions in Rocq and proves the
    properties stated for them.

    JavaScript strings are sequences of UTF-16 code units; they are modelled
    as lists of code units ([N]).  The text functions are structurally
    recursive, so every definition below computes. *)

From Stdlib Require Import NArith ZArith Ascii String List Lia.
From Stdlib Require Import Sorting.Sorted Sorting.Permutation.
From stdpp Require Import base option list gmap.

Local Open Scope N_scope.

(** ** Strings *)

Abbreviation jsstring := (list N).

(** A string literal of the source, as code units. *)
Fixpoint js (s : string) : jsstring :=
  match s with
  | EmptyString => []
  | String c s' => N_of_ascii c :: js s'
  end.

Definition LT : N := 60.       (* < *)
Definition GT : N := 62.       (* > *)
Definition SLASH : N := 47.    (* / *)
Definition BACKSLASH : N := 92.
Definition SPACE : N := 32.
Definition AMP : N := 38.      (* & *)

(** [\s] of a regular expression and the characters removed by
    [String.prototype.trim]: ECMAScript's WhiteSpace and LineTerminator. *)
Definition isWhiteSpace (c : N) : bool :=
  ((9 <=? c) && (c <=? 13)) || (c =? 32) || (c =? 160) || (c =? 5760)
  || ((8192 <=? c) && (c <=? 8202)) || (c =? 8232) || (c =? 8233)
  || (c =? 8239) || (c =? 8287) || (c =? 12288) || (c =? 65279).

(** Canonicalisation of the [i] flag (no [u] flag): a code unit is compared
    through its upper-case form, and a code unit outside ASCII never
    canonicalises to an ASCII one.  All pattern characters of the script are
    ASCII, so only the ASCII letters need their upper-case form here. *)
Definition canonicalize (c : N) : N :=
  if (97 <=? c) && (c <=? 122) then c - 32 else c.

(** [String.prototype.toLowerCase], on the ASCII letters.  The only use is
    the test [name.toLowerCase().endsWith('.html')]; no code unit outside
    ASCII has a lower-case form that ends in one of [.], [h], [t], [m], [l],
    so the test sees the same answer. *)
Definition toLowerCase (s : jsstring) : jsstring :=
  map (fun c => if (65 <=? c) && (c <=? 90) then c + 32 else c) s.

Fixpoint startsWith (s pat : jsstring) {struct pat} : bool :=
  match pat, s with
  | [], _ => true
  | p :: pat', c :: s' => (c =? p) && startsWith s' pat'
  | _ :: _, [] => false
  end.

Definition endsWith (s pat : jsstring) : bool :=
  startsWith (rev s) (rev pat).

Fixpoint takeWhile (f : N -> bool) (s : jsstring) : jsstring :=
  match s with
  | c :: s' => if f c then c :: takeWhile f s' else []
  | [] => []
  end.

Fixpoint dropWhile (f : N -> bool) (s : jsstring) : jsstring :=
  match s with
  | c :: s' => if f c then dropWhile f s' else s
  | [] => []
  end.

(** [String.prototype.trim] *)
Definition trim (s : jsstring) : jsstring :=
  rev (dropWhile isWhiteSpace (rev (dropWhile isWhiteSpace s))).

(** ** Regular expressions of the script *)

(** [text.replace(re, rep)] for a global [re] whose matches are never empty:
    [m s] is the length of the match of [re] at the start of [s], if there is
    one.  The scan emits [rep] at the leftmost match and resumes behind it
    ([skip] counts the code units of the match still to be passed). *)
Fixpoint replaceFrom (m : jsstring -> option nat) (rep : jsstring)
    (skip : nat) (s : jsstring) : jsstring :=
  match s with
  | [] => []
  | c :: s' =>
      match skip with
      | S k => replaceFrom m rep k s'
      | O =>
          match m s with
          | Some (S n) => rep ++ replaceFrom m rep n s'
          | _ => c :: replaceFrom m rep 0 s'
          end
      end
  end.

Definition replaceAll (m : jsstring -> option nat) (rep s : jsstring) : jsstring :=
  replaceFrom m rep 0 s.

(** A literal pattern such as [/&amp;/]. *)
Definition matchLiteral (pat : jsstring) (s : jsstring) : option nat :=
  if startsWith s pat then Some (length pat) else None.

(** [/<[^>]+>/]: [<], at least one code unit other than [>], then [>].  The
    class is greedy and cannot pass a [>], so the match ends at the first
    [>] behind the [<]. *)
Definition notGT (c : N) : bool := negb (c =? GT).

Definition matchTag (s : jsstring) : option nat :=
  match s with
  | c :: r =>
      if c =? LT then
        match takeWhile notGT r, dropWhile notGT r with
        | [], _ => None
        | _, [] => None
        | inner, _ :: _ => Some (2 + length inner)%nat
        end
      else None
  | [] => None
  end.

(** [/\s+/] *)
Definition matchSpaces (s : jsstring) : option nat :=
  match takeWhile isWhiteSpace s with
  | [] => None
  | run => Some (length run)
  end.

(** The pattern literal [pat] under the [i] flag, at the start of [s]: the
    rest of [s] behind it. *)
Fixpoint matchLiteralI (pat s : jsstring) : option jsstring :=
  match pat with
  | [] => Some s
  | p :: pat' =>
      match s with
      | c :: s' =>
          if canonicalize c =? canonicalize p then matchLiteralI pat' s' else None
      | [] => None
      end
  end.

(** [([\s\S]*?)] followed by the literal [close]: the shortest prefix of [s]
    behind which [close] matches. *)
Fixpoint lazyUntil (close s : jsstring) : option jsstring :=
  match matchLiteralI close s with
  | Some _ => Some []
  | None =>
      match s with
      | [] => None
      | c :: s' => cons c <$> lazyUntil close s'
      end
  end.

(** A tag name without pattern syntax: ASCII letters and digits only, as
    [h2], [h1] and [p], the names the script passes. *)
Definition isAsciiAlnum (c : N) : bool :=
  ((48 <=? c) && (c <=? 57)) || ((65 <=? c) && (c <=? 90))
  || ((97 <=? c) && (c <=? 122)).

Definition plainTag (tagName : jsstring) : bool := forallb isAsciiAlnum tagName.

(** The regular expression [<tag[^>]*>([\s\S]*?)<\/tag>] with flag [i],
    tried at the start of [s]; the result is capture group 1.  The script
    builds the pattern with [new RegExp] from a text into which [tagName]
    is spliced, so pattern syntax in [tagName] would be read as such; here
    [tagName] is matched as it is written.  The two agree for a [plainTag],
    and statements about what is matched are made for such names only. *)
Definition matchElementAt (tagName s : jsstring) : option jsstring :=
  match matchLiteralI (LT :: tagName) s with
  | Some rest =>
      match dropWhile notGT rest with
      | _ :: body => lazyUntil (LT :: SLASH :: tagName ++ [GT]) body
      | [] => None
      end
  | None => None
  end.

(** [html.match(regex)] without the [g] flag: the match at the leftmost
    position where the pattern matches. *)
Fixpoint matchElement (tagName html : jsstring) : option jsstring :=
  match matchElementAt tagName html with
  | Some raw => Some raw
  | None =>
      match html with
      | [] => None
      | _ :: html' => matchElement tagName html'
      end
  end.

(** ** decodeHtmlEntities, extractTextFromHtml *)

Definition decodeHtmlEntities (text : jsstring) : jsstring :=
  replaceAll (matchLiteral (js "&#96;")) (js "`")
    (replaceAll (matchLiteral (js "&#39;")) (js "'")
      (replaceAll (matchLiteral (js "&quot;")) [34]
        (replaceAll (matchLiteral (js "&gt;")) (js ">")
          (replaceAll (matchLiteral (js "&lt;")) (js "<")
            (replaceAll (matchLiteral (js "&amp;")) (js "&") text))))).

(** For comparison only: the six references decoded in one pass over the
    text, each position matched against all six at once.  The script does
    not do this. *)
Definition entityTable : list (jsstring * jsstring) :=
  [ (js "&amp;", js "&"); (js "&lt;", js "<"); (js "&gt;", js ">");
    (js "&quot;", [34]); (js "&#39;", js "'"); (js "&#96;", js "`") ].

Fixpoint simultaneousFrom (skip : nat) (s : jsstring) : jsstring :=
  match s with
  | [] => []
  | c :: s' =>
      match skip with
      | S k => simultaneousFrom k s'
      | O =>
          match List.find (fun e => startsWith s e.1) entityTable with
          | Some (pat, rep) => rep ++ simultaneousFrom (length pat - 1) s'
          | None => c :: simultaneousFrom 0 s'
          end
      end
  end.

Definition decodeSimultaneously (text : jsstring) : jsstring :=
  simultaneousFrom 0 text.

Definition stripTags (raw : jsstring) : jsstring :=
  replaceAll matchTag [SPACE] raw.

Definition collapseSpaces (s : jsstring) : jsstring :=
  replaceAll matchSpaces [SPACE] s.

Definition extractTextFromHtml (html tagName : jsstring) : jsstring :=
  match matchElement tagName html with
  | None => []
  | Some raw => decodeHtmlEntities (trim (collapseSpaces (stripTags raw)))
  end.

(** ** Path functions of Node's [path] module (POSIX flavour) *)

Local Open Scope Z_scope.

(** [str.slice(a, b)]: a negative index counts from the end. *)
Definition slice (s : jsstring) (a b : Z) : jsstring :=
  let len := Z.of_nat (length s) in
  let clamp i := if i <? 0 then Z.max (len + i) 0 else Z.min i len in
  take (Z.to_nat (clamp b - clamp a)) (drop (Z.to_nat (clamp a)) s).

Record ExtScan := {
  startDot : Z;
  startPart : Z;
  endIdx : Z;
  matchedSlash : bool;
  preDotState : Z;
}.

(** The loop of [path.extname]: [i] runs from the last code unit down to the
    first; [rs] holds the code units at [i], [i-1], ..., [0]. *)
Fixpoint extnameScan (rs : jsstring) (i : Z) (st : ExtScan) : ExtScan :=
  match rs with
  | [] => st
  | code :: rs' =>
      if (code =? 47)%N then
        if negb (matchedSlash st) then
          {| startDot := startDot st; startPart := i + 1; endIdx := endIdx st;
             matchedSlash := matchedSlash st; preDotState := preDotState st |}
        else extnameScan rs' (i - 1) st
      else
        let st1 :=
          if endIdx st =? -1 then
            {| startDot := startDot st; startPart := startPart st; endIdx := i + 1;
               matchedSlash := false; preDotState := preDotState st |}
          else st in
        let st2 :=
          if (code =? 46)%N then
            if startDot st1 =? -1 then
              {| startDot := i; startPart := startPart st1; endIdx := endIdx st1;
                 matchedSlash := matchedSlash st1; preDotState := preDotState st1 |}
            else if negb (preDotState st1 =? 1) then
              {| startDot := startDot st1; startPart := startPart st1;
                 endIdx := endIdx st1; matchedSlash := matchedSlash st1;
                 preDotState := 1 |}
            else st1
          else if negb (startDot st1 =? -1) then
            {| startDot := startDot st1; startPart := startPart st1;
               endIdx := endIdx st1; matchedSlash := matchedSlash st1;
               preDotState := -1 |}
          else st1 in
        extnameScan rs' (i - 1) st2
  end.

Definition extname (p : jsstring) : jsstring :=
  let st := extnameScan (rev p) (Z.of_nat (length p) - 1)
              {| startDot := -1; startPart := 0; endIdx := -1;
                 matchedSlash := true; preDotState := 0 |} in
  if (startDot st =? -1) || (endIdx st =? -1) || (preDotState st =? 0)
     || ((preDotState st =? 1) && (startDot st =? endIdx st - 1)
         && (startDot st =? startPart st + 1))
  then []
  else slice p (startDot st) (endIdx st).

Record BaseScan := {
  bStart : Z;
  bEnd : Z;
  bMatchedSlash : bool;
  extIdx : Z;
  firstNonSlashEnd : Z;
}.

(** The loop of [path.basename(path, suffix)] for a usable suffix. *)
Fixpoint basenameScan (suffix rs : jsstring) (i : Z) (st : BaseScan) : BaseScan :=
  match rs with
  | [] => st
  | code :: rs' =>
      if (code =? 47)%N then
        if negb (bMatchedSlash st) then
          {| bStart := i + 1; bEnd := bEnd st; bMatchedSlash := bMatchedSlash st;
             extIdx := extIdx st; firstNonSlashEnd := firstNonSlashEnd st |}
        else basenameScan suffix rs' (i - 1) st
      else
        let st1 :=
          if firstNonSlashEnd st =? -1 then
            {| bStart := bStart st; bEnd := bEnd st; bMatchedSlash := false;
               extIdx := extIdx st; firstNonSlashEnd := i + 1 |}
          else st in
        let st2 :=
          if 0 <=? extIdx st1 then
            if bool_decide (suffix !! Z.to_nat (extIdx st1) = Some code) then
              if extIdx st1 - 1 =? -1 then
                {| bStart := bStart st1; bEnd := i; bMatchedSlash := bMatchedSlash st1;
                   extIdx := extIdx st1 - 1; firstNonSlashEnd := firstNonSlashEnd st1 |}
              else
                {| bStart := bStart st1; bEnd := bEnd st1;
                   bMatchedSlash := bMatchedSlash st1;
                   extIdx := extIdx st1 - 1; firstNonSlashEnd := firstNonSlashEnd st1 |}
            else
              {| bStart := bStart st1; bEnd := firstNonSlashEnd st1;
                 bMatchedSlash := bMatchedSlash st1;
                 extIdx := -1; firstNonSlashEnd := firstNonSlashEnd st1 |}
          else st1 in
        basenameScan suffix rs' (i - 1) st2
  end.

(** The loop of [path.basename(path)] when no suffix is usable. *)
Fixpoint basenamePlainScan (rs : jsstring) (i : Z) (st : BaseScan) : BaseScan :=
  match rs with
  | [] => st
  | code :: rs' =>
      if (code =? 47)%N then
        if negb (bMatchedSlash st) then
          {| bStart := i + 1; bEnd := bEnd st; bMatchedSlash := bMatchedSlash st;
             extIdx := extIdx st; firstNonSlashEnd := firstNonSlashEnd st |}
        else basenamePlainScan rs' (i - 1) st
      else if bEnd st =? -1 then
        basenamePlainScan rs' (i - 1)
          {| bStart := bStart st; bEnd := i + 1; bMatchedSlash := false;
             extIdx := extIdx st; firstNonSlashEnd := firstNonSlashEnd st |}
      else basenamePlainScan rs' (i - 1) st
  end.

Definition basename (p suffix : jsstring) : jsstring :=
  let len := Z.of_nat (length p) in
  let slen := Z.of_nat (length suffix) in
  if (0 <? slen) && (slen <=? len) then
    if bool_decide (suffix = p) then []
    else
      let st := basenameScan suffix (rev p) (len - 1)
                  {| bStart := 0; bEnd := -1; bMatchedSlash := true;
                     extIdx := slen - 1; firstNonSlashEnd := -1 |} in
      let e := if bStart st =? bEnd st then firstNonSlashEnd st
               else if bEnd st =? -1 then len else bEnd st in
      slice p (bStart st) e
  else
    let st := basenamePlainScan (rev p) (len - 1)
                {| bStart := 0; bEnd := -1; bMatchedSlash := true;
                   extIdx := -1; firstNonSlashEnd := -1 |} in
    if bEnd st =? -1 then [] else slice p (bStart st) (bEnd st).

(** [path.basename(fileName, path.extname(fileName))] *)
Definition slugOf (fileName : jsstring) : jsstring :=
  basename fileName (extname fileName).

Local Close Scope Z_scope.

(** A location in the file system is kept resolved: the list of the names
    from the file-system root down to it.  [splitPath] is [s.split('/')]. *)
Abbreviation path := (list jsstring).

Fixpoint splitPath (s : jsstring) : list jsstring :=
  match s with
  | [] => [[]]
  | c :: s' =>
      if c =? SLASH then [] :: splitPath s'
      else match splitPath s' with
           | seg :: segs => (c :: seg) :: segs
           | [] => [[c]]
           end
  end.

(** One segment of [normalizeString]: empty segments and [.] are dropped,
    [..] removes the segment before it; above the start it is kept only in
    a relative path ([allowAboveRoot]). *)
Definition normalizeStep (allowAboveRoot : bool) (stack : path) (seg : jsstring) : path :=
  if bool_decide (seg = []) || bool_decide (seg = js ".") then stack
  else if bool_decide (seg = js "..") then
    match last stack with
    | None => if allowAboveRoot then [seg] else []
    | Some top =>
        if bool_decide (top = js "..")
        then (if allowAboveRoot then stack ++ [seg] else stack)
        else removelast stack
    end
  else stack ++ [seg].

(** [path.join(dir, s)] for an absolute, normalised [dir]: the segments of
    [s] are applied to [dir] one by one. *)
Definition path_join (dir : path) (s : jsstring) : path :=
  fold_left (normalizeStep false) (splitPath s) dir.

Fixpoint path_relative (from to : path) : list jsstring :=
  match from, to with
  | a :: from', b :: to' =>
      if bool_decide (a = b) then path_relative from' to'
      else repeat (js "..") (length from) ++ to
  | _, _ => repeat (js "..") (length from) ++ to
  end.

Fixpoint joinWith (sep : jsstring) (segs : list jsstring) : jsstring :=
  match segs with
  | [] => []
  | [seg] => seg
  | seg :: segs' => seg ++ sep ++ joinWith sep segs'
  end.

(** [path.join(rel, fileName)] for the result [rel] of [path.relative],
    as a string; the empty path is written [.].  ([fileName] is a name
    returned by [readdir]: it neither starts nor ends with a slash.) *)
Definition path_join_relative (rel : list jsstring) (fileName : jsstring) : jsstring :=
  match fold_left (normalizeStep true) (splitPath fileName) rel with
  | [] => js "."
  | segs => joinWith [SLASH] segs
  end.

(** ** The file system *)

(** A tree of named nodes.  The names of a directory's entries are single
    path components, as [readdir] returns them.  [File data] is a regular
    file that reads as [data] and can be overwritten, [Dir] a directory that
    can be searched and listed and in which a file can be created, [Special]
    anything else.  A file or directory to which the system denies access
    has no node of its own: a statement that needs a read or a write to
    succeed says so of the read or the write. *)
Local Unset Elimination Schemes.
Inductive node :=
  | File (data : jsstring)
  | Dir (entries : list (jsstring * node))
  | Special.
Local Set Elimination Schemes.

Inductive errcode := ENOENT | ENOTDIR | EISDIR | EIO.

#[global] Instance errcode_eq_dec : EqDecision errcode.
Proof. solve_decision. Defined.

Inductive message :=
  | NotADirectory (dir : path)        (* `${dir} is not a directory` *)
  | DirectoryNotFound (dir : path).   (* `Directory not found: ${dir}` *)

Inductive error :=
  | SystemError (code : errcode) (p : path)
  | JsError (msg : message)
  | SyntaxError
  | TypeError.

Definition error_code (e : error) : option errcode :=
  match e with
  | SystemError c _ => Some c
  | _ => None
  end.

Inductive result (A : Type) :=
  | Ok (a : A)
  | Err (e : error).
Arguments Ok {A} a.
Arguments Err {A} e.

Fixpoint findEntry (n : jsstring) (es : list (jsstring * node)) : option node :=
  match es with
  | [] => None
  | (m, c) :: es' => if bool_decide (m = n) then Some c else findEntry n es'
  end.

Fixpoint resolve (t : node) (p : path) : errcode + node :=
  match p with
  | [] => inr t
  | n :: p' =>
      match t with
      | Dir es =>
          match findEntry n es with
          | Some c => resolve c p'
          | None => inl ENOENT
          end
      | _ => inl ENOTDIR
      end
  end.

Inductive direntKind := KFile | KDirectory | KOther.

Module Dirent.
Record t := { name : jsstring; kind : direntKind }.

Definition isFile (e : t) : bool :=
  match kind e with KFile => true | _ => false end.
End Dirent.

Definition direntOf (e : jsstring * node) : Dirent.t :=
  {| Dirent.name := e.1;
     Dirent.kind := match e.2 with
                    | File _ => KFile
                    | Dir _ => KDirectory
                    | Special => KOther
                    end |}.

(** Replace or create the entry [n] of a directory. *)
Fixpoint updateEntry (n : jsstring) (f : option node -> errcode + node)
    (es : list (jsstring * node)) : errcode + list (jsstring * node) :=
  match es with
  | [] =>
      match f None with
      | inr c => inr [(n, c)]
      | inl e => inl e
      end
  | (m, c) :: es' =>
      if bool_decide (m = n) then
        match f (Some c) with
        | inr c' => inr ((m, c') :: es')
        | inl e => inl e
        end
      else
        match updateEntry n f es' with
        | inr es'' => inr ((m, c) :: es'')
        | inl e => inl e
        end
  end.

(** The tree after [fs.writeFile(p, data)]: the file is replaced or created
    in an existing directory. *)
Fixpoint writeAt (p : path) (data : jsstring) (t : option node) : errcode + node :=
  match p, t with
  | [], None => inr (File data)
  | [], Some (File _) => inr (File data)
  | [], Some (Dir _) => inl EISDIR
  | [], Some Special => inl EIO
  | n :: p', Some (Dir es) =>
      match updateEntry n (writeAt p' data) es with
      | inr es' => inr (Dir es')
      | inl e => inl e
      end
  | _ :: _, Some _ => inl ENOTDIR
  | _ :: _, None => inl ENOENT
  end.

(** ** Effects: the file system as state, exceptions as results *)

Definition M (A : Type) : Type := node -> result A * node.

#[global] Instance M_ret : MRet M := fun A a fs => (Ok a, fs).

#[global] Instance M_bind : MBind M := fun A B k m fs =>
  match m fs with
  | (Ok a, fs') => k a fs'
  | (Err e, fs') => (Err e, fs')
  end.

Definition throw {A} (e : error) : M A := fun fs => (Err e, fs).

Definition tryCatch {A} (body : M A) (handler : error -> M A) : M A := fun fs =>
  match body fs with
  | (Ok a, fs') => (Ok a, fs')
  | (Err e, fs') => handler e fs'
  end.

(** [for (const x of xs) ys.push(await f(x))] *)
Fixpoint forEach {A B} (f : A -> M B) (xs : list A) : M (list B) :=
  match xs with
  | [] => mret []
  | x :: xs' => y ← f x; ys ← forEach f xs'; mret (y :: ys)
  end.

Record Stats := { isDirectory : bool }.

Definition fs_stat (p : path) : M Stats := fun fs =>
  match resolve fs p with
  | inr (Dir _) => (Ok {| isDirectory := true |}, fs)
  | inr _ => (Ok {| isDirectory := false |}, fs)
  | inl c => (Err (SystemError c p), fs)
  end.

Definition fs_readdir (p : path) : M (list Dirent.t) := fun fs =>
  match resolve fs p with
  | inr (Dir es) => (Ok (map direntOf es), fs)
  | inr _ => (Err (SystemError ENOTDIR p), fs)
  | inl c => (Err (SystemError c p), fs)
  end.

(** [fs.readFile(p, 'utf-8')].  A read that the system rejects on a regular
    file (EACCES, EIO) is not among the outcomes. *)
Definition fs_readFile (p : path) : M jsstring := fun fs =>
  match resolve fs p with
  | inr (File data) => (Ok data, fs)
  | inr (Dir _) => (Err (SystemError EISDIR p), fs)
  | inr Special => (Err (SystemError EIO p), fs)
  | inl c => (Err (SystemError c p), fs)
  end.

(** [fs.writeFile(p, data, 'utf-8')].  A write that fails does so when the
    file is opened, and the tree stays as it is.  A failure behind the open,
    which leaves the file truncated, is not among the outcomes. *)
Definition fs_writeFile (p : path) (data : jsstring) : M unit := fun fs =>
  match writeAt p data (Some fs) with
  | inr fs' => (Ok tt, fs')
  | inl c => (Err (SystemError c p), fs)
  end.

(** ** Data model *)

Module Override.
(** An entry of [overrides]; a field that is absent (or [null]) is [None].
    [overrides[slug]] for a key the object does not own is [undefined] or a
    member of [Object.prototype]; neither has a [label] or a [description],
    so both read as [empty]. *)
Record t := { label : option jsstring; description : option jsstring }.
Definition empty : t := {| label := None; description := None |}.
End Override.

(** The value of a [fileOrder] field that is present: [null], or an array of
    names. *)
Inductive fileOrderValue :=
  | FileOrderNull
  | FileOrderNames (names : list jsstring).

Module ChildConfig.
(** [fileOrder] and [overrides] are [None] when the field is absent;
    [overrides: null] reads as absent, since [child.overrides ?? {}] treats
    both alike. *)
Record t := {
  id : jsstring;
  label : jsstring;
  description : jsstring;
  directory : jsstring;
  fileOrder : option fileOrderValue;
  overrides : option (gmap jsstring Override.t);
}.
End ChildConfig.

(** The names a [fileOrder] field lists; [None] when it is absent or
    [null]. *)
Definition listedNames (fileOrder : option fileOrderValue) : option (list jsstring) :=
  match fileOrder with
  | Some (FileOrderNames names) => Some names
  | _ => None
  end.

Module CollectionConfig.
Record t := { label : jsstring; children : list ChildConfig.t }.
End CollectionConfig.

Module Configuration.
Record t := {
  previewTitle : jsstring;
  previewDescription : jsstring;
  collections : list CollectionConfig.t;
}.
End Configuration.

Module FileEntry.
Record t := {
  id : jsstring;
  label : jsstring;
  description : jsstring;
  path : jsstring;
}.
End FileEntry.

Module Child.
Record t := {
  id : jsstring;
  label : jsstring;
  description : jsstring;
  files : list FileEntry.t;
}.
End Child.

Module Collection.
Record t := { label : jsstring; children : list Child.t }.
End Collection.

Module Manifest.
Record t := {
  previewTitle : jsstring;
  previewDescription : jsstring;
  collections : list Collection.t;
}.
End Manifest.

(** ** orderFiles *)

(** A JavaScript [Set] of strings: its elements in insertion order. *)
Definition Set_has (s : list jsstring) (x : jsstring) : bool :=
  bool_decide (x ∈ s).

Definition Set_add (s : list jsstring) (x : jsstring) : list jsstring :=
  if Set_has s x then s else s ++ [x].

Definition Set_delete (s : list jsstring) (x : jsstring) : list jsstring :=
  List.filter (fun y => negb (bool_decide (y = x))) s.

Definition Set_new (xs : list jsstring) : list jsstring :=
  fold_left Set_add xs [].

(** [a || b] on strings: the empty string is the only falsy string. *)
Definition orElse (a b : jsstring) : jsstring :=
  match a with
  | [] => b
  | _ => a
  end.

(** [a ?? b]: [b] only when [a] is [undefined] (or [null]). *)
Definition coalesce {A} (a : option A) (b : A) : A :=
  match a with
  | Some x => x
  | None => b
  end.

(** [extractTextFromHtml(raw, 'h2') || extractTextFromHtml(raw, 'h1')] *)
Definition headingTextOf (raw : jsstring) : jsstring :=
  orElse (extractTextFromHtml raw (js "h2")) (extractTextFromHtml raw (js "h1")).

Section OrderFiles.

(** [a.localeCompare(b)]: the host's collation, negative when [a] sorts
    before [b]. *)
Variable localeCompare : jsstring -> jsstring -> Z.

Fixpoint insertSorted (x : jsstring) (l : list jsstring) : list jsstring :=
  match l with
  | [] => [x]
  | y :: l' =>
      if (localeCompare x y <=? 0)%Z then x :: l
      else y :: insertSorted x l'
  end.

(** [xs.sort((a, b) => a.localeCompare(b))].  The sort is stable, so for a
    consistent comparator the result is determined: elements that compare
    equal keep their order. *)
Definition sortByLocale (xs : list jsstring) : list jsstring :=
  foldr insertSorted [] xs.

(** The [for ... of fileOrder] loop; the state is [existing], [ordered]. *)
Fixpoint orderLoop (fileOrder existing ordered : list jsstring)
    : list jsstring * list jsstring :=
  match fileOrder with
  | [] => (existing, ordered)
  | name :: rest =>
      if Set_has existing name
      then orderLoop rest (Set_delete existing name) (ordered ++ [name])
      else orderLoop rest existing ordered
  end.

Definition orderFiles (files : list jsstring) (fileOrder : option (list jsstring))
    : list jsstring :=
  let '(existing, ordered) := orderLoop (default [] fileOrder) (Set_new files) [] in
  ordered ++ sortByLocale existing.

End OrderFiles.

(** ** The builder *)

Section Builder.

(** [path.resolve(__dirname, '..')]: the directory above the script's own,
    absolute and normalised. *)
Variable ROOT : path.
(** [JSON.parse] of the configuration text; [None] when it throws. *)
Variable JSON_parse : jsstring -> option Configuration.t.
(** [JSON.stringify(manifest, null, 2)] *)
Variable JSON_stringify : Manifest.t -> jsstring.
Variable localeCompare : jsstring -> jsstring -> Z.

Definition CONFIG_PATH : path :=
  path_join (path_join ROOT (js "content")) (js "manifest.config.json").
Definition OUTPUT_PATH : path :=
  path_join (path_join ROOT (js "content")) (js "manifest.json").

Definition readConfig : M Configuration.t :=
  raw ← fs_readFile CONFIG_PATH;
  match JSON_parse raw with
  | Some config => mret config
  | None => throw SyntaxError
  end.

Definition ensureDirectoryExists (dir : path) : M unit :=
  tryCatch
    (stat ← fs_stat dir;
     if negb (isDirectory stat) then throw (JsError (NotADirectory dir))
     else mret tt)
    (fun error =>
       if bool_decide (error_code error = Some ENOENT)
       then throw (JsError (DirectoryNotFound dir))
       else throw error).

Definition isHtmlEntry (entry : Dirent.t) : bool :=
  Dirent.isFile entry && endsWith (toLowerCase (Dirent.name entry)) (js ".html").

Definition listHtmlFiles (dir : path) : M (list jsstring) :=
  entries ← fs_readdir dir;
  mret (map Dirent.name (List.filter isHtmlEntry entries)).

Definition buildFileEntry (dir : path) (fileName : jsstring)
    (overrides : gmap jsstring Override.t) : M FileEntry.t :=
  let filePath := path_join dir fileName in
  raw ← fs_readFile filePath;
  let headingText := headingTextOf raw in
  let descriptionText := extractTextFromHtml raw (js "p") in
  let slug := basename fileName (extname fileName) in
  let override := coalesce (overrides !! slug) Override.empty in
  mret {|
    FileEntry.id := slug;
    FileEntry.label :=
      coalesce (Override.label override) (coalesce (Some headingText) slug);
    FileEntry.description :=
      coalesce (Override.description override) descriptionText;
    FileEntry.path :=
      replaceAll (matchLiteral [BACKSLASH]) [SLASH]
        (path_join_relative (path_relative ROOT dir) fileName);
  |}.

(** [orderFiles(htmlFiles, child.fileOrder)] as the builder calls it.  The
    default [[]] stands in for an argument that is [undefined], that is, for
    a field that is absent; [null] is passed on as it is, and
    [for (const name of null)] throws a TypeError. *)
Definition orderFilesOf (files : list jsstring) (fileOrder : option fileOrderValue)
    : M (list jsstring) :=
  match fileOrder with
  | Some FileOrderNull => throw TypeError
  | _ => mret (orderFiles localeCompare files (listedNames fileOrder))
  end.

Definition buildChild (child : ChildConfig.t) : M Child.t :=
  let directory := path_join ROOT (ChildConfig.directory child) in
  _ ← ensureDirectoryExists directory;
  htmlFiles ← listHtmlFiles directory;
  orderedFiles ← orderFilesOf htmlFiles (ChildConfig.fileOrder child);
  let overrides := coalesce (ChildConfig.overrides child) ∅ in
  files ← forEach (fun fileName => buildFileEntry directory fileName overrides)
            orderedFiles;
  mret {|
    Child.id := ChildConfig.id child;
    Child.label := ChildConfig.label child;
    Child.description := ChildConfig.description child;
    Child.files := files;
  |}.

Definition buildCollection (collection : CollectionConfig.t) : M Collection.t :=
  children ← forEach buildChild (CollectionConfig.children collection);
  mret {|
    Collection.label := CollectionConfig.label collection;
    Collection.children := children;
  |}.

Definition buildManifest : M Manifest.t :=
  config ← readConfig;
  collections ← forEach buildCollection (Configuration.collections config);
  mret {|
    Manifest.previewTitle := Configuration.previewTitle config;
    Manifest.previewDescription := Configuration.previewDescription config;
    Manifest.collections := collections;
  |}.

Definition payloadOf (manifest : Manifest.t) : jsstring :=
  JSON_stringify manifest ++ [10].

Definition writeManifest (manifest : Manifest.t) : M unit :=
  fs_writeFile OUTPUT_PATH (payloadOf manifest).

Definition main : M unit :=
  manifest ← buildManifest;
  writeManifest manifest.

(** [main().catch(...)]: the exit code of the process and the file system
    it leaves. *)
Definition run (fs : node) : Z * node :=
  match main fs with
  | (Ok _, fs') => (0%Z, fs')
  | (Err _, fs') => (1%Z, fs')
  end.

End Builder.

(** ** Auxiliary notions used in the statements *)

(** The distinct elements of a list, each at its first occurrence. *)
Fixpoint firstOccurrences (xs : list jsstring) : list jsstring :=
  match xs with
  | [] => []
  | x :: xs' => x :: Set_delete (firstOccurrences xs') x
  end.

Definition memb (xs : list jsstring) (x : jsstring) : bool :=
  bool_decide (x ∈ xs).

(** The names [listHtmlFiles] keeps from the entries of a directory. *)
Definition htmlNames (es : list (jsstring * node)) : list jsstring :=
  map Dirent.name (List.filter isHtmlEntry (map direntOf es)).

(** Comparison by code units, a comparator to instantiate [localeCompare]
    with. *)
Fixpoint codeUnitCompare (a b : jsstring) : Z :=
  match a, b with
  | [], [] => 0%Z
  | [], _ :: _ => (-1)%Z
  | _ :: _, [] => 1%Z
  | x :: a', y :: b' =>
      if x <? y then (-1)%Z
      else if y <? x then 1%Z
      else codeUnitCompare a' b'
  end.

(** A computation that leaves the file system as it found it. *)
Definition readonly {A} (m : M A) : Prop := forall fs, (m fs).2 = fs.

Definition isHtmlName (n : jsstring) : bool :=
  endsWith (toLowerCase n) (js ".html").

(** [fs1] shows what [fs] shows: every file of [fs] other than [out] has the
    same content in [fs1], and every directory of [fs] is a directory of
    [fs1] with the same HTML files. *)
Definition sameInputs (out : path) (fs fs1 : node) : Prop :=
  (forall p data, p <> out ->
     resolve fs p = inr (File data) -> resolve fs1 p = inr (File data))
  /\ (forall p es, resolve fs p = inr (Dir es) ->
        exists es1, resolve fs1 p = inr (Dir es1) /\ htmlNames es1 = htmlNames es).

Definition isFileNode (t : node) : bool :=
  match t with
  | File _ => true
  | _ => false
  end.

(** The entry [buildFileEntry] returns for a file whose text is [raw]. *)
Definition entryOf (ROOT dir : path) (fileName raw : jsstring)
    (overrides : gmap jsstring Override.t) : FileEntry.t :=
  let slug := slugOf fileName in
  let override := coalesce (overrides !! slug) Override.empty in
  {| FileEntry.id := slug;
     FileEntry.label := coalesce (Override.label override) (headingTextOf raw);
     FileEntry.description :=
       coalesce (Override.description override) (extractTextFromHtml raw (js "p"));
     FileEntry.path :=
       replaceAll (matchLiteral [BACKSLASH]) [SLASH]
         (path_join_relative (path_relative ROOT dir) fileName) |}.

(** [a] sorts before [b], or with it. *)
Definition precedes (localeCompare : jsstring -> jsstring -> Z) (a b : jsstring) : Prop :=
  (localeCompare a b <= 0)%Z.

(** The same child with another [fileOrder]. *)
Definition withFileOrder (child : ChildConfig.t) (fileOrder : option fileOrderValue)
    : ChildConfig.t :=
  {| ChildConfig.id := ChildConfig.id child;
     ChildConfig.label := ChildConfig.label child;
     ChildConfig.description := ChildConfig.description child;
     ChildConfig.directory := ChildConfig.directory child;
     ChildConfig.fileOrder := fileOrder;
     ChildConfig.overrides := ChildConfig.overrides child |}.

(** ** A small site, for concrete instances *)

Definition exampleRoot : path := [js "site"].

Definition exampleChild : ChildConfig.t :=
  {| ChildConfig.id := js "algorithms";
     ChildConfig.label := js "Algorithms";
     ChildConfig.description := js "Notes on algorithms";
     ChildConfig.directory := js "content/algorithms";
     ChildConfig.fileOrder :=
       Some (FileOrderNames [js "zeta.html"; js "missing.html"; js "intro.html"]);
     ChildConfig.overrides :=
       Some {[ js "myfile" := {| Override.label := Some (js "Custom");
                                 Override.description := None |} ]} |}.

Definition exampleCollection : CollectionConfig.t :=
  {| CollectionConfig.label := js "Guides";
     CollectionConfig.children := [exampleChild] |}.

Definition exampleConfig : Configuration.t :=
  {| Configuration.previewTitle := js "Preview";
     Configuration.previewDescription := js "All pages";
     Configuration.collections := [exampleCollection] |}.

Definition exampleParse (raw : jsstring) : option Configuration.t :=
  Some exampleConfig.

(** A stand-in for [JSON.stringify]: the paths and labels of all files. *)
Definition exampleStringify (manifest : Manifest.t) : jsstring :=
  Manifest.previewTitle manifest
  ++ concat (map (fun collection =>
       Collection.label collection
       ++ concat (map (fun child =>
            Child.id child
            ++ concat (map (fun file =>
                 [10] ++ FileEntry.path file ++ js "|" ++ FileEntry.label file
                 ++ js "|" ++ FileEntry.description file)
               (Child.files child)))
          (Collection.children collection)))
     (Manifest.collections manifest)).

Definition exampleEntries : list (jsstring * node) :=
  [ (js "myfile.html", File (js "<h2>Original</h2><p>Extracted text</p>"));
    (js "intro.html", File (js "<h1>Title</h1>"));
    (js "Basics.HTML",
       File (js "<h2>Hello &amp; World</h2><p>A <b>bold</b> test.</p>"));
    (js "zeta.html", File (js "<h2></h2><h1>Zed</h1>"));
    (js "notes.txt", File (js "<h2>not a page</h2>"));
    (js "folder.html", Dir []);
    (js "drafts", Dir [(js "deep.html", File (js "<h1>Deep</h1>"))]) ].

Definition exampleFs : node :=
  Dir [ (js "site",
         Dir [ (js "content",
                Dir [ (js "manifest.config.json", File (js "{}"));
                      (js "algorithms", Dir exampleEntries) ]) ]) ].

(** The same site without the directory of the child. *)
Definition bareFs : node :=
  Dir [ (js "site",
         Dir [ (js "content",
                Dir [ (js "manifest.config.json", File (js "{}")) ]) ]) ].

Definition exampleDirectory : path :=
  [js "site"; js "content"; js "algorithms"].

(** An override that gives [intro.html] a label and a description. *)
Definition introOverrides : gmap jsstring Override.t :=
  {[ js "intro" := {| Override.label := Some (js "Welcome");
                      Override.description := Some (js "Start here") |} ]}.

Definition exampleChildBuilt : Child.t :=
  Eval vm_compute in
    match buildChild exampleRoot codeUnitCompare exampleChild exampleFs with
    | (Ok child, _) => child
    | (Err _, _) =>
        {| Child.id := []; Child.label := []; Child.description := [];
           Child.files := [] |}
    end.

(** ** The collation behind [localeCompare] *)

(** [a.localeCompare(b)] with no further argument compares by the collation
    of the host's default locale.  On names written with ASCII letters,
    digits, [_], [-] and [.], the root collation of ICU (which English and
    most other locales leave as it is on these characters) compares first
    without regard to case, [_] before [-] before [.] before the digits
    before the letters of the alphabet, and a name before its extensions;
    names alike in this are compared by case, lower case first, at the
    first place where they differ.  [rootCollation] is this comparison.  A
    code unit outside the alphabet named above is placed behind the letters
    by its value; nothing is said here of what ICU does with it. *)
Definition primaryWeight (c : N) : N :=
  if c =? 95 then 1
  else if c =? 45 then 2
  else if c =? 46 then 3
  else if (48 <=? c) && (c <=? 57) then 10 + (c - 48)
  else if (65 <=? c) && (c <=? 90) then 20 + (c - 65)
  else if (97 <=? c) && (c <=? 122) then 20 + (c - 97)
  else 100 + c.

Definition caseWeight (c : N) : N :=
  if (65 <=? c) && (c <=? 90) then 1 else 0.

Definition rootCollation (a b : jsstring) : Z :=
  match codeUnitCompare (map primaryWeight a) (map primaryWeight b) with
  | 0%Z => codeUnitCompare (map caseWeight a) (map caseWeight b)
  | r => r
  end.

(** A directory whose two pages differ in the case of the first letter. *)
Definition mixedCaseFs : node :=
  Dir [ (js "site",
         Dir [ (js "content",
                Dir [ (js "manifest.config.json", File (js "{}"));
                      (js "pages",
                       Dir [ (js "B.html", File (js "<h1>Bravo</h1>"));
                             (js "a.html", File (js "<h1>alpha</h1>")) ]) ]) ]) ].

Definition mixedCaseChild : ChildConfig.t :=
  {| ChildConfig.id := js "pages";
     ChildConfig.label := js "Pages";
     ChildConfig.description := js "Two pages";
     ChildConfig.directory := js "content/pages";
     ChildConfig.fileOrder := None;
     ChildConfig.overrides := None |}.

Definition mixedCaseBuilt : Child.t :=
  Eval vm_compute in
    match buildChild exampleRoot rootCollation mixedCaseChild mixedCaseFs with
    | (Ok child, _) => child
    | (Err _, _) =>
        {| Child.id := []; Child.label := []; Child.description := [];
           Child.files := [] |}
    end.

(** ** The post-processing as the specification words it *)

(** "Remove all remaining inline tags": every match of [<[^>]+>] is taken
    out and nothing is put in its place. *)
Definition removeTags (raw : jsstring) : jsstring :=
  replaceAll matchTag [] raw.

Definition postprocessAsStated (raw : jsstring) : jsstring :=
  decodeHtmlEntities (trim (collapseSpaces (removeTags raw))).

(** What follows the ampersand in the six character references. *)
Definition entityNames : list jsstring :=
  [js "amp;"; js "lt;"; js "gt;"; js "quot;"; js "#39;"; js "#96;"].

(** [s] begins with one of [names]. *)
Definition startsWithAny (names : list jsstring) (s : jsstring) : bool :=
  existsb (startsWith s) names.

(** ** Further notions *)

(** White space occurs in [s] only as single spaces between other code
    units; [afterSpace] tells whether a space (or the start of the text)
    stands before [s]. *)
Fixpoint spacedWords (afterSpace : bool) (s : jsstring) : bool :=
  match s with
  | [] => negb afterSpace
  | c :: s' =>
      if isWhiteSpace c
      then (c =? SPACE) && negb afterSpace && spacedWords true s'
      else spacedWords false s'
  end.

Definition tidy (s : jsstring) : bool :=
  match s with
  | [] => true
  | _ => spacedWords true s
  end.

(** A name without a slash. *)
Definition plainName (n : jsstring) : bool :=
  forallb (fun c => negb (c =? SLASH)) n.

(** The manifest of a configuration in which no collection has a child. *)
Definition emptyManifest (config : Configuration.t) : Manifest.t :=
  {| Manifest.previewTitle := Configuration.previewTitle config;
     Manifest.previewDescription := Configuration.previewDescription config;
     Manifest.collections :=
       map (fun collection =>
              {| Collection.label := CollectionConfig.label collection;
                 Collection.children := [] |})
           (Configuration.collections config) |}.

(** A child of the manifest carries the identity of its configuration. *)
Definition mirrorsChild (child : ChildConfig.t) (built : Child.t) : Prop :=
  Child.id built = ChildConfig.id child
  /\ Child.label built = ChildConfig.label child
  /\ Child.description built = ChildConfig.description child.

Definition mirrorsCollection (collection : CollectionConfig.t) (built : Collection.t)
    : Prop :=
  Collection.label built = CollectionConfig.label collection
  /\ Forall2 mirrorsChild (CollectionConfig.children collection)
       (Collection.children built).

(** A configuration without children. *)
Definition childlessConfig : Configuration.t :=
  {| Configuration.previewTitle := js "Preview";
     Configuration.previewDescription := js "All pages";
     Configuration.collections :=
       [ {| CollectionConfig.label := js "Guides"; CollectionConfig.children := [] |};
         {| CollectionConfig.label := js "Notes"; CollectionConfig.children := [] |} ] |}.

Definition exampleManifest : Manifest.t :=
  Eval vm_compute in
    match buildManifest exampleRoot exampleParse codeUnitCompare exampleFs with
    | (Ok manifest, _) => manifest
    | (Err _, _) => emptyManifest exampleConfig
    end.

(** The example child with [fileOrder: null]. *)
Definition nullOrderChild : ChildConfig.t :=
  withFileOrder exampleChild (Some FileOrderNull).

Definition nullOrderConfig : Configuration.t :=
  {| Configuration.previewTitle := js "Preview";
     Configuration.previewDescription := js "All pages";
     Configuration.collections :=
       [ {| CollectionConfig.label := js "Guides";
            CollectionConfig.children := [nullOrderChild] |} ] |}.

(** * Properties *)

(** ** Scanning and replacing *)

Lemma takeWhile_dropWhile f s : takeWhile f s ++ dropWhile f s = s.
Proof.
  induction s as [|c s IH]; simpl; [done|].
  destruct (f c); simpl; [by rewrite IH | done].
Qed.

Lemma drop_takeWhile f s : drop (length (takeWhile f s)) s = dropWhile f s.
Proof.
  induction s as [|c s IH]; simpl; [done|].
  destruct (f c); simpl; [apply IH | done].
Qed.

Lemma takeWhile_all f s : forallb f (takeWhile f s) = true.
Proof.
  induction s as [|c s IH]; simpl; [done|].
  destruct (f c) eqn:E; simpl; [by rewrite E | done].
Qed.

Lemma dropWhile_head f s c r : dropWhile f s = c :: r -> f c = false.
Proof.
  induction s as [|d s IH]; simpl; [done|].
  destruct (f d) eqn:E; [done|]. by intros [= -> _].
Qed.

Lemma dropWhile_length f s : (length (dropWhile f s) <= length s)%nat.
Proof.
  induction s as [|c s IH]; simpl; [lia|]. destruct (f c); simpl; lia.
Qed.

Lemma replaceFrom_skip m rep n s :
  replaceFrom m rep n s = replaceFrom m rep 0 (drop n s).
Proof.
  revert n; induction s as [|c s IH]; intros [|n]; simpl; done.
Qed.

Lemma replaceAll_nil m rep : replaceAll m rep [] = [].
Proof. done. Qed.

Lemma replaceAll_match m rep s n :
  s <> [] -> m s = Some (S n) ->
  replaceAll m rep s = rep ++ replaceAll m rep (drop (S n) s).
Proof.
  intros Hs Hm. destruct s as [|c s]; [done|].
  unfold replaceAll; simpl. rewrite Hm. by rewrite replaceFrom_skip.
Qed.

Lemma replaceAll_skip m rep c s :
  m (c :: s) = None -> replaceAll m rep (c :: s) = c :: replaceAll m rep s.
Proof. intros Hm. unfold replaceAll; simpl. by rewrite Hm. Qed.

Lemma startsWith_app s pat : startsWith (pat ++ s) pat = true.
Proof. induction pat as [|p pat IH]; simpl; [done|]. rewrite N.eqb_refl; exact IH. Qed.

Lemma startsWith_spec s pat :
  startsWith s pat = true <-> exists r, s = pat ++ r.
Proof.
  revert s; induction pat as [|p pat IH]; intros s; simpl.
  - split; [by exists s | done].
  - destruct s as [|c s]; [split; [done | by intros [r ?]]|].
    rewrite andb_true_iff, N.eqb_eq, IH. split.
    + intros [-> [r ->]]. by exists r.
    + intros [r [= -> ->]]. eauto.
Qed.

(** A literal match cannot reach across a code unit that the pattern does
    not contain behind its first position. *)
Lemma startsWith_separator x c y pat :
  forallb (fun p => negb (p =? c)) pat = true ->
  startsWith (x ++ c :: y) pat = startsWith x pat.
Proof.
  revert x; induction pat as [|p pat IH]; intros x Hc; simpl in *; [done|].
  apply andb_true_iff in Hc as [Hp Hc].
  destruct x as [|a x]; simpl.
  - apply negb_true_iff in Hp. rewrite N.eqb_sym in Hp. by rewrite Hp.
  - by rewrite IH.
Qed.

Lemma startsWith_length s pat :
  startsWith s pat = true -> (length pat <= length s)%nat.
Proof.
  intros [r ->]%startsWith_spec. rewrite length_app. lia.
Qed.

Lemma replaceFrom_literal_app pat rep x c y n :
  forallb (fun p => negb (p =? c)) (tl pat) = true ->
  (n <= length x)%nat ->
  replaceFrom (matchLiteral pat) rep n (x ++ c :: y)
  = replaceFrom (matchLiteral pat) rep n x
    ++ replaceFrom (matchLiteral pat) rep 0 (c :: y).
Proof.
  intros Hc. revert n; induction x as [|a x IH]; intros n Hn.
  - destruct n; [done | simpl in Hn; lia].
  - destruct n as [|n].
    + assert (Hm : matchLiteral pat ((a :: x) ++ c :: y) = matchLiteral pat (a :: x)).
      { unfold matchLiteral. destruct pat as [|p pat]; [done|].
        cbn [startsWith tl app] in *. by rewrite startsWith_separator. }
      cbn [app replaceFrom]. cbn [app] in Hm. rewrite Hm.
      destruct (matchLiteral pat (a :: x)) as [[|k]|] eqn:E;
        [by rewrite IH by lia| |by rewrite IH by lia].
      rewrite IH; [by rewrite <- app_assoc|].
      unfold matchLiteral in E. destruct (startsWith (a :: x) pat) eqn:E'; [|done].
      apply startsWith_length in E'. simpl in E'. injection E as E. lia.
    + simpl in *. apply IH. lia.
Qed.

Lemma replaceAll_literal_app pat rep x c y :
  forallb (fun p => negb (p =? c)) (tl pat) = true ->
  replaceAll (matchLiteral pat) rep (x ++ c :: y)
  = replaceAll (matchLiteral pat) rep x ++ replaceAll (matchLiteral pat) rep (c :: y).
Proof. intros Hc. apply replaceFrom_literal_app; [done | lia]. Qed.

(** Text without the first code unit of the pattern is left as it is. *)
Lemma replaceAll_literal_absent p pat rep s :
  forallb (fun c => negb (c =? p)) s = true ->
  replaceAll (matchLiteral (p :: pat)) rep s = s.
Proof.
  induction s as [|c s IH]; [done|]. simpl. intros [Hc Hs]%andb_true_iff.
  rewrite replaceAll_skip; [by rewrite IH|].
  unfold matchLiteral; simpl. apply negb_true_iff in Hc. by rewrite Hc.
Qed.

(** One replacement of the chain, seen from a fixed piece [c :: M] of the
    text: what lies before and behind it is replaced independently. *)
Lemma replaceAll_literal_piece pat rep X c M M' Y :
  forallb (fun p => negb (p =? c)) (tl pat) = true ->
  (forall Z, replaceAll (matchLiteral pat) rep (c :: M ++ Z)
             = M' ++ replaceAll (matchLiteral pat) rep Z) ->
  replaceAll (matchLiteral pat) rep (X ++ (c :: M) ++ Y)
  = replaceAll (matchLiteral pat) rep X ++ M' ++ replaceAll (matchLiteral pat) rep Y.
Proof.
  intros Hc HM. cbn [app]. by rewrite replaceAll_literal_app, HM.
Qed.

Ltac piece c M M' :=
  rewrite (replaceAll_literal_piece _ _ _ c M M')
    by first [reflexivity | intros; reflexivity].

Lemma decode_amp_lt u v :
  decodeHtmlEntities (u ++ js "&amp;lt;" ++ v)
  = decodeHtmlEntities u ++ js "<" ++ decodeHtmlEntities v.
Proof.
  unfold decodeHtmlEntities.
  change (js "&amp;lt;") with (38 :: js "amp;lt;").
  piece 38 (js "amp;lt;") (38 :: js "lt;").
  piece 38 (js "lt;") (60 :: []).
  do 4 piece 60 (@nil N) (60 :: []).
  reflexivity.
Qed.

Lemma decode_amp_gt u v :
  decodeHtmlEntities (u ++ js "&amp;gt;" ++ v)
  = decodeHtmlEntities u ++ js ">" ++ decodeHtmlEntities v.
Proof.
  unfold decodeHtmlEntities.
  change (js "&amp;gt;") with (38 :: js "amp;gt;").
  piece 38 (js "amp;gt;") (38 :: js "gt;").
  piece 38 (js "gt;") (38 :: js "gt;").
  piece 38 (js "gt;") (62 :: []).
  do 3 piece 62 (@nil N) (62 :: []).
  reflexivity.
Qed.

Lemma decode_amp_quot u v :
  decodeHtmlEntities (u ++ js "&amp;quot;" ++ v)
  = decodeHtmlEntities u ++ [34] ++ decodeHtmlEntities v.
Proof.
  unfold decodeHtmlEntities.
  change (js "&amp;quot;") with (38 :: js "amp;quot;").
  piece 38 (js "amp;quot;") (38 :: js "quot;").
  do 2 piece 38 (js "quot;") (38 :: js "quot;").
  piece 38 (js "quot;") (34 :: []).
  do 2 piece 34 (@nil N) (34 :: []).
  reflexivity.
Qed.

Lemma decode_amp_39 u v :
  decodeHtmlEntities (u ++ js "&amp;#39;" ++ v)
  = decodeHtmlEntities u ++ js "'" ++ decodeHtmlEntities v.
Proof.
  unfold decodeHtmlEntities.
  change (js "&amp;#39;") with (38 :: js "amp;#39;").
  piece 38 (js "amp;#39;") (38 :: js "#39;").
  do 3 piece 38 (js "#39;") (38 :: js "#39;").
  piece 38 (js "#39;") (39 :: []).
  piece 39 (@nil N) (39 :: []).
  reflexivity.
Qed.

Lemma decode_amp_96 u v :
  decodeHtmlEntities (u ++ js "&amp;#96;" ++ v)
  = decodeHtmlEntities u ++ js "`" ++ decodeHtmlEntities v.
Proof.
  unfold decodeHtmlEntities.
  change (js "&amp;#96;") with (38 :: js "amp;#96;").
  piece 38 (js "amp;#96;") (38 :: js "#96;").
  do 4 piece 38 (js "#96;") (38 :: js "#96;").
  piece 38 (js "#96;") (96 :: []).
  reflexivity.
Qed.

(** A replacement leaves the start of the text as it is, where that start
    holds neither the first code unit of the pattern nor the replacement. *)
Lemma startsWith_replaceAll_literal p pat r t s :
  forallb (fun a => negb (a =? p) && negb (a =? r)) t = true ->
  startsWith (replaceAll (matchLiteral (p :: pat)) [r] s) t = startsWith s t.
Proof.
  revert s; induction t as [|a t IH]; intros s Ht; [done|].
  cbn [forallb] in Ht. apply andb_true_iff in Ht as [Ha Ht].
  apply andb_true_iff in Ha as [Hp Hr]. apply negb_true_iff in Hp, Hr.
  destruct s as [|c s]; [done|].
  destruct (matchLiteral (p :: pat) (c :: s)) as [n|] eqn:Hm.
  - unfold matchLiteral in Hm.
    destruct (startsWith (c :: s) (p :: pat)) eqn:Hc; [|done].
    injection Hm as <-. cbn [startsWith] in Hc.
    apply andb_true_iff in Hc as [Hc Hs]. apply N.eqb_eq in Hc as ->.
    rewrite (replaceAll_match _ _ (p :: s) (length pat)); [|done|].
    + cbn [app startsWith]. rewrite (N.eqb_sym r a), Hr, (N.eqb_sym p a), Hp. done.
    + unfold matchLiteral. cbn [startsWith]. by rewrite N.eqb_refl, Hs.
  - rewrite replaceAll_skip by done. cbn [startsWith]. by rewrite IH.
Qed.

(** An ampersand that does not begin the pattern stays, and the text on
    either side of it is replaced independently. *)
Lemma replaceAll_amp_kept pat rep X Y :
  forallb (fun p => negb (p =? AMP)) pat = true ->
  startsWith Y pat = false ->
  replaceAll (matchLiteral (AMP :: pat)) rep (X ++ AMP :: Y)
  = replaceAll (matchLiteral (AMP :: pat)) rep X
    ++ AMP :: replaceAll (matchLiteral (AMP :: pat)) rep Y.
Proof.
  intros Hpat HY. rewrite replaceAll_literal_app by exact Hpat.
  rewrite replaceAll_skip; [done|].
  unfold matchLiteral. cbn [startsWith]. by rewrite N.eqb_refl, HY.
Qed.

Lemma decode_lt u v :
  decodeHtmlEntities (u ++ js "&lt;" ++ v)
  = decodeHtmlEntities u ++ js "<" ++ decodeHtmlEntities v.
Proof.
  unfold decodeHtmlEntities.
  change (js "&lt;" ++ v) with ((38 :: js "lt;") ++ v).
  piece 38 (js "lt;") (38 :: js "lt;").
  piece 38 (js "lt;") (60 :: []).
  do 4 piece 60 (@nil N) (60 :: []).
  reflexivity.
Qed.

Lemma decode_gt u v :
  decodeHtmlEntities (u ++ js "&gt;" ++ v)
  = decodeHtmlEntities u ++ js ">" ++ decodeHtmlEntities v.
Proof.
  unfold decodeHtmlEntities.
  change (js "&gt;" ++ v) with ((38 :: js "gt;") ++ v).
  do 2 piece 38 (js "gt;") (38 :: js "gt;").
  piece 38 (js "gt;") (62 :: []).
  do 3 piece 62 (@nil N) (62 :: []).
  reflexivity.
Qed.

Lemma decode_quot u v :
  decodeHtmlEntities (u ++ js "&quot;" ++ v)
  = decodeHtmlEntities u ++ [34] ++ decodeHtmlEntities v.
Proof.
  unfold decodeHtmlEntities.
  change (js "&quot;" ++ v) with ((38 :: js "quot;") ++ v).
  do 3 piece 38 (js "quot;") (38 :: js "quot;").
  piece 38 (js "quot;") (34 :: []).
  do 2 piece 34 (@nil N) (34 :: []).
  reflexivity.
Qed.

Lemma decode_39 u v :
  decodeHtmlEntities (u ++ js "&#39;" ++ v)
  = decodeHtmlEntities u ++ js "'" ++ decodeHtmlEntities v.
Proof.
  unfold decodeHtmlEntities.
  change (js "&#39;" ++ v) with ((38 :: js "#39;") ++ v).
  do 4 piece 38 (js "#39;") (38 :: js "#39;").
  piece 38 (js "#39;") (39 :: []).
  piece 39 (@nil N) (39 :: []).
  reflexivity.
Qed.

Lemma decode_96 u v :
  decodeHtmlEntities (u ++ js "&#96;" ++ v)
  = decodeHtmlEntities u ++ js "`" ++ decodeHtmlEntities v.
Proof.
  unfold decodeHtmlEntities.
  change (js "&#96;" ++ v) with ((38 :: js "#96;") ++ v).
  do 5 piece 38 (js "#96;") (38 :: js "#96;").
  piece 38 (js "#96;") (96 :: []).
  reflexivity.
Qed.

Ltac entity_patterns :=
  change (js "&amp;") with (AMP :: js "amp;");
  change (js "&lt;") with (AMP :: js "lt;");
  change (js "&gt;") with (AMP :: js "gt;");
  change (js "&quot;") with (AMP :: js "quot;");
  change (js "&#39;") with (AMP :: js "#39;");
  change (js "&#96;") with (AMP :: js "#96;");
  change (js "&") with [38]; change (js "<") with [60]; change (js ">") with [62];
  change (js "'") with [39]; change (js "`") with [96].

Ltac amp_kept name H :=
  rewrite (replaceAll_amp_kept name);
  [|reflexivity|rewrite ?startsWith_replaceAll_literal by reflexivity; exact H].

(** An ampersand that begins none of the six references stays. *)
Lemma decode_bare_amp u v :
  startsWithAny entityNames v = false ->
  decodeHtmlEntities (u ++ AMP :: v)
  = decodeHtmlEntities u ++ AMP :: decodeHtmlEntities v.
Proof.
  unfold startsWithAny, entityNames. cbn [existsb]. intros H.
  apply orb_false_iff in H as [H1 H]. apply orb_false_iff in H as [H2 H].
  apply orb_false_iff in H as [H3 H]. apply orb_false_iff in H as [H4 H].
  apply orb_false_iff in H as [H5 H]. apply orb_false_iff in H as [H6 _].
  unfold decodeHtmlEntities. entity_patterns.
  amp_kept (js "amp;") H1. amp_kept (js "lt;") H2. amp_kept (js "gt;") H3.
  amp_kept (js "quot;") H4. amp_kept (js "#39;") H5. amp_kept (js "#96;") H6.
  reflexivity.
Qed.

(** [&amp;] becomes an ampersand; when what follows is none of [lt;],
    [gt;], [quot;], [#39;], [#96;], that ampersand is part of the result. *)
Lemma decode_amp_other u v :
  startsWithAny (tl entityNames) v = false ->
  decodeHtmlEntities (u ++ js "&amp;" ++ v)
  = decodeHtmlEntities u ++ AMP :: decodeHtmlEntities v.
Proof.
  unfold startsWithAny, entityNames. cbn [tl existsb]. intros H.
  apply orb_false_iff in H as [H2 H]. apply orb_false_iff in H as [H3 H].
  apply orb_false_iff in H as [H4 H]. apply orb_false_iff in H as [H5 H].
  apply orb_false_iff in H as [H6 _].
  unfold decodeHtmlEntities.
  change (js "&amp;" ++ v) with ((38 :: js "amp;") ++ v).
  piece 38 (js "amp;") (38 :: []).
  cbn [app]. entity_patterns.
  amp_kept (js "lt;") H2. amp_kept (js "gt;") H3.
  amp_kept (js "quot;") H4. amp_kept (js "#39;") H5. amp_kept (js "#96;") H6.
  reflexivity.
Qed.

Lemma decode_without_amp s :
  forallb (fun c => negb (c =? AMP)) s = true -> decodeHtmlEntities s = s.
Proof.
  intros Hs. unfold decodeHtmlEntities.
  change (js "&amp;") with (AMP :: js "amp;").
  change (js "&lt;") with (AMP :: js "lt;").
  change (js "&gt;") with (AMP :: js "gt;").
  change (js "&quot;") with (AMP :: js "quot;").
  change (js "&#39;") with (AMP :: js "#39;").
  change (js "&#96;") with (AMP :: js "#96;").
  by rewrite !(replaceAll_literal_absent AMP _ _ s Hs).
Qed.

(** C10: the six replacements run one after the other, [&amp;] first, so a
    reference whose ampersand is itself written [&amp;] is decoded twice:
    [&amp;lt;] becomes [<] wherever it stands, and likewise for the other
    four.  Decoding all six in a single pass would leave [&lt;]. *)
Theorem decodeHtmlEntities_sequential :
  (forall text,
     decodeHtmlEntities text
     = replaceAll (matchLiteral (js "&#96;")) (js "`")
         (replaceAll (matchLiteral (js "&#39;")) (js "'")
           (replaceAll (matchLiteral (js "&quot;")) [34]
             (replaceAll (matchLiteral (js "&gt;")) (js ">")
               (replaceAll (matchLiteral (js "&lt;")) (js "<")
                 (replaceAll (matchLiteral (js "&amp;")) (js "&") text))))))
  /\ (forall u v,
        decodeHtmlEntities (u ++ js "&amp;lt;" ++ v)
        = decodeHtmlEntities u ++ js "<" ++ decodeHtmlEntities v)
  /\ (forall u v,
        decodeHtmlEntities (u ++ js "&amp;gt;" ++ v)
        = decodeHtmlEntities u ++ js ">" ++ decodeHtmlEntities v)
  /\ (forall u v,
        decodeHtmlEntities (u ++ js "&amp;quot;" ++ v)
        = decodeHtmlEntities u ++ [34] ++ decodeHtmlEntities v)
  /\ (forall u v,
        decodeHtmlEntities (u ++ js "&amp;#39;" ++ v)
        = decodeHtmlEntities u ++ js "'" ++ decodeHtmlEntities v)
  /\ (forall u v,
        decodeHtmlEntities (u ++ js "&amp;#96;" ++ v)
        = decodeHtmlEntities u ++ js "`" ++ decodeHtmlEntities v)
  /\ decodeHtmlEntities (js "&amp;lt;") = js "<"
  /\ decodeSimultaneously (js "&amp;lt;") = js "&lt;".
Proof.
  split; [done|].
  split; [apply decode_amp_lt|].
  split; [apply decode_amp_gt|].
  split; [apply decode_amp_quot|].
  split; [apply decode_amp_39|].
  split; [apply decode_amp_96|].
  split; vm_compute; reflexivity.
Qed.

(** ** Tags, white space, trimming *)

Lemma dropWhile_nil f s : dropWhile f s = [] <-> forallb f s = true.
Proof.
  induction s as [|c s IH]; simpl; [done|].
  destruct (f c); simpl; [done | split; done].
Qed.

Lemma matchTag_not_lt c s : (c =? LT) = false -> matchTag (c :: s) = None.
Proof. intros H. unfold matchTag. by rewrite H. Qed.

Lemma replaceFrom_notGT n s :
  forallb notGT s = true ->
  forallb notGT (replaceFrom matchTag [SPACE] n s) = true.
Proof.
  revert n; induction s as [|c s IH]; intros n; [done|].
  cbn [forallb]. intros [Hc Hs]%andb_true_iff.
  destruct n as [|n]; cbn [replaceFrom]; [|by apply IH].
  destruct (matchTag (c :: s)) as [[|k]|]; cbn [forallb app];
    rewrite ?Hc, ?IH; done.
Qed.

Lemma matchTag_None_iff c r :
  matchTag (c :: r) = None
  <-> (c =? LT) = false \/ takeWhile notGT r = [] \/ dropWhile notGT r = [].
Proof.
  unfold matchTag. destruct (c =? LT); [|by split; [left|]].
  destruct (takeWhile notGT r), (dropWhile notGT r); split; try done; auto.
  intros [|[|]]; done.
Qed.

Lemma matchTag_None_replaced c s :
  matchTag (c :: s) = None ->
  matchTag (c :: replaceAll matchTag [SPACE] s) = None.
Proof.
  intros H%matchTag_None_iff. apply matchTag_None_iff.
  destruct H as [H|[H|H]]; [by left| |].
  - right; left. destruct s as [|d s]; [done|].
    simpl in H. destruct (notGT d) eqn:Hd; [done|].
    rewrite replaceAll_skip.
    + simpl. by rewrite Hd.
    + apply matchTag_not_lt. unfold notGT in Hd. apply negb_false_iff in Hd.
      by apply N.eqb_eq in Hd as ->.
  - right; right. by apply dropWhile_nil, replaceFrom_notGT, dropWhile_nil.
Qed.

Lemma matchTag_Some_pos s n : matchTag s = Some n -> exists k, n = S (S k).
Proof.
  unfold matchTag. destruct s as [|c r]; [done|].
  destruct (c =? LT); [|done].
  destruct (takeWhile notGT r); [done|].
  destruct (dropWhile notGT r); [done|]. intros [= <-]. eauto.
Qed.

Lemma stripTags_tag s n :
  matchTag s = Some n -> stripTags s = SPACE :: stripTags (drop n s).
Proof.
  intros H. destruct (matchTag_Some_pos _ _ H) as [k ->].
  destruct s as [|c s]; [done|].
  apply (replaceAll_match matchTag [SPACE] (c :: s) (S k)); done.
Qed.

Lemma stripTags_other c s :
  matchTag (c :: s) = None -> stripTags (c :: s) = c :: stripTags s.
Proof. apply replaceAll_skip. Qed.

(** No match of [/<[^>]+>/] is left behind the replacement. *)
Lemma stripTags_no_tag_from n s k :
  matchTag (drop k (replaceFrom matchTag [SPACE] n s)) = None.
Proof.
  revert n k; induction s as [|c s IH]; intros n k.
  - simpl. by rewrite drop_nil.
  - destruct n as [|n]; [|apply IH].
    cbn [replaceFrom].
    destruct (matchTag (c :: s)) as [m|] eqn:Hm.
    + destruct (matchTag_Some_pos _ _ Hm) as [j ->].
      destruct k as [|k]; [done | apply IH].
    + destruct k as [|k]; [|apply IH].
      apply (matchTag_None_replaced _ _ Hm).
Qed.

Lemma stripTags_no_tag raw k : matchTag (drop k (stripTags raw)) = None.
Proof. apply stripTags_no_tag_from. Qed.

Lemma matchSpaces_ws c s :
  isWhiteSpace c = true ->
  matchSpaces (c :: s) = Some (S (length (takeWhile isWhiteSpace s))).
Proof. intros H. unfold matchSpaces. cbn [takeWhile]. by rewrite H. Qed.

Lemma matchSpaces_other c s :
  isWhiteSpace c = false -> matchSpaces (c :: s) = None.
Proof. intros H. unfold matchSpaces. cbn [takeWhile]. by rewrite H. Qed.

Lemma collapseSpaces_ws c s :
  isWhiteSpace c = true ->
  collapseSpaces (c :: s) = SPACE :: collapseSpaces (dropWhile isWhiteSpace s).
Proof.
  intros H. unfold collapseSpaces.
  rewrite (replaceAll_match matchSpaces [SPACE] (c :: s) _ ltac:(done)
             (matchSpaces_ws c s H)).
  cbn [drop app]. by rewrite drop_takeWhile.
Qed.

Lemma collapseSpaces_other c s :
  isWhiteSpace c = false -> collapseSpaces (c :: s) = c :: collapseSpaces s.
Proof. intros H. apply replaceAll_skip, matchSpaces_other, H. Qed.

(** Behind the collapse every white-space code unit is a single space that
    is followed, if at all, by a code unit that is not white space. *)
Lemma collapseSpaces_single s x a y :
  collapseSpaces s = x ++ a :: y ->
  isWhiteSpace a = true ->
  a = SPACE /\ forall b y', y = b :: y' -> isWhiteSpace b = false.
Proof.
  remember (length s) as n eqn:Hn. revert s Hn x a y.
  induction n as [n IH] using lt_wf_ind. intros s -> x a y Hs Ha.
  destruct s as [|c s]; [by destruct x|].
  destruct (isWhiteSpace c) eqn:Hc.
  - rewrite collapseSpaces_ws in Hs by done.
    destruct x as [|x0 x]; cbn [app] in Hs; injection Hs as <- Hs.
    + split; [done|]. intros b y' ->.
      destruct (dropWhile isWhiteSpace s) as [|d r] eqn:Hd; [done|].
      apply dropWhile_head in Hd as Hd'.
      rewrite collapseSpaces_other in Hs by done. by injection Hs as <- _.
    + pose proof (dropWhile_length isWhiteSpace s).
      eapply (IH (length (dropWhile isWhiteSpace s))); [simpl; lia|done|done|done].
  - rewrite collapseSpaces_other in Hs by done.
    destruct x as [|x0 x]; cbn [app] in Hs; injection Hs as <- Hs; [congruence|].
    eapply (IH (length s)); [simpl; lia|done|done|done].
Qed.

Lemma forallb_rev_true (f : N -> bool) l :
  forallb f l = true -> forallb f (rev l) = true.
Proof.
  rewrite !forallb_forall. intros H x Hx. apply H. by apply in_rev.
Qed.

Lemma trim_decompose s :
  exists l r, s = l ++ trim s ++ r
              /\ forallb isWhiteSpace l = true /\ forallb isWhiteSpace r = true.
Proof.
  unfold trim.
  exists (takeWhile isWhiteSpace s),
         (rev (takeWhile isWhiteSpace (rev (dropWhile isWhiteSpace s)))).
  split; [|split].
  - rewrite <- rev_app_distr, takeWhile_dropWhile, rev_involutive.
    by rewrite takeWhile_dropWhile.
  - apply takeWhile_all.
  - apply forallb_rev_true, takeWhile_all.
Qed.

Lemma trim_last s t c : trim s = t ++ [c] -> isWhiteSpace c = false.
Proof.
  unfold trim. intros H. apply (f_equal (@rev N)) in H.
  rewrite rev_involutive, rev_app_distr in H. simpl in H.
  by apply dropWhile_head in H.
Qed.

Lemma dropWhile_suffix f s : exists l, s = l ++ dropWhile f s.
Proof. exists (takeWhile f s). by rewrite takeWhile_dropWhile. Qed.

Lemma trim_head s c t : trim s = c :: t -> isWhiteSpace c = false.
Proof.
  unfold trim. intros H.
  destruct (dropWhile isWhiteSpace s) as [|d r] eqn:Hd; [done|].
  apply dropWhile_head in Hd as Hd'.
  destruct (dropWhile_suffix isWhiteSpace (rev (d :: r))) as [l Hl].
  apply (f_equal (@rev N)) in Hl.
  rewrite rev_involutive, rev_app_distr, H in Hl.
  simpl in Hl. by simplify_eq.
Qed.

(** ** orderFiles *)

Ltac bool_cases :=
  repeat case_bool_decide; simpl; try done;
  try (exfalso; subst; tauto); try (exfalso; subst; done).

Lemma filter_filter_bool {A} (f g : A -> bool) l :
  List.filter f (List.filter g l) = List.filter (fun x => g x && f x) l.
Proof.
  induction l as [|x l IH]; simpl; [done|].
  destruct (g x); simpl; [destruct (f x); by rewrite IH | done].
Qed.

Lemma filter_ext_elem {A} (f g : A -> bool) l :
  (forall x, x ∈ l -> f x = g x) -> List.filter f l = List.filter g l.
Proof.
  intros H. apply List.filter_ext_in. intros x Hx. by apply H, list_elem_of_In.
Qed.

Lemma elem_of_filter_bool {A} (f : A -> bool) l x :
  x ∈ List.filter f l <-> x ∈ l /\ f x = true.
Proof. rewrite !list_elem_of_In. apply List.filter_In. Qed.

Lemma Set_delete_elem s x y : y ∈ Set_delete s x <-> y ∈ s /\ y <> x.
Proof.
  unfold Set_delete. rewrite elem_of_filter_bool, negb_true_iff, bool_decide_eq_false.
  done.
Qed.

Lemma firstOccurrences_filter f xs :
  List.filter f (firstOccurrences xs) = firstOccurrences (List.filter f xs).
Proof.
  induction xs as [|x xs IH]; [done|]. cbn [firstOccurrences List.filter].
  unfold Set_delete in *. destruct (f x) eqn:Hx; cbn [firstOccurrences].
  - f_equal. rewrite <- IH, !filter_filter_bool. unfold Set_delete.
    rewrite filter_filter_bool. apply filter_ext_elem. intros y _. apply andb_comm.
  - rewrite <- IH, filter_filter_bool. apply filter_ext_elem. intros y _.
    case_bool_decide as Hy; simpl; [by subst | done].
Qed.

Lemma firstOccurrences_elem xs x : x ∈ firstOccurrences xs <-> x ∈ xs.
Proof.
  induction xs as [|y xs IH]; [done|]. cbn [firstOccurrences].
  rewrite !elem_of_cons, Set_delete_elem, IH.
  destruct (decide (x = y)); tauto.
Qed.

Lemma firstOccurrences_NoDup xs : NoDup (firstOccurrences xs).
Proof.
  induction xs as [|y xs IH]; [constructor|]. cbn [firstOccurrences].
  constructor.
  - rewrite Set_delete_elem. tauto.
  - unfold Set_delete. by apply NoDup_ListNoDup, List.NoDup_filter, NoDup_ListNoDup.
Qed.

Lemma NoDup_filter_bool (f : jsstring -> bool) xs :
  NoDup xs -> NoDup (List.filter f xs).
Proof. intros H. by apply NoDup_ListNoDup, List.NoDup_filter, NoDup_ListNoDup. Qed.

Lemma filter_all {A} (f : A -> bool) l :
  (forall x, x ∈ l -> f x = true) -> List.filter f l = l.
Proof.
  induction l as [|y l IH]; intros H; [done|]. simpl.
  rewrite H by left. f_equal. apply IH. intros x Hx. apply H. by right.
Qed.

Lemma firstOccurrences_id xs : NoDup xs -> firstOccurrences xs = xs.
Proof.
  induction 1 as [|x xs Hx _ IH]; [done|]. cbn [firstOccurrences].
  rewrite IH. f_equal. apply filter_all. intros y Hy.
  apply negb_true_iff, bool_decide_eq_false. by intros ->.
Qed.

Lemma Set_new_from xs acc :
  fold_left Set_add xs acc
  = acc ++ List.filter (fun x => negb (memb acc x)) (firstOccurrences xs).
Proof.
  revert acc; induction xs as [|x xs IH]; intros acc; simpl.
  - by rewrite app_nil_r.
  - rewrite IH. unfold Set_add, Set_has, memb, Set_delete.
    case_bool_decide as Hx; simpl.
    + f_equal. rewrite filter_filter_bool. apply filter_ext_elem. intros y _.
      bool_cases.
    + rewrite <- app_assoc. simpl. do 2 f_equal.
      rewrite filter_filter_bool. apply filter_ext_elem. intros y _.
      rewrite (bool_decide_ext (y ∈ acc ++ [x]) (y ∈ acc \/ y = x)).
      2:{ rewrite elem_of_app, list_elem_of_singleton. done. }
      bool_cases.
Qed.

Lemma Set_new_spec xs : Set_new xs = firstOccurrences xs.
Proof.
  unfold Set_new. rewrite Set_new_from. cbn [app].
  apply filter_all. intros y _. unfold memb.
  by rewrite bool_decide_eq_false_2 by apply not_elem_of_nil.
Qed.

Section OrderFilesLoop.
Variable localeCompare : jsstring -> jsstring -> Z.

Lemma orderLoop_spec fileOrder existing ordered :
  orderLoop fileOrder existing ordered
  = (List.filter (fun x => negb (memb fileOrder x)) existing,
     ordered ++ firstOccurrences (List.filter (memb existing) fileOrder)).
Proof.
  revert existing ordered.
  induction fileOrder as [|name rest IH]; intros existing ordered.
  - cbn [orderLoop List.filter firstOccurrences]. rewrite app_nil_r.
    f_equal. symmetry. apply filter_all. intros y _. unfold memb.
    by rewrite bool_decide_eq_false_2 by apply not_elem_of_nil.
  - cbn [orderLoop List.filter]. unfold Set_has. fold (memb existing name).
    destruct (memb existing name) eqn:Hname.
    + rewrite IH. f_equal.
      * unfold Set_delete. rewrite filter_filter_bool.
        apply filter_ext_elem. intros y _. unfold memb.
        rewrite (bool_decide_ext (y ∈ name :: rest) (y = name \/ y ∈ rest))
          by apply elem_of_cons.
        bool_cases.
      * rewrite <- app_assoc. cbn [app firstOccurrences]. do 2 f_equal.
        unfold Set_delete at 2. rewrite firstOccurrences_filter. f_equal.
        rewrite filter_filter_bool. apply filter_ext_elem. intros y _.
        unfold memb.
        rewrite (bool_decide_ext (y ∈ Set_delete existing name)
                   (y ∈ existing /\ y <> name)) by apply Set_delete_elem.
        bool_cases.
    + rewrite IH. f_equal.
      apply filter_ext_elem. intros y Hy. unfold memb in *.
      apply bool_decide_eq_false in Hname.
      rewrite (bool_decide_ext (y ∈ name :: rest) (y ∈ rest)); [done|].
      rewrite elem_of_cons. split; [|tauto]. intros [->|]; done.
Qed.

Lemma orderFiles_spec files fileOrder :
  orderFiles localeCompare files (Some fileOrder)
  = firstOccurrences (List.filter (memb files) fileOrder)
    ++ sortByLocale localeCompare
         (List.filter (fun x => negb (memb fileOrder x)) (firstOccurrences files)).
Proof.
  unfold orderFiles. cbn [default]. rewrite orderLoop_spec, Set_new_spec.
  cbn [app]. do 2 f_equal. apply List.filter_ext. intros y. unfold memb.
  apply bool_decide_ext, firstOccurrences_elem.
Qed.

End OrderFilesLoop.

(** ** Sorting with a consistent comparator *)

Section Sorting.
Variable localeCompare : jsstring -> jsstring -> Z.

Hypothesis localeCompare_total : forall a b, precedes localeCompare a b \/ precedes localeCompare b a.
Hypothesis localeCompare_trans :
  forall a b c, precedes localeCompare a b -> precedes localeCompare b c -> precedes localeCompare a c.

Lemma insertSorted_perm x l :
  Permutation (insertSorted localeCompare x l) (x :: l).
Proof.
  induction l as [|y l IH]; simpl; [done|].
  destruct (localeCompare x y <=? 0)%Z; [done|].
  rewrite IH. apply perm_swap.
Qed.

Lemma sortByLocale_perm l : Permutation (sortByLocale localeCompare l) l.
Proof.
  induction l as [|x l IH]; simpl; [done|].
  by rewrite insertSorted_perm, IH.
Qed.

Lemma insertSorted_sorted x l :
  StronglySorted (precedes localeCompare) l ->
  StronglySorted (precedes localeCompare) (insertSorted localeCompare x l).
Proof.
  induction 1 as [|y l Hl IH Hy]; simpl; [repeat constructor|].
  destruct (localeCompare x y <=? 0)%Z eqn:E.
  - apply Z.leb_le in E. constructor; [by constructor|].
    constructor; [done|].
    eapply Forall_impl; [exact Hy|]. intros z Hz. by eapply localeCompare_trans.
  - apply Z.leb_gt in E. constructor; [done|].
    rewrite insertSorted_perm. constructor; [|done].
    destruct (localeCompare_total x y) as [H|H]; [unfold precedes in H; lia|done].
Qed.

Lemma sortByLocale_sorted l :
  StronglySorted (precedes localeCompare) (sortByLocale localeCompare l).
Proof.
  induction l as [|x l IH]; simpl; [constructor|]. by apply insertSorted_sorted.
Qed.

(** The order [orderFiles] returns: the names of [fileOrder] that were
    discovered, in the order listed (a name listed twice counts where it
    is listed first), then the other discovered names in ascending order
    of the comparator. *)
Lemma orderFiles_ordering files fileOrder :
  let listed := firstOccurrences (List.filter (memb files) fileOrder) in
  let others :=
    List.filter (fun x => negb (memb fileOrder x)) (firstOccurrences files) in
  orderFiles localeCompare files (Some fileOrder)
  = listed ++ sortByLocale localeCompare others
  /\ Permutation (sortByLocale localeCompare others) others
  /\ StronglySorted (precedes localeCompare) (sortByLocale localeCompare others)
  /\ (NoDup fileOrder -> listed = List.filter (memb files) fileOrder)
  /\ (NoDup files -> firstOccurrences files = files).
Proof.
  intros listed others. split; [apply orderFiles_spec|].
  split; [apply sortByLocale_perm|].
  split; [apply sortByLocale_sorted|].
  split; [|apply firstOccurrences_id].
  intros H. apply firstOccurrences_id. by apply NoDup_filter_bool.
Qed.

End Sorting.

Lemma codeUnitCompare_total a b :
  (codeUnitCompare a b <= 0)%Z \/ (codeUnitCompare b a <= 0)%Z.
Proof.
  revert b; induction a as [|x a IH]; intros [|y b]; simpl; try lia.
  destruct (N.ltb_spec x y), (N.ltb_spec y x); try lia. apply IH.
Qed.

Lemma codeUnitCompare_trans a b c :
  (codeUnitCompare a b <= 0)%Z -> (codeUnitCompare b c <= 0)%Z ->
  (codeUnitCompare a c <= 0)%Z.
Proof.
  revert b c; induction a as [|x a IH]; intros [|y b] [|z c]; simpl; try lia.
  destruct (N.ltb_spec x y), (N.ltb_spec y x), (N.ltb_spec y z), (N.ltb_spec z y),
    (N.ltb_spec x z), (N.ltb_spec z x); try lia.
  apply IH.
Qed.

Lemma codeUnitCompare_antisym a b :
  codeUnitCompare b a = (- codeUnitCompare a b)%Z.
Proof.
  revert b; induction a as [|x a IH]; intros [|y b]; simpl; try done.
  destruct (N.ltb_spec x y), (N.ltb_spec y x); try lia. apply IH.
Qed.

Lemma codeUnitCompare_eq a b : codeUnitCompare a b = 0%Z -> a = b.
Proof.
  revert b; induction a as [|x a IH]; intros [|y b]; simpl; try done.
  destruct (N.ltb_spec x y), (N.ltb_spec y x); try done.
  intros E. f_equal; [lia | by apply IH].
Qed.

Lemma rootCollation_unfold a b :
  let primary := codeUnitCompare (map primaryWeight a) (map primaryWeight b) in
  (primary = 0%Z
   /\ rootCollation a b = codeUnitCompare (map caseWeight a) (map caseWeight b))
  \/ (primary <> 0%Z /\ rootCollation a b = primary).
Proof.
  unfold rootCollation.
  destruct (codeUnitCompare (map primaryWeight a) (map primaryWeight b));
    [by left | by right | by right].
Qed.

Lemma rootCollation_total a b :
  precedes rootCollation a b \/ precedes rootCollation b a.
Proof.
  unfold precedes.
  pose proof (codeUnitCompare_antisym (map primaryWeight a) (map primaryWeight b))
    as Hab.
  destruct (rootCollation_unfold a b) as [[Hp ->]|[Hp ->]],
    (rootCollation_unfold b a) as [[Hq ->]|[Hq ->]];
    [apply codeUnitCompare_total|lia|lia|lia].
Qed.

Lemma codeUnitCompare_refl a : codeUnitCompare a a = 0%Z.
Proof. pose proof (codeUnitCompare_antisym a a). lia. Qed.

Lemma rootCollation_trans a b c :
  precedes rootCollation a b -> precedes rootCollation b c ->
  precedes rootCollation a c.
Proof.
  unfold precedes.
  pose proof (codeUnitCompare_trans (map primaryWeight a) (map primaryWeight b)
                (map primaryWeight c)) as Htrans.
  destruct (rootCollation_unfold a b) as [[Hp ->]|[Hp ->]],
    (rootCollation_unfold b c) as [[Hq ->]|[Hq ->]],
    (rootCollation_unfold a c) as [[Hr ->]|[Hr ->]]; intros H1 H2.
  - by apply (codeUnitCompare_trans _ (map caseWeight b)).
  - apply codeUnitCompare_eq in Hp, Hq. rewrite Hp, Hq in Hr.
    by rewrite codeUnitCompare_refl in Hr.
  - apply codeUnitCompare_eq in Hp, Hr. rewrite <- Hp, Hr in Hq.
    by rewrite codeUnitCompare_refl in Hq.
  - apply codeUnitCompare_eq in Hp. by rewrite Hp.
  - apply codeUnitCompare_eq in Hq, Hr. rewrite Hr, Hq in Hp.
    by rewrite codeUnitCompare_refl in Hp.
  - apply codeUnitCompare_eq in Hq. by rewrite <- Hq.
  - apply codeUnitCompare_eq in Hr. rewrite Hr in Hp, H1.
    pose proof (codeUnitCompare_antisym (map primaryWeight b) (map primaryWeight c)).
    lia.
  - lia.
Qed.

(** A name of [fileOrder] that was not discovered changes nothing. *)
Lemma orderFiles_missing localeCompare files before name after :
  name ∉ files ->
  orderFiles localeCompare files (Some (before ++ name :: after))
  = orderFiles localeCompare files (Some (before ++ after)).
Proof.
  intros Hname. rewrite !orderFiles_spec. f_equal.
  - f_equal. rewrite !List.filter_app. cbn [List.filter].
    unfold memb at 2. by rewrite bool_decide_eq_false_2.
  - f_equal. apply filter_ext_elem. intros y Hy.
    apply (proj1 (firstOccurrences_elem _ _)) in Hy. unfold memb.
    rewrite (bool_decide_ext (y ∈ before ++ name :: after) (y ∈ before ++ after));
      [done|].
    rewrite !elem_of_app, elem_of_cons. split; [|tauto].
    intros [?|[?|?]]; [tauto| |tauto]. by subst.
Qed.

Lemma orderFiles_elem localeCompare files fileOrder x :
  x ∈ orderFiles localeCompare files fileOrder -> x ∈ files.
Proof.
  assert (H : forall fo, x ∈ orderFiles localeCompare files (Some fo) -> x ∈ files).
  { intros fo. rewrite orderFiles_spec, elem_of_app. intros [H|H].
    - apply (proj1 (firstOccurrences_elem _ _)) in H.
      apply (proj1 (elem_of_filter_bool _ _ _)) in H as [_ H].
      by apply bool_decide_eq_true in H.
    - apply (proj1 (list_elem_of_In _ _)) in H.
      eapply Permutation_in in H; [|apply (sortByLocale_perm localeCompare)].
      apply (proj2 (list_elem_of_In _ _)) in H.
      apply (proj1 (elem_of_filter_bool _ _ _)) in H as [H _].
      by apply firstOccurrences_elem. }
  destruct fileOrder as [fo|]; [apply H|]. apply (H []).
Qed.

(** ** The effects of the builder *)

Ltac unfold_M :=
  unfold mbind, M_bind, mret, M_ret, throw, tryCatch,
    fs_stat, fs_readdir, fs_readFile in *.

Lemma readonly_ret {A} (a : A) : readonly (mret a).
Proof. done. Qed.

Lemma readonly_throw {A} e : readonly (@throw A e).
Proof. done. Qed.

Lemma readonly_bind {A B} (m : M A) (k : A -> M B) :
  readonly m -> (forall a, readonly (k a)) -> readonly (m ≫= k).
Proof.
  intros Hm Hk fs. unfold mbind, M_bind. specialize (Hm fs).
  destruct (m fs) as [[a|e] fs']; simpl in *; subst; [apply Hk | done].
Qed.

Lemma readonly_tryCatch {A} (m : M A) h :
  readonly m -> (forall e, readonly (h e)) -> readonly (tryCatch m h).
Proof.
  intros Hm Hh fs. unfold tryCatch. specialize (Hm fs).
  destruct (m fs) as [[a|e] fs']; simpl in *; subst; [done | apply Hh].
Qed.

Lemma readonly_forEach {A B} (f : A -> M B) xs :
  (forall x, readonly (f x)) -> readonly (forEach f xs).
Proof.
  intros Hf. induction xs as [|x xs IH]; simpl; [apply readonly_ret|].
  apply readonly_bind; [apply Hf|]. intros y.
  apply readonly_bind; [apply IH|]. intros ys. apply readonly_ret.
Qed.

Lemma readonly_stat p : readonly (fs_stat p).
Proof. intros fs. unfold fs_stat. by destruct (resolve fs p) as [|[]]. Qed.

Lemma readonly_readdir p : readonly (fs_readdir p).
Proof. intros fs. unfold fs_readdir. by destruct (resolve fs p) as [|[]]. Qed.

Lemma readonly_readFile p : readonly (fs_readFile p).
Proof. intros fs. unfold fs_readFile. by destruct (resolve fs p) as [|[]]. Qed.

Lemma readonly_result {A} (m : M A) fs r fs' :
  readonly m -> m fs = (r, fs') -> fs' = fs.
Proof. intros Hm H. specialize (Hm fs). by rewrite H in Hm. Qed.

(** The loop stops at the first element that throws. *)
Lemma forEach_throws {A B} (f : A -> M B) xs x fs e :
  (forall y, readonly (f y)) ->
  x ∈ xs -> f x fs = (Err e, fs) ->
  exists e', forEach f xs fs = (Err e', fs).
Proof.
  intros Hf Hx Hfx. induction xs as [|y xs IH]; [by apply elem_of_nil in Hx|].
  simpl. unfold mbind, M_bind.
  destruct (f y fs) as [[b|e'] fs'] eqn:Hy.
  - pose proof (readonly_result _ _ _ _ (Hf y) Hy) as ->.
    apply elem_of_cons in Hx as [->|Hx]; [congruence|].
    destruct (IH Hx) as [e' ->]. eauto.
  - pose proof (readonly_result _ _ _ _ (Hf y) Hy) as ->. eauto.
Qed.

Lemma forEach_ok {A B} (f : A -> M B) xs fs ys fs' :
  (forall y, readonly (f y)) ->
  forEach f xs fs = (Ok ys, fs') ->
  fs' = fs /\ Forall2 (fun x y => f x fs = (Ok y, fs)) xs ys.
Proof.
  intros Hf. revert ys fs'; induction xs as [|x xs IH]; intros ys fs'; simpl.
  - intros [= <- <-]. by split; [|constructor].
  - unfold mbind, M_bind.
    destruct (f x fs) as [[b|e] fs1] eqn:Hx; [|done].
    pose proof (readonly_result _ _ _ _ (Hf x) Hx) as ->.
    destruct (forEach f xs fs) as [[bs|e] fs2] eqn:Hxs; [|done].
    destruct (IH bs fs2 eq_refl) as [-> Hall].
    intros [= <- <-]. split; [done|]. by constructor.
Qed.

Section BuilderProperties.

Variable ROOT : path.
Variable JSON_parse : jsstring -> option Configuration.t.
Variable JSON_stringify : Manifest.t -> jsstring.
Variable localeCompare : jsstring -> jsstring -> Z.

Lemma ensureDirectoryExists_spec dir fs :
  ensureDirectoryExists dir fs
  = match resolve fs dir with
    | inr (Dir _) => (Ok tt, fs)
    | inr _ => (Err (JsError (NotADirectory dir)), fs)
    | inl ENOENT => (Err (JsError (DirectoryNotFound dir)), fs)
    | inl c => (Err (SystemError c dir), fs)
    end.
Proof.
  unfold ensureDirectoryExists. unfold_M.
  by destruct (resolve fs dir) as [[]|[]].
Qed.

Lemma htmlNames_spec es :
  htmlNames es
  = map fst (List.filter (fun e => isFileNode e.2 && isHtmlName e.1) es).
Proof.
  unfold htmlNames. induction es as [|[n t] es IH]; [done|].
  cbn [map List.filter]. unfold isHtmlEntry at 1, Dirent.isFile, isHtmlName.
  cbn [direntOf Dirent.name Dirent.kind fst snd].
  destruct t; cbn [isFileNode andb]; try apply IH.
  destruct (endsWith (toLowerCase n) (js ".html")); cbn [map fst]; by rewrite ?IH.
Qed.

Lemma listHtmlFiles_spec dir fs :
  listHtmlFiles dir fs
  = match resolve fs dir with
    | inr (Dir es) => (Ok (htmlNames es), fs)
    | inr _ => (Err (SystemError ENOTDIR dir), fs)
    | inl c => (Err (SystemError c dir), fs)
    end.
Proof.
  unfold listHtmlFiles. unfold_M.
  by destruct (resolve fs dir) as [|[]].
Qed.

Lemma buildFileEntry_spec dir fileName overrides fs :
  buildFileEntry ROOT dir fileName overrides fs
  = match resolve fs (path_join dir fileName) with
    | inr (File raw) => (Ok (entryOf ROOT dir fileName raw overrides), fs)
    | inr (Dir _) => (Err (SystemError EISDIR (path_join dir fileName)), fs)
    | inr Special => (Err (SystemError EIO (path_join dir fileName)), fs)
    | inl c => (Err (SystemError c (path_join dir fileName)), fs)
    end.
Proof.
  unfold buildFileEntry. unfold_M.
  by destruct (resolve fs (path_join dir fileName)) as [|[]].
Qed.

Lemma readonly_readConfig : readonly (readConfig ROOT JSON_parse).
Proof.
  apply readonly_bind; [apply readonly_readFile|].
  intros raw. by destruct (JSON_parse raw).
Qed.

Lemma readonly_ensureDirectoryExists dir : readonly (ensureDirectoryExists dir).
Proof.
  intros fs. rewrite ensureDirectoryExists_spec.
  by destruct (resolve fs dir) as [[]|[]].
Qed.

Lemma readonly_listHtmlFiles dir : readonly (listHtmlFiles dir).
Proof.
  intros fs. rewrite listHtmlFiles_spec. by destruct (resolve fs dir) as [|[]].
Qed.

Lemma readonly_buildFileEntry dir fileName overrides :
  readonly (buildFileEntry ROOT dir fileName overrides).
Proof.
  intros fs. rewrite buildFileEntry_spec.
  by destruct (resolve fs (path_join dir fileName)) as [|[]].
Qed.

Lemma readonly_orderFilesOf files fileOrder :
  readonly (orderFilesOf localeCompare files fileOrder).
Proof. by destruct fileOrder as [[]|]. Qed.

Lemma orderFilesOf_names files fileOrder fs :
  fileOrder <> Some FileOrderNull ->
  orderFilesOf localeCompare files fileOrder fs
  = (Ok (orderFiles localeCompare files (listedNames fileOrder)), fs).
Proof. by destruct fileOrder as [[]|]. Qed.

Lemma orderFilesOf_ok files fileOrder fs ordered fs' :
  orderFilesOf localeCompare files fileOrder fs = (Ok ordered, fs') ->
  fileOrder <> Some FileOrderNull
  /\ ordered = orderFiles localeCompare files (listedNames fileOrder) /\ fs' = fs.
Proof. destruct fileOrder as [[]|]; [done| |]; by intros [= <- <-]. Qed.

Lemma readonly_buildChild child : readonly (buildChild ROOT localeCompare child).
Proof.
  apply readonly_bind; [apply readonly_ensureDirectoryExists|]. intros _.
  apply readonly_bind; [apply readonly_listHtmlFiles|]. intros htmlFiles.
  apply readonly_bind; [apply readonly_orderFilesOf|]. intros orderedFiles.
  apply readonly_bind; [|intros; apply readonly_ret].
  apply readonly_forEach. intros. apply readonly_buildFileEntry.
Qed.

Lemma readonly_buildCollection collection :
  readonly (buildCollection ROOT localeCompare collection).
Proof.
  apply readonly_bind; [|intros; apply readonly_ret].
  apply readonly_forEach, readonly_buildChild.
Qed.

Lemma readonly_buildManifest :
  readonly (buildManifest ROOT JSON_parse localeCompare).
Proof.
  apply readonly_bind; [apply readonly_readConfig|]. intros config.
  apply readonly_bind; [|intros; apply readonly_ret].
  apply readonly_forEach, readonly_buildCollection.
Qed.

Lemma buildChild_not_directory child fs :
  (forall es, resolve fs (path_join ROOT (ChildConfig.directory child))
              <> inr (Dir es)) ->
  exists e, buildChild ROOT localeCompare child fs = (Err e, fs).
Proof.
  intros Hdir. unfold buildChild. cbv zeta. unfold mbind at 1, M_bind at 1.
  rewrite ensureDirectoryExists_spec.
  destruct (resolve fs (path_join ROOT (ChildConfig.directory child)))
    as [[]|[]] eqn:E; eauto.
  by destruct (Hdir entries).
Qed.


Lemma main_fails fs e :
  buildManifest ROOT JSON_parse localeCompare fs = (Err e, fs) ->
  main ROOT JSON_parse JSON_stringify localeCompare fs = (Err e, fs)
  /\ run ROOT JSON_parse JSON_stringify localeCompare fs = (1%Z, fs).
Proof.
  intros H. unfold run, main, mbind, M_bind. by rewrite H.
Qed.

(** C3: when the directory of a configured child is missing or is not a
    directory, the run fails as a whole (exit code 1) and leaves the file
    system, and with it the manifest file, as it was. *)
Theorem missing_directory_aborts fs config collection child :
  readConfig ROOT JSON_parse fs = (Ok config, fs) ->
  collection ∈ Configuration.collections config ->
  child ∈ CollectionConfig.children collection ->
  (forall es, resolve fs (path_join ROOT (ChildConfig.directory child))
              <> inr (Dir es)) ->
  (exists e, main ROOT JSON_parse JSON_stringify localeCompare fs = (Err e, fs))
  /\ run ROOT JSON_parse JSON_stringify localeCompare fs = (1%Z, fs)
  /\ resolve (run ROOT JSON_parse JSON_stringify localeCompare fs).2
       (OUTPUT_PATH ROOT)
     = resolve fs (OUTPUT_PATH ROOT).
Proof.
  intros Hconfig Hcollection Hchild Hdir.
  destruct (buildChild_not_directory child fs Hdir) as [e1 He1].
  destruct (forEach_throws (buildChild ROOT localeCompare) _ _ _ _
              readonly_buildChild Hchild He1) as [e2 He2].
  assert (He3 : buildCollection ROOT localeCompare collection fs = (Err e2, fs)).
  { unfold buildCollection, mbind, M_bind. by rewrite He2. }
  destruct (forEach_throws (buildCollection ROOT localeCompare) _ _ _ _
              readonly_buildCollection Hcollection He3) as [e4 He4].
  assert (He5 : buildManifest ROOT JSON_parse localeCompare fs = (Err e4, fs)).
  { unfold buildManifest. unfold mbind at 1, M_bind at 1. rewrite Hconfig.
    unfold mbind, M_bind. by rewrite He4. }
  destruct (main_fails fs e4 He5) as [Hmain Hrun].
  split; [eauto|]. split; [done|]. by rewrite Hrun.
Qed.

(** C7: the scanner returns the names of exactly those entries of the
    directory itself that are regular files and whose lower-cased name
    ends in [.html], in the order of the listing; what lies inside a
    subdirectory is never looked at. *)
Theorem listHtmlFiles_immediate dir fs es :
  resolve fs dir = inr (Dir es) ->
  listHtmlFiles dir fs
  = (Ok (map fst (List.filter (fun e => isFileNode e.2 && isHtmlName e.1) es)), fs)
  /\ (forall names, listHtmlFiles dir fs = (Ok names, fs) ->
        forall n, n ∈ names
                  <-> exists data, (n, File data) ∈ es
                                   /\ endsWith (toLowerCase n) (js ".html") = true).
Proof.
  intros Hdir. rewrite listHtmlFiles_spec, Hdir, htmlNames_spec.
  split; [done|]. intros names [= <-] n.
  rewrite list_elem_of_fmap. split.
  - intros [[n' t] [-> H]]. apply elem_of_filter_bool in H as [Hin H].
    apply andb_true_iff in H as [Ht Hn]. destruct t; try done. eauto.
  - intros [data [Hin Hn]]. exists (n, File data). split; [done|].
    apply elem_of_filter_bool. split; [done|]. by apply andb_true_iff.
Qed.

End BuilderProperties.

(** ** What the element pattern matches *)

Lemma matchLiteralI_spec pat s rest :
  matchLiteralI pat s = Some rest
  <-> exists m, s = m ++ rest /\ map canonicalize m = map canonicalize pat.
Proof.
  revert s; induction pat as [|p pat IH]; intros s; cbn [matchLiteralI].
  - split.
    + intros [= ->]. by exists [].
    + intros ([|? ?] & -> & Hm); [done | discriminate].
  - destruct s as [|c s].
    + split; [done|]. intros ([|? ?] & Hs & Hm); discriminate.
    + destruct (canonicalize c =? canonicalize p) eqn:E.
      * apply N.eqb_eq in E. rewrite IH. split.
        -- intros (m & -> & Hm). exists (c :: m). cbn. by rewrite E, Hm.
        -- intros ([|c' m] & Hs & Hm); [discriminate|].
           cbn in Hs, Hm. injection Hs as <- ->. injection Hm as _ Hm. eauto.
      * apply N.eqb_neq in E. split; [done|].
        intros ([|c' m] & Hs & Hm); [discriminate|].
        cbn in Hs, Hm. injection Hs as <- ->. by injection Hm as Hc _.
Qed.

(** The capture is the shortest text behind which the closing tag stands. *)
Lemma lazyUntil_spec close s body :
  lazyUntil close s = Some body
  <-> exists rest, s = body ++ rest
                   /\ is_Some (matchLiteralI close rest)
                   /\ forall k, (k < length body)%nat ->
                                matchLiteralI close (drop k s) = None.
Proof.
  revert body; induction s as [|c s IH]; intros body; cbn [lazyUntil].
  - destruct (matchLiteralI close []) eqn:E.
    + split.
      * intros [= <-]. exists []. repeat split; [by rewrite E | simpl; lia].
      * intros (rest & Hs & _ & _). symmetry in Hs.
        apply app_eq_nil in Hs as [-> _]. done.
    + split; [done|]. intros (rest & Hs & [? Hrest] & _). symmetry in Hs.
      apply app_eq_nil in Hs as [_ ->]. congruence.
  - destruct (matchLiteralI close (c :: s)) eqn:E.
    + split.
      * intros [= <-]. exists (c :: s). repeat split; [by rewrite E | simpl; lia].
      * intros (rest & Hs & _ & Hmin). destruct body as [|b body]; [done|].
        specialize (Hmin 0%nat ltac:(simpl; lia)). cbn in Hmin. congruence.
    + rewrite fmap_Some. split.
      * intros (body' & Hl & ->).
        apply IH in Hl as (rest & -> & Hrest & Hmin).
        exists rest. repeat split; [done|]. intros [|k] Hk; [done|].
        cbn [drop]. apply Hmin. simpl in Hk. lia.
      * intros (rest & Hs & Hrest & Hmin). destruct body as [|b body].
        -- cbn in Hs. subst rest. destruct Hrest as [? Hrest]. congruence.
        -- cbn in Hs. injection Hs as <- ->. exists body. split; [|done].
           apply IH. exists rest. repeat split; [done|]. intros k Hk.
           apply (Hmin (S k)). simpl. lia.
Qed.

(** A match at the start of [s]: the opening tag with any case and any
    attributes up to the first [>], the capture, and the closing tag. *)
Lemma matchElementAt_spec tagName s body :
  matchElementAt tagName s = Some body
  <-> exists opening attrs rest,
        s = opening ++ attrs ++ GT :: rest
        /\ map canonicalize opening = map canonicalize (LT :: tagName)
        /\ forallb notGT attrs = true
        /\ lazyUntil (LT :: SLASH :: tagName ++ [GT]) rest = Some body.
Proof.
  unfold matchElementAt. split.
  - destruct (matchLiteralI (LT :: tagName) s) as [r|] eqn:E; [|done].
    apply matchLiteralI_spec in E as (opening & -> & Hopen).
    destruct (dropWhile notGT r) as [|c rest] eqn:Hd; [done|]. intros Hbody.
    exists opening, (takeWhile notGT r), rest. repeat split; try done.
    + f_equal. rewrite <- (takeWhile_dropWhile notGT r) at 1. rewrite Hd.
      apply dropWhile_head in Hd. unfold notGT in Hd.
      apply negb_false_iff, N.eqb_eq in Hd. by subst c.
    + apply takeWhile_all.
  - intros (opening & attrs & rest & -> & Hopen & Hattrs & Hbody).
    assert (E : matchLiteralI (LT :: tagName) (opening ++ attrs ++ GT :: rest)
                = Some (attrs ++ GT :: rest)).
    { apply matchLiteralI_spec. eauto. }
    rewrite E.
    assert (Hd : dropWhile notGT (attrs ++ GT :: rest) = GT :: rest).
    { clear -Hattrs. induction attrs as [|a attrs IH]; [done|].
      cbn in *. apply andb_true_iff in Hattrs as [-> Hattrs]. by apply IH. }
    by rewrite Hd.
Qed.

(** ** File entries *)

Lemma matchElement_first tagName html body :
  matchElement tagName html = Some body ->
  exists k, matchElementAt tagName (drop k html) = Some body
            /\ forall j, (j < k)%nat -> matchElementAt tagName (drop j html) = None.
Proof.
  induction html as [|c html IH]; cbn [matchElement].
  - destruct (matchElementAt tagName []) eqn:E; [|done].
    intros [= ->]. exists 0%nat. split; [done | lia].
  - destruct (matchElementAt tagName (c :: html)) eqn:E.
    + intros [= ->]. exists 0%nat. split; [done | lia].
    + intros [k [Hk Hlt]]%IH. exists (S k). split; [done|].
      intros [|j] Hj; [done|]. apply Hlt. lia.
Qed.

Lemma matchElement_none tagName html :
  matchElement tagName html = None ->
  forall k, matchElementAt tagName (drop k html) = None.
Proof.
  induction html as [|c html IH]; cbn [matchElement].
  - destruct (matchElementAt tagName []) eqn:E; [done|].
    intros _ k. by rewrite drop_nil.
  - destruct (matchElementAt tagName (c :: html)) eqn:E; [done|].
    intros H [|k]; [done|]. by apply IH.
Qed.

Lemma extractTextFromHtml_match html tagName raw :
  matchElement tagName html = Some raw ->
  extractTextFromHtml html tagName
  = decodeHtmlEntities (trim (collapseSpaces (stripTags raw))).
Proof. intros H. unfold extractTextFromHtml. by rewrite H. Qed.

Lemma extractTextFromHtml_no_match html tagName :
  matchElement tagName html = None -> extractTextFromHtml html tagName = [].
Proof. intros H. unfold extractTextFromHtml. by rewrite H. Qed.

Lemma buildFileEntry_file ROOT dir fileName overrides fs raw :
  resolve fs (path_join dir fileName) = inr (File raw) ->
  buildFileEntry ROOT dir fileName overrides fs
  = (Ok (entryOf ROOT dir fileName raw overrides), fs).
Proof. intros H. by rewrite buildFileEntry_spec, H. Qed.

(** Without an override for the label and without a heading the label is
    the empty string, whatever the file is called. *)
Lemma label_without_heading ROOT dir fileName overrides raw :
  Override.label (coalesce (overrides !! slugOf fileName) Override.empty) = None ->
  matchElement (js "h2") raw = None ->
  matchElement (js "h1") raw = None ->
  FileEntry.label (entryOf ROOT dir fileName raw overrides) = [].
Proof.
  intros Ho H2 H1. unfold entryOf. cbn [FileEntry.label]. rewrite Ho.
  unfold headingTextOf. by rewrite !extractTextFromHtml_no_match.
Qed.

(** C2: for [page.html] holding [<div>plain text</div>], with no override,
    no [h2] and no [h1] element matches, the identifier is [page], and the
    label the script produces is the empty string. *)
Theorem label_without_heading_is_empty :
  let raw := js "<div>plain text</div>" in
  let fs := Dir [(js "page.html", File raw)] in
  matchElement (js "h2") raw = None
  /\ matchElement (js "h1") raw = None
  /\ exists entry,
       buildFileEntry [] [] (js "page.html") ∅ fs = (Ok entry, fs)
       /\ FileEntry.id entry = js "page"
       /\ FileEntry.label entry = []
       /\ FileEntry.label entry <> FileEntry.id entry.
Proof.
  intros raw fs.
  split; [vm_compute; reflexivity|]. split; [vm_compute; reflexivity|].
  eexists. split; [apply buildFileEntry_file; vm_compute; reflexivity|].
  split; [vm_compute; reflexivity|].
  split; [|vm_compute; discriminate].
  apply label_without_heading; vm_compute; reflexivity.
Qed.

(** C6: a label or a description given by the override of the file's
    identifier is the label or description of the entry; a field the
    override does not give keeps the extracted text. *)
Theorem override_precedence ROOT dir fileName overrides fs raw o :
  resolve fs (path_join dir fileName) = inr (File raw) ->
  overrides !! slugOf fileName = Some o ->
  exists entry,
    buildFileEntry ROOT dir fileName overrides fs = (Ok entry, fs)
    /\ FileEntry.label entry
       = match Override.label o with
         | Some label => label
         | None => headingTextOf raw
         end
    /\ FileEntry.description entry
       = match Override.description o with
         | Some description => description
         | None => extractTextFromHtml raw (js "p")
         end.
Proof.
  intros Hfile Ho. eexists. split; [by apply buildFileEntry_file|].
  unfold entryOf. cbn [FileEntry.label FileEntry.description]. by rewrite Ho.
Qed.

Lemma takeWhile_until f inner c rest :
  forallb f inner = true -> f c = false ->
  takeWhile f (inner ++ c :: rest) = inner
  /\ dropWhile f (inner ++ c :: rest) = c :: rest.
Proof.
  intros Hinner Hc. induction inner as [|a inner IH]; cbn [app takeWhile dropWhile].
  - by rewrite Hc.
  - cbn [forallb] in Hinner. apply andb_true_iff in Hinner as [-> Hinner].
    destruct (IH Hinner) as [-> ->]. done.
Qed.

(** A tag: [<], one code unit or more that is not [>], and [>]. *)
Lemma stripTags_element inner rest :
  inner <> [] -> forallb notGT inner = true ->
  stripTags (LT :: inner ++ GT :: rest) = SPACE :: stripTags rest.
Proof.
  intros Hne Hinner.
  assert (Hm : matchTag (LT :: inner ++ GT :: rest) = Some (2 + length inner)%nat).
  { unfold matchTag. cbn [N.eqb LT Pos.eqb].
    destruct (takeWhile_until notGT inner GT rest Hinner eq_refl) as [-> ->].
    by destruct inner. }
  rewrite (stripTags_tag _ _ Hm). cbn [Nat.add drop]. f_equal. f_equal.
  change (S (length inner)) with (1 + length inner)%nat.
  rewrite Nat.add_comm, <- drop_drop, drop_app_length. done.
Qed.

(** C4, as stated, fails: an inline tag is not removed from the text, a
    space takes its place.  With the tags removed, the text of
    [<p>un<b>believ</b>able</p>] would be [unbelievable]; the script
    returns [un believ able]. *)
Lemma inline_tag_leaves_space :
  matchElement (js "p") (js "<p>un<b>believ</b>able</p>")
  = Some (js "un<b>believ</b>able")
  /\ postprocessAsStated (js "un<b>believ</b>able") = js "unbelievable"
  /\ extractTextFromHtml (js "<p>un<b>believ</b>able</p>") (js "p")
     = js "un believ able"
  /\ extractTextFromHtml (js "<p>un<b>believ</b>able</p>") (js "p")
     <> postprocessAsStated (js "un<b>believ</b>able").
Proof.
  repeat split; try (vm_compute; reflexivity).
  vm_compute. discriminate.
Qed.

(** C4, amended: the text captured from a heading or paragraph element is
    processed in four steps.  Every match of [<[^>]+>] is replaced by one
    space, so no tag is left; every run of white space becomes one space;
    white space at both ends is cut off; and then the six character
    references are decoded, wherever they stand, an ampersand that begins
    none of them staying as it is (the ampersand that [&amp;] yields begins
    one when [lt;], [gt;], [quot;], [#39;] or [#96;] follows).  The example
    fragment gives the label [Hello & World] and the description
    [A bold test.]. *)
Theorem extract_postprocessing html tagName raw :
  plainTag tagName = true ->
  matchElement tagName html = Some raw ->
  let stripped := stripTags raw in
  let collapsed := collapseSpaces stripped in
  let trimmed := trim collapsed in
  extractTextFromHtml html tagName = decodeHtmlEntities trimmed
  /\ (stripTags [] = []
      /\ (forall inner rest,
            inner <> [] -> forallb notGT inner = true ->
            stripTags (LT :: inner ++ GT :: rest) = SPACE :: stripTags rest)
      /\ (forall s n, matchTag s = Some n -> stripTags s = SPACE :: stripTags (drop n s))
      /\ (forall c s, matchTag (c :: s) = None -> stripTags (c :: s) = c :: stripTags s)
      /\ (forall k, matchTag (drop k stripped) = None))
  /\ (collapseSpaces [] = []
      /\ (forall c s, isWhiteSpace c = true ->
            collapseSpaces (c :: s)
            = SPACE :: collapseSpaces (dropWhile isWhiteSpace s))
      /\ (forall c s, isWhiteSpace c = false ->
            collapseSpaces (c :: s) = c :: collapseSpaces s)
      /\ (forall x a y, collapsed = x ++ a :: y -> isWhiteSpace a = true ->
            a = SPACE /\ forall b y', y = b :: y' -> isWhiteSpace b = false))
  /\ ((exists l r, collapsed = l ++ trimmed ++ r
                   /\ forallb isWhiteSpace l = true /\ forallb isWhiteSpace r = true)
      /\ (forall c t, trimmed = c :: t -> isWhiteSpace c = false)
      /\ (forall t c, trimmed = t ++ [c] -> isWhiteSpace c = false))
  /\ ((forall s, forallb (fun c => negb (c =? AMP)) s = true ->
                 decodeHtmlEntities s = s)
      /\ (forall u v, decodeHtmlEntities (u ++ js "&lt;" ++ v)
                      = decodeHtmlEntities u ++ js "<" ++ decodeHtmlEntities v)
      /\ (forall u v, decodeHtmlEntities (u ++ js "&gt;" ++ v)
                      = decodeHtmlEntities u ++ js ">" ++ decodeHtmlEntities v)
      /\ (forall u v, decodeHtmlEntities (u ++ js "&quot;" ++ v)
                      = decodeHtmlEntities u ++ [34] ++ decodeHtmlEntities v)
      /\ (forall u v, decodeHtmlEntities (u ++ js "&#39;" ++ v)
                      = decodeHtmlEntities u ++ js "'" ++ decodeHtmlEntities v)
      /\ (forall u v, decodeHtmlEntities (u ++ js "&#96;" ++ v)
                      = decodeHtmlEntities u ++ js "`" ++ decodeHtmlEntities v)
      /\ (forall u v, startsWithAny (tl entityNames) v = false ->
                      decodeHtmlEntities (u ++ js "&amp;" ++ v)
                      = decodeHtmlEntities u ++ AMP :: decodeHtmlEntities v)
      /\ (forall u v,
            decodeHtmlEntities (u ++ js "&amp;lt;" ++ v)
            = decodeHtmlEntities u ++ js "<" ++ decodeHtmlEntities v
            /\ decodeHtmlEntities (u ++ js "&amp;gt;" ++ v)
               = decodeHtmlEntities u ++ js ">" ++ decodeHtmlEntities v
            /\ decodeHtmlEntities (u ++ js "&amp;quot;" ++ v)
               = decodeHtmlEntities u ++ [34] ++ decodeHtmlEntities v
            /\ decodeHtmlEntities (u ++ js "&amp;#39;" ++ v)
               = decodeHtmlEntities u ++ js "'" ++ decodeHtmlEntities v
            /\ decodeHtmlEntities (u ++ js "&amp;#96;" ++ v)
               = decodeHtmlEntities u ++ js "`" ++ decodeHtmlEntities v)
      /\ (forall u v, startsWithAny entityNames v = false ->
                      decodeHtmlEntities (u ++ AMP :: v)
                      = decodeHtmlEntities u ++ AMP :: decodeHtmlEntities v)
      /\ decodeHtmlEntities (js "&nbsp;&copy;&#38;") = js "&nbsp;&copy;&#38;")
  /\ (let fragment := js "<h2>Hello &amp; World</h2><p>A <b>bold</b> test.</p>" in
      headingTextOf fragment = js "Hello & World"
      /\ extractTextFromHtml fragment (js "p") = js "A bold test."
      /\ extractTextFromHtml (js "<p>un<b>believ</b>able</p>") (js "p")
         = js "un believ able").
Proof.
  intros _ Hmatch stripped collapsed trimmed.
  split; [by apply extractTextFromHtml_match|].
  split.
  { split; [done|]. split; [apply stripTags_element|].
    split; [apply stripTags_tag|]. split; [apply stripTags_other|].
    apply stripTags_no_tag. }
  split.
  { split; [done|]. split; [apply collapseSpaces_ws|].
    split; [apply collapseSpaces_other|]. apply collapseSpaces_single. }
  split.
  { split; [apply trim_decompose|]. split; [apply trim_head | apply trim_last]. }
  split.
  { split; [apply decode_without_amp|]. split; [apply decode_lt|].
    split; [apply decode_gt|]. split; [apply decode_quot|].
    split; [apply decode_39|]. split; [apply decode_96|].
    split; [apply decode_amp_other|].
    split.
    { intros u v. split; [apply decode_amp_lt|]. split; [apply decode_amp_gt|].
      split; [apply decode_amp_quot|].
      split; [apply decode_amp_39 | apply decode_amp_96]. }
    split; [apply decode_bare_amp|]. vm_compute; reflexivity. }
  repeat split; vm_compute; reflexivity.
Qed.

(** C5, as stated, fails in two places.  In [<h2></h2><h1>Title</h1>] an
    [h2] element matches, and yet the heading is taken from the [h1]
    element.  And a file that holds only [<h1>Title</h1>], in which no [p]
    element matches, gets the label and the description that an override
    gives it, not [Title] and the empty description. *)
Lemma heading_and_description_as_stated_fail :
  ~ (forall html body,
       matchElement (js "h2") html = Some body ->
       headingTextOf html = extractTextFromHtml html (js "h2"))
  /\ (resolve exampleFs (path_join exampleDirectory (js "intro.html"))
      = inr (File (js "<h1>Title</h1>"))
      /\ matchElement (js "p") (js "<h1>Title</h1>") = None
      /\ exists entry,
           buildFileEntry exampleRoot exampleDirectory (js "intro.html")
             introOverrides exampleFs
           = (Ok entry, exampleFs)
           /\ FileEntry.label entry = js "Welcome"
           /\ FileEntry.description entry = js "Start here").
Proof.
  split.
  - intros H. specialize (H (js "<h2></h2><h1>Title</h1>") [] eq_refl).
    vm_compute in H. discriminate.
  - split; [vm_compute; reflexivity|]. split; [vm_compute; reflexivity|].
    exists (entryOf exampleRoot exampleDirectory (js "intro.html")
              (js "<h1>Title</h1>") introOverrides).
    repeat split; vm_compute; reflexivity.
Qed.

(** C5, amended: the heading is the text of the first [h2] match (case
    ignored) when that text is not empty; when no [h2] element matches, or
    its text is empty, it is the text of the first [h1] match.  A file in
    which no [p] element matches gets the empty description unless an
    override gives one.  [<h1>Title</h1>] alone, with no override for the
    file, yields [Title] and [""]. *)
Theorem heading_extraction ROOT dir fileName overrides fs raw :
  resolve fs (path_join dir fileName) = inr (File raw) ->
  let override := coalesce (overrides !! slugOf fileName) Override.empty in
  exists entry,
    buildFileEntry ROOT dir fileName overrides fs = (Ok entry, fs)
    /\ FileEntry.label entry = coalesce (Override.label override) (headingTextOf raw)
    /\ headingTextOf raw
       = match extractTextFromHtml raw (js "h2") with
         | [] => extractTextFromHtml raw (js "h1")
         | text => text
         end
    /\ (matchElement (js "h2") raw = None ->
        headingTextOf raw = extractTextFromHtml raw (js "h1"))
    /\ (forall tagName body,
          plainTag tagName = true ->
          matchElement tagName raw = Some body ->
          exists k, matchElementAt tagName (drop k raw) = Some body
                    /\ forall j, (j < k)%nat ->
                                 matchElementAt tagName (drop j raw) = None)
    /\ (forall tagName s body,
          plainTag tagName = true ->
          matchElementAt tagName s = Some body
          <-> exists opening attrs rest,
                s = opening ++ attrs ++ GT :: rest
                /\ map canonicalize opening = map canonicalize (LT :: tagName)
                /\ forallb notGT attrs = true
                /\ lazyUntil (LT :: SLASH :: tagName ++ [GT]) rest = Some body)
    /\ FileEntry.description entry
       = coalesce (Override.description override) (extractTextFromHtml raw (js "p"))
    /\ (matchElement (js "p") raw = None ->
        extractTextFromHtml raw (js "p") = []
        /\ (Override.description override = None -> FileEntry.description entry = []))
    /\ (raw = js "<h1>Title</h1>" ->
        overrides !! slugOf fileName = None ->
        FileEntry.label entry = js "Title" /\ FileEntry.description entry = [])
    /\ headingTextOf (js "<H2 id=a>Sub</h2><h1>Title</h1>") = js "Sub".
Proof.
  intros Hfile override. eexists. split; [by apply buildFileEntry_file|].
  unfold entryOf. cbn [FileEntry.label FileEntry.description]. fold override.
  split; [done|]. split.
  { unfold headingTextOf, orElse.
    by destruct (extractTextFromHtml raw (js "h2")). }
  split.
  { intros H. unfold headingTextOf. by rewrite (extractTextFromHtml_no_match _ _ H). }
  split; [intros tagName body _; apply matchElement_first|].
  split; [intros tagName s body _; apply matchElementAt_spec|].
  split; [done|]. split.
  { intros H. rewrite (extractTextFromHtml_no_match _ _ H).
    split; [done|]. by intros ->. }
  split.
  { intros -> Ho. unfold override. rewrite Ho. split; vm_compute; reflexivity. }
  vm_compute; reflexivity.
Qed.

(** ** The files of a child *)

Lemma orderFiles_default localeCompare files fileOrder :
  orderFiles localeCompare files fileOrder
  = orderFiles localeCompare files (Some (default [] fileOrder)).
Proof. by destruct fileOrder. Qed.

Lemma buildChild_ok ROOT localeCompare child fs c fs' :
  buildChild ROOT localeCompare child fs = (Ok c, fs') ->
  fs' = fs
  /\ exists es,
       resolve fs (path_join ROOT (ChildConfig.directory child)) = inr (Dir es)
       /\ ChildConfig.fileOrder child <> Some FileOrderNull
       /\ Forall2
            (fun fileName entry =>
               buildFileEntry ROOT (path_join ROOT (ChildConfig.directory child))
                 fileName (coalesce (ChildConfig.overrides child) ∅) fs
               = (Ok entry, fs))
            (orderFiles localeCompare (htmlNames es)
               (listedNames (ChildConfig.fileOrder child)))
            (Child.files c)
       /\ Child.id c = ChildConfig.id child
       /\ Child.label c = ChildConfig.label child
       /\ Child.description c = ChildConfig.description child.
Proof.
  unfold buildChild. cbv zeta. unfold mbind at 1, M_bind at 1.
  rewrite ensureDirectoryExists_spec.
  destruct (resolve fs (path_join ROOT (ChildConfig.directory child)))
    as [[]|[|es|]] eqn:Hdir; try done.
  unfold mbind at 1, M_bind at 1. rewrite listHtmlFiles_spec, Hdir.
  unfold mbind at 1, M_bind at 1.
  destruct (orderFilesOf localeCompare (htmlNames es) (ChildConfig.fileOrder child) fs)
    as [[ordered|e] fs0] eqn:Hordered; [|done].
  apply orderFilesOf_ok in Hordered as (Hnull & -> & ->).
  unfold mbind, M_bind.
  destruct (forEach _ _ fs) as [[files|e] fs1] eqn:Hfiles; [|done].
  apply forEach_ok in Hfiles as [-> Hall];
    [|intros; apply readonly_buildFileEntry].
  intros [= <- <-]. split; [done|]. exists es. by repeat split.
Qed.

Lemma buildChild_dir ROOT localeCompare child fs es :
  resolve fs (path_join ROOT (ChildConfig.directory child)) = inr (Dir es) ->
  ChildConfig.fileOrder child <> Some FileOrderNull ->
  buildChild ROOT localeCompare child fs
  = match forEach
            (fun fileName =>
               buildFileEntry ROOT (path_join ROOT (ChildConfig.directory child))
                 fileName (coalesce (ChildConfig.overrides child) ∅))
            (orderFiles localeCompare (htmlNames es)
               (listedNames (ChildConfig.fileOrder child)))
            fs with
    | (Ok files, fs') =>
        (Ok {| Child.id := ChildConfig.id child;
               Child.label := ChildConfig.label child;
               Child.description := ChildConfig.description child;
               Child.files := files |}, fs')
    | (Err e, fs') => (Err e, fs')
    end.
Proof.
  intros Hdir Hnull. unfold buildChild. cbv zeta. unfold mbind at 1, M_bind at 1.
  rewrite ensureDirectoryExists_spec, Hdir.
  unfold mbind at 1, M_bind at 1. rewrite listHtmlFiles_spec, Hdir.
  unfold mbind at 1, M_bind at 1. by rewrite orderFilesOf_names.
Qed.

(** C1, as stated, fails: the names that [fileOrder] does not list are not
    in the lexicographic order of their code units.  A directory that holds
    [B.html] and [a.html] gives the entries of [a.html] and then of
    [B.html], as [localeCompare] has it, although [B] is the smaller code
    unit. *)
Lemma remaining_files_not_lexicographic :
  orderFiles rootCollation [js "B.html"; js "a.html"] None
  = [js "a.html"; js "B.html"]
  /\ ~ StronglySorted (precedes codeUnitCompare)
        (orderFiles rootCollation [js "B.html"; js "a.html"] None)
  /\ exists built,
       buildChild exampleRoot rootCollation mixedCaseChild mixedCaseFs
       = (Ok built, mixedCaseFs)
       /\ map FileEntry.path (Child.files built)
          = [js "content/pages/a.html"; js "content/pages/B.html"].
Proof.
  split; [vm_compute; reflexivity|]. split.
  - replace (orderFiles rootCollation [js "B.html"; js "a.html"] None)
      with [js "a.html"; js "B.html"] by (vm_compute; reflexivity).
    intros Hsorted. apply StronglySorted_inv in Hsorted as [_ Hfirst].
    apply Forall_inv in Hfirst. vm_compute in Hfirst. by apply Hfirst.
  - exists mixedCaseBuilt. split; vm_compute; reflexivity.
Qed.

Section ChildFiles.
Variable ROOT : path.
Variable localeCompare : jsstring -> jsstring -> Z.

Hypothesis localeCompare_total :
  forall a b, precedes localeCompare a b \/ precedes localeCompare b a.
Hypothesis localeCompare_trans :
  forall a b c,
    precedes localeCompare a b -> precedes localeCompare b c ->
    precedes localeCompare a c.

(** C1, amended: the file entries of a child are those built for the names
    of [fileOrder] that were discovered in its directory, in the order
    listed, followed by those for all other discovered names in ascending
    order of [localeCompare], the collation of the host; no other name
    comes before a listed one. *)
Theorem child_files_order child fs c fs' :
  buildChild ROOT localeCompare child fs = (Ok c, fs') ->
  exists es,
    resolve fs (path_join ROOT (ChildConfig.directory child)) = inr (Dir es)
    /\ (let files := htmlNames es in
       let fileOrder := default [] (listedNames (ChildConfig.fileOrder child)) in
       let listed := firstOccurrences (List.filter (memb files) fileOrder) in
       let others :=
         List.filter (fun x => negb (memb fileOrder x)) (firstOccurrences files) in
       orderFiles localeCompare files (listedNames (ChildConfig.fileOrder child))
       = listed ++ sortByLocale localeCompare others
       /\ Forall2
            (fun fileName entry =>
               buildFileEntry ROOT (path_join ROOT (ChildConfig.directory child))
                 fileName (coalesce (ChildConfig.overrides child) ∅) fs
               = (Ok entry, fs))
            (listed ++ sortByLocale localeCompare others)
            (Child.files c)
       /\ Permutation (sortByLocale localeCompare others) others
       /\ StronglySorted (precedes localeCompare)
            (sortByLocale localeCompare others)
       /\ (NoDup fileOrder -> listed = List.filter (memb files) fileOrder)
       /\ (NoDup files -> firstOccurrences files = files)).
Proof.
  intros (_ & es & Hdir & _ & Hall & _)%buildChild_ok. exists es. split; [done|].
  intros files fileOrder listed others.
  destruct (orderFiles_ordering localeCompare localeCompare_total
              localeCompare_trans files fileOrder)
    as (Horder & Hperm & Hsorted & Hlisted & Hfiles).
  rewrite orderFiles_default in Hall. fold fileOrder files in Hall.
  rewrite orderFiles_default. fold fileOrder.
  split; [exact Horder|]. rewrite Horder in Hall. by repeat split.
Qed.

End ChildFiles.

(** C9: a name of [fileOrder] that is not among the discovered names is
    left out of the ordered list, and the child is built exactly as if the
    name had not been listed: the name causes no error. *)
Theorem missing_listed_file_omitted ROOT localeCompare child before name after fs es :
  ChildConfig.fileOrder child = Some (FileOrderNames (before ++ name :: after)) ->
  resolve fs (path_join ROOT (ChildConfig.directory child)) = inr (Dir es) ->
  name ∉ htmlNames es ->
  orderFiles localeCompare (htmlNames es) (Some (before ++ name :: after))
  = orderFiles localeCompare (htmlNames es) (Some (before ++ after))
  /\ (name ∉ orderFiles localeCompare (htmlNames es) (Some (before ++ name :: after)))
  /\ buildChild ROOT localeCompare child fs
     = buildChild ROOT localeCompare
         (withFileOrder child (Some (FileOrderNames (before ++ after)))) fs.
Proof.
  intros Horder Hdir Hname.
  pose proof (orderFiles_missing localeCompare _ before _ after Hname) as Heq.
  split; [done|]. split.
  - intros H. by apply orderFiles_elem in H.
  - rewrite (buildChild_dir _ _ child fs es Hdir) by (by rewrite Horder).
    rewrite (buildChild_dir _ _ (withFileOrder child _) fs es Hdir) by done.
    cbn [withFileOrder ChildConfig.directory ChildConfig.fileOrder
      ChildConfig.overrides ChildConfig.id ChildConfig.label
      ChildConfig.description].
    rewrite Horder. cbn [listedNames]. by rewrite Heq.
Qed.

(** ** Writing the manifest *)

Lemma findEntry_updateEntry_ne n f es es1 m :
  updateEntry n f es = inr es1 -> m <> n -> findEntry m es1 = findEntry m es.
Proof.
  revert es1; induction es as [|[k c] es IH]; intros es1; cbn [updateEntry].
  - destruct (f None); [done|]. intros [= <-] Hm. cbn [findEntry].
    by rewrite bool_decide_eq_false_2 by done.
  - case_bool_decide as Hk.
    + destruct (f (Some c)); [done|]. intros [= <-] Hm. cbn [findEntry].
      subst k. by rewrite !bool_decide_eq_false_2 by done.
    + destruct (updateEntry n f es) as [|es'] eqn:E; [done|].
      intros [= <-] Hm. cbn [findEntry]. by rewrite (IH es').
Qed.

Lemma findEntry_updateEntry_eq n f es es1 c :
  updateEntry n f es = inr es1 -> findEntry n es = Some c ->
  exists c', f (Some c) = inr c' /\ findEntry n es1 = Some c'.
Proof.
  revert es1; induction es as [|[k c0] es IH]; intros es1; cbn [updateEntry findEntry];
    [done|].
  case_bool_decide as Hk.
  - destruct (f (Some c0)) as [|c'] eqn:E; [done|]. intros [= <-] [= <-].
    exists c'. cbn [findEntry]. by rewrite bool_decide_eq_true_2.
  - destruct (updateEntry n f es) as [|es'] eqn:E; [done|].
    intros [= <-] Hc. cbn [findEntry]. rewrite bool_decide_eq_false_2 by done.
    by apply IH.
Qed.

Lemma htmlNames_cons n c es :
  htmlNames ((n, c) :: es)
  = (if isHtmlEntry (direntOf (n, c)) then [n] else []) ++ htmlNames es.
Proof.
  unfold htmlNames. cbn [map List.filter].
  by destruct (isHtmlEntry (direntOf (n, c))).
Qed.

Lemma htmlNames_updateEntry n f es es1 :
  updateEntry n f es = inr es1 ->
  (forall c c', f (Some c) = inr c' -> direntOf (n, c') = direntOf (n, c)) ->
  (forall c', f None = inr c' -> isHtmlEntry (direntOf (n, c')) = false) ->
  htmlNames es1 = htmlNames es.
Proof.
  intros H Hsome Hnone. revert es1 H.
  induction es as [|[k c] es IH]; intros es1; cbn [updateEntry].
  - destruct (f None) as [|c'] eqn:E; [done|]. intros [= <-].
    by rewrite htmlNames_cons, (Hnone c').
  - case_bool_decide as Hk.
    + destruct (f (Some c)) as [|c'] eqn:E; [done|]. intros [= <-]. subst k.
      by rewrite !htmlNames_cons, (Hsome c c').
    + destruct (updateEntry n f es) as [|es'] eqn:E; [done|]. intros [= <-].
      by rewrite !htmlNames_cons, (IH es').
Qed.

Lemma updateEntry_idem n f es es1 :
  updateEntry n f es = inr es1 ->
  (forall c c', f c = inr c' -> f (Some c') = inr c') ->
  updateEntry n f es1 = inr es1.
Proof.
  intros H Hf. revert es1 H.
  induction es as [|[k c] es IH]; intros es1; cbn [updateEntry].
  - destruct (f None) as [|c'] eqn:E; [done|]. intros [= <-]. cbn [updateEntry].
    by rewrite bool_decide_eq_true_2, (Hf _ _ E).
  - case_bool_decide as Hk.
    + destruct (f (Some c)) as [|c'] eqn:E; [done|]. intros [= <-].
      cbn [updateEntry]. by rewrite bool_decide_eq_true_2, (Hf _ _ E).
    + destruct (updateEntry n f es) as [|es'] eqn:E; [done|]. intros [= <-].
      cbn [updateEntry]. by rewrite bool_decide_eq_false_2, (IH es').
Qed.

Lemma writeAt_kind p data c c' n :
  writeAt p data (Some c) = inr c' -> direntOf (n, c') = direntOf (n, c).
Proof.
  destruct p as [|k p], c as [|es|]; cbn [writeAt]; try done.
  - by intros [= <-].
  - destruct (updateEntry k (writeAt p data) es); [done|]. by intros [= <-].
Qed.

Lemma writeAt_create p data c' :
  writeAt p data None = inr c' -> p = [] /\ c' = File data.
Proof. destruct p; cbn [writeAt]; [by intros [= <-] | done]. Qed.

Lemma writeAt_idem p data t t1 :
  writeAt p data t = inr t1 -> writeAt p data (Some t1) = inr t1.
Proof.
  revert t t1; induction p as [|n p IH]; intros t t1.
  - destruct t as [[]|]; cbn [writeAt]; try done; by intros [= <-].
  - destruct t as [[|es|]|]; cbn [writeAt]; try done.
    destruct (updateEntry n (writeAt p data) es) as [|es1] eqn:E; [done|].
    intros [= <-]. cbn [writeAt].
    by rewrite (updateEntry_idem _ _ _ _ E (IH)).
Qed.

Lemma writeAt_resolve p data t t1 :
  writeAt p data (Some t) = inr t1 -> resolve t1 p = inr (File data).
Proof.
  revert t t1; induction p as [|n p IH]; intros t t1.
  - destruct t; cbn [writeAt]; try done; by intros [= <-].
  - destruct t as [|es|]; cbn [writeAt]; try done.
    destruct (updateEntry n (writeAt p data) es) as [|es1] eqn:E; [done|].
    intros [= <-]. cbn [resolve].
    destruct (findEntry n es) as [c|] eqn:Hn.
    + destruct (findEntry_updateEntry_eq _ _ _ _ _ E Hn) as (c' & Hc' & ->).
      by apply (IH c).
    + clear IH. revert es1 E. induction es as [|[k c] es IHes]; intros es1;
        cbn [updateEntry].
      * destruct (writeAt p data None) as [|c'] eqn:Hc; [done|].
        apply writeAt_create in Hc as [-> ->]. intros [= <-]. cbn [findEntry].
        by rewrite bool_decide_eq_true_2.
      * cbn [findEntry] in Hn. case_bool_decide; [done|].
        destruct (updateEntry n (writeAt p data) es) as [|es'] eqn:E'; [done|].
        intros [= <-]. cbn [findEntry]. rewrite bool_decide_eq_false_2 by done.
        by apply IHes.
Qed.

Lemma findEntry_updateEntry_new n f es es1 :
  updateEntry n f es = inr es1 -> findEntry n es = None ->
  exists c', f None = inr c'.
Proof.
  revert es1; induction es as [|[k c] es IH]; intros es1;
    cbn [updateEntry findEntry].
  - destruct (f None) as [|c']; [done | eauto].
  - case_bool_decide; [done|].
    destruct (updateEntry n f es) as [|es'] eqn:E; [done|]. intros _ Hn.
    by apply (IH es').
Qed.

(** Writing a file whose name is not an HTML name changes nothing that the
    builder reads. *)
Lemma writeAt_sameInputs p data fs fs1 :
  (forall n, last p = Some n -> isHtmlName n = false) ->
  writeAt p data (Some fs) = inr fs1 ->
  sameInputs p fs fs1.
Proof.
  revert fs fs1; induction p as [|n p IH]; intros fs fs1 Hlast.
  - destruct fs; cbn [writeAt]; try done. intros [= <-]. split.
    + intros [|m q] d Hq; [done|]. cbn [resolve]. done.
    + intros [|m q] es; cbn [resolve]; done.
  - destruct fs as [|es|]; cbn [writeAt]; try done.
    destruct (updateEntry n (writeAt p data) es) as [|es1] eqn:E; [done|].
    intros [= <-].
    assert (Hlast' : forall k, last p = Some k -> isHtmlName k = false).
    { intros k Hk. apply Hlast. destruct p; [done|]. exact Hk. }
    split.
    + intros [|m q] d Hq; [done|]. cbn [resolve].
      destruct (findEntry m es) as [c|] eqn:Hm; [|done]. intros Hc.
      destruct (decide (m = n)) as [->|Hne].
      * destruct (findEntry_updateEntry_eq _ _ _ _ _ E Hm) as (c' & Hc' & ->).
        destruct (IH c c' Hlast' Hc') as [Hfiles _].
        apply Hfiles; [congruence | done].
      * by rewrite (findEntry_updateEntry_ne _ _ _ _ _ E Hne), Hm.
    + intros [|m q] es0; cbn [resolve].
      * intros [= <-]. exists es1. split; [done|].
        apply (htmlNames_updateEntry _ _ _ _ E).
        -- intros c c'. apply writeAt_kind.
        -- intros c' Hc'. apply writeAt_create in Hc' as [-> ->].
           unfold isHtmlEntry. cbn [direntOf Dirent.name Dirent.isFile Dirent.kind
             fst snd andb]. by apply Hlast.
      * destruct (findEntry m es) as [c|] eqn:Hm; [|done]. intros Hc.
        destruct (decide (m = n)) as [->|Hne].
        -- destruct (findEntry_updateEntry_eq _ _ _ _ _ E Hm) as (c' & Hc' & ->).
           destruct (IH c c' Hlast' Hc') as [_ Hdirs]. by apply Hdirs.
        -- rewrite (findEntry_updateEntry_ne _ _ _ _ _ E Hne), Hm. eauto.
Qed.

(** ** Paths of HTML files *)

Lemma toLowerCase_app a b : toLowerCase (a ++ b) = toLowerCase a ++ toLowerCase b.
Proof. apply map_app. Qed.

Lemma isHtmlName_split f :
  isHtmlName f = true ->
  exists u w, f = u ++ w /\ toLowerCase w = js ".html".
Proof.
  unfold isHtmlName, endsWith. intros [r Hr]%startsWith_spec.
  apply (f_equal (@rev N)) in Hr. rewrite rev_involutive, rev_app_distr in Hr.
  change (rev (rev (js ".html"))) with (js ".html") in Hr.
  unfold toLowerCase in Hr. apply map_eq_app in Hr as (u & w & -> & _ & Hw).
  by exists u, w.
Qed.

Lemma html_suffix_no_slash w :
  toLowerCase w = js ".html" -> forallb (fun c => negb (c =? SLASH)) w = true.
Proof.
  intros H. apply forallb_forall. intros c Hc. apply negb_true_iff, N.eqb_neq.
  intros ->. apply (in_map (fun c => if (65 <=? c) && (c <=? 90) then c + 32 else c))
    in Hc. fold (toLowerCase w) in Hc. rewrite H in Hc.
  vm_compute in Hc. intuition discriminate.
Qed.

Lemma splitPath_no_slash w :
  forallb (fun c => negb (c =? SLASH)) w = true -> splitPath w = [w].
Proof.
  induction w as [|c w IH]; [done|]. cbn [forallb splitPath].
  intros [Hc Hw]%andb_true_iff. apply negb_true_iff in Hc.
  by rewrite Hc, IH.
Qed.

Lemma splitPath_app_last u w :
  forallb (fun c => negb (c =? SLASH)) w = true ->
  exists init s, splitPath (u ++ w) = init ++ [s ++ w].
Proof.
  intros Hw. induction u as [|c u (init & s & IH)].
  - exists [], []. by apply splitPath_no_slash.
  - cbn [app splitPath]. rewrite IH. destruct (c =? SLASH).
    + by exists ([] :: init), s.
    + destruct init as [|i0 init]; cbn [app].
      * by exists [], (c :: s).
      * by exists ((c :: i0) :: init), s.
Qed.

Lemma path_join_html dir f :
  isHtmlName f = true ->
  exists stack seg, path_join dir f = stack ++ [seg] /\ isHtmlName seg = true.
Proof.
  intros (u & w & -> & Hw)%isHtmlName_split.
  destruct (splitPath_app_last u w (html_suffix_no_slash w Hw)) as (init & s & Hsplit).
  unfold path_join. rewrite Hsplit, fold_left_app. cbn [fold_left].
  exists (fold_left (normalizeStep false) init dir), (s ++ w).
  assert (Hlen : (5 <= length (s ++ w))%nat).
  { rewrite length_app. apply (f_equal length) in Hw.
    unfold toLowerCase in Hw. rewrite length_map in Hw. simpl in Hw. lia. }
  split.
  - unfold normalizeStep.
    rewrite !bool_decide_eq_false_2; [done| | |];
      intros Heq; rewrite Heq in Hlen; simpl in Hlen; lia.
  - unfold isHtmlName, endsWith. rewrite toLowerCase_app, Hw, rev_app_distr.
    apply startsWith_app.
Qed.

Lemma path_join_name dir seg :
  splitPath seg = [seg] ->
  (bool_decide (seg = []) || bool_decide (seg = js ".")) = false ->
  bool_decide (seg = js "..") = false ->
  path_join dir seg = dir ++ [seg].
Proof.
  intros Hsplit H1 H2. unfold path_join. rewrite Hsplit. cbn [fold_left].
  unfold normalizeStep. by rewrite H1, H2.
Qed.

Lemma OUTPUT_PATH_eq ROOT :
  OUTPUT_PATH ROOT = ROOT ++ [js "content"; js "manifest.json"].
Proof.
  unfold OUTPUT_PATH. rewrite !path_join_name by (vm_compute; reflexivity).
  by rewrite <- app_assoc.
Qed.

Lemma CONFIG_PATH_eq ROOT :
  CONFIG_PATH ROOT = ROOT ++ [js "content"; js "manifest.config.json"].
Proof.
  unfold CONFIG_PATH. rewrite !path_join_name by (vm_compute; reflexivity).
  by rewrite <- app_assoc.
Qed.

(** ** Running the builder again *)

Lemma forEach_transfer {A B} (f : A -> M B) xs fs fs1 ys :
  (forall x, readonly (f x)) ->
  (forall x y, x ∈ xs -> f x fs = (Ok y, fs) -> f x fs1 = (Ok y, fs1)) ->
  forEach f xs fs = (Ok ys, fs) ->
  forEach f xs fs1 = (Ok ys, fs1).
Proof.
  intros Hf. revert ys; induction xs as [|x xs IH]; intros ys Hstep; cbn [forEach].
  - by intros [= <-].
  - unfold mbind, M_bind.
    destruct (f x fs) as [[y|e] fs'] eqn:Hx; [|done].
    pose proof (readonly_result _ _ _ _ (Hf x) Hx) as ->.
    rewrite (Hstep x y ltac:(left) Hx).
    destruct (forEach f xs fs) as [[ys'|e] fs'] eqn:Hxs; [|done].
    pose proof (readonly_result _ _ _ _ (readonly_forEach f xs Hf) Hxs) as ->.
    rewrite (IH ys'); [by intros [= <-]| |done].
    intros x' y' Hx'. apply Hstep. by right.
Qed.

Lemma htmlNames_isHtml es x : x ∈ htmlNames es -> isHtmlName x = true.
Proof.
  unfold htmlNames. rewrite list_elem_of_fmap. intros [e [-> He]].
  apply elem_of_filter_bool in He as [_ He]. unfold isHtmlEntry in He.
  by apply andb_true_iff in He as [_ He].
Qed.

Section RunTwice.

Variable ROOT : path.
Variable JSON_parse : jsstring -> option Configuration.t.
Variable JSON_stringify : Manifest.t -> jsstring.
Variable localeCompare : jsstring -> jsstring -> Z.

Lemma html_path_not_output dir f :
  isHtmlName f = true -> path_join dir f <> OUTPUT_PATH ROOT.
Proof.
  intros Hhtml. destruct (path_join_html dir f Hhtml) as (stack & seg & -> & Hseg).
  rewrite OUTPUT_PATH_eq.
  change (ROOT ++ [js "content"; js "manifest.json"])
    with (ROOT ++ [js "content"] ++ [js "manifest.json"]).
  rewrite app_assoc. intros [_ ->]%app_inj_tail. by vm_compute in Hseg.
Qed.

Lemma config_path_not_output : CONFIG_PATH ROOT <> OUTPUT_PATH ROOT.
Proof.
  rewrite CONFIG_PATH_eq, OUTPUT_PATH_eq. intros H%app_inv_head.
  by vm_compute in H.
Qed.

Section Transfer.
Variables fs fs1 : node.
Hypothesis Hsame : sameInputs (OUTPUT_PATH ROOT) fs fs1.

Lemma readConfig_transfer config :
  readConfig ROOT JSON_parse fs = (Ok config, fs) ->
  readConfig ROOT JSON_parse fs1 = (Ok config, fs1).
Proof.
  unfold readConfig. unfold_M.
  destruct (resolve fs (CONFIG_PATH ROOT)) as [|[raw| |]] eqn:E; try done.
  destruct Hsame as [Hfiles _].
  rewrite (Hfiles _ _ config_path_not_output E).
  destruct (JSON_parse raw); [|done]. by intros [= <-].
Qed.

Lemma buildFileEntry_transfer dir fileName overrides entry :
  isHtmlName fileName = true ->
  buildFileEntry ROOT dir fileName overrides fs = (Ok entry, fs) ->
  buildFileEntry ROOT dir fileName overrides fs1 = (Ok entry, fs1).
Proof.
  intros Hhtml. rewrite !buildFileEntry_spec.
  destruct (resolve fs (path_join dir fileName)) as [|[raw| |]] eqn:E; try done.
  destruct Hsame as [Hfiles _].
  rewrite (Hfiles _ _ (html_path_not_output _ _ Hhtml) E). by intros [= <-].
Qed.

Lemma buildChild_transfer child c :
  buildChild ROOT localeCompare child fs = (Ok c, fs) ->
  buildChild ROOT localeCompare child fs1 = (Ok c, fs1).
Proof.
  intros Hchild.
  destruct (buildChild_ok _ _ _ _ _ _ Hchild) as (_ & es & Hdir & Hnull & _).
  destruct Hsame as [_ Hdirs]. destruct (Hdirs _ _ Hdir) as (es1 & Hdir1 & Hes1).
  rewrite (buildChild_dir _ _ _ _ _ Hdir Hnull) in Hchild.
  rewrite (buildChild_dir _ _ _ _ _ Hdir1 Hnull), Hes1.
  destruct (forEach _ _ fs) as [[files|e] fs'] eqn:Hfiles; [|done].
  pose proof (readonly_result _ _ _ _
    (readonly_forEach _ _ (fun x => readonly_buildFileEntry ROOT _ x _)) Hfiles)
    as ->.
  rewrite (forEach_transfer _ _ fs fs1 files); [by injection Hchild as <-| | |done].
  - intros. apply readonly_buildFileEntry.
  - intros x y Hx. apply buildFileEntry_transfer.
    eapply htmlNames_isHtml, orderFiles_elem, Hx.
Qed.

Lemma buildCollection_transfer collection c :
  buildCollection ROOT localeCompare collection fs = (Ok c, fs) ->
  buildCollection ROOT localeCompare collection fs1 = (Ok c, fs1).
Proof.
  unfold buildCollection, mbind, M_bind.
  destruct (forEach _ _ fs) as [[children|e] fs'] eqn:Hchildren; [|done].
  pose proof (readonly_result _ _ _ _
    (readonly_forEach _ _ (readonly_buildChild ROOT localeCompare)) Hchildren)
    as ->.
  rewrite (forEach_transfer _ _ fs fs1 children); [by intros [= <-]| | |done].
  - apply readonly_buildChild.
  - intros x y _. apply buildChild_transfer.
Qed.

(** On unchanged inputs the builder assembles the same manifest. *)
Lemma buildManifest_transfer manifest :
  buildManifest ROOT JSON_parse localeCompare fs = (Ok manifest, fs) ->
  buildManifest ROOT JSON_parse localeCompare fs1 = (Ok manifest, fs1).
Proof.
  unfold buildManifest. unfold mbind at 1 3, M_bind at 1 3.
  destruct (readConfig ROOT JSON_parse fs) as [[config|e] fs'] eqn:Hconfig;
    [|done].
  pose proof (readonly_result _ _ _ _
    (readonly_readConfig ROOT JSON_parse) Hconfig) as ->.
  rewrite (readConfig_transfer _ Hconfig).
  unfold mbind, M_bind.
  destruct (forEach _ _ fs) as [[collections|e] fs'] eqn:Hcollections; [|done].
  pose proof (readonly_result _ _ _ _
    (readonly_forEach _ _ (readonly_buildCollection ROOT localeCompare))
    Hcollections) as ->.
  rewrite (forEach_transfer _ _ fs fs1 collections); [by intros [= <-]| | |done].
  - apply readonly_buildCollection.
  - intros x y _. apply buildCollection_transfer.
Qed.

End Transfer.

Lemma output_name_not_html n :
  last (OUTPUT_PATH ROOT) = Some n -> isHtmlName n = false.
Proof.
  rewrite OUTPUT_PATH_eq.
  change (ROOT ++ [js "content"; js "manifest.json"])
    with (ROOT ++ [js "content"] ++ [js "manifest.json"]).
  rewrite app_assoc, last_snoc. by intros [= <-].
Qed.

Lemma run_spec fs :
  run ROOT JSON_parse JSON_stringify localeCompare fs
  = match buildManifest ROOT JSON_parse localeCompare fs with
    | (Ok manifest, fs') =>
        match writeAt (OUTPUT_PATH ROOT) (payloadOf JSON_stringify manifest)
                (Some fs') with
        | inr fs1 => (0%Z, fs1)
        | inl _ => (1%Z, fs')
        end
    | (Err _, fs') => (1%Z, fs')
    end.
Proof.
  unfold run, main, writeManifest, fs_writeFile, mbind, M_bind.
  destruct (buildManifest ROOT JSON_parse localeCompare fs) as [[manifest|e] fs'];
    [|done].
  by destruct (writeAt _ _ _).
Qed.

(** C8: a second run of the builder on what the first run left behind
    ends with the same exit code and the same file system; after a
    successful run the manifest file holds the serialised manifest, the
    second run assembles the same manifest and writes the same bytes. *)
Theorem run_twice fs :
  let run := run ROOT JSON_parse JSON_stringify localeCompare in
  run (run fs).2 = run fs
  /\ ((run fs).1 = 0%Z ->
      exists manifest,
        buildManifest ROOT JSON_parse localeCompare fs = (Ok manifest, fs)
        /\ resolve (run fs).2 (OUTPUT_PATH ROOT)
           = inr (File (payloadOf JSON_stringify manifest))
        /\ buildManifest ROOT JSON_parse localeCompare (run fs).2
           = (Ok manifest, (run fs).2)).
Proof.
  cbv zeta.
  destruct (buildManifest ROOT JSON_parse localeCompare fs)
    as [[manifest|e] fs'] eqn:Hbuild.
  - pose proof (readonly_result _ _ _ _
      (readonly_buildManifest ROOT JSON_parse localeCompare) Hbuild) as ->.
    destruct (writeAt (OUTPUT_PATH ROOT) (payloadOf JSON_stringify manifest) (Some fs))
      as [c|fs1] eqn:Hwrite.
    + assert (Hrun : run ROOT JSON_parse JSON_stringify localeCompare fs = (1%Z, fs))
        by (by rewrite run_spec, Hbuild, Hwrite).
      rewrite Hrun. cbn [fst snd]. rewrite Hrun. split; [done|]. done.
    + assert (Hrun : run ROOT JSON_parse JSON_stringify localeCompare fs = (0%Z, fs1))
        by (by rewrite run_spec, Hbuild, Hwrite).
      pose proof (writeAt_sameInputs _ _ _ _ output_name_not_html Hwrite) as Hsame.
      pose proof (buildManifest_transfer fs fs1 Hsame manifest Hbuild) as Hbuild1.
      rewrite Hrun. cbn [fst snd]. split.
      * by rewrite run_spec, Hbuild1, (writeAt_idem _ _ _ _ Hwrite).
      * intros _. exists manifest. split; [done|]. split; [|done].
        by apply (writeAt_resolve _ _ fs).
  - pose proof (readonly_result _ _ _ _
      (readonly_buildManifest ROOT JSON_parse localeCompare) Hbuild) as ->.
    assert (Hrun : run ROOT JSON_parse JSON_stringify localeCompare fs = (1%Z, fs))
      by (by rewrite run_spec, Hbuild).
    rewrite Hrun. cbn [fst snd]. rewrite Hrun. split; [done|]. done.
Qed.

End RunTwice.

(** ** Concrete instances *)

Example slugOf_examples :
  slugOf (js "myfile.html") = js "myfile"
  /\ slugOf (js "a.b.HTML") = js "a.b"
  /\ slugOf (js ".html") = js ".html"
  /\ slugOf (js "page") = js "page".
Proof. repeat split; vm_compute; reflexivity. Qed.

Example exampleChildBuilt_files :
  map FileEntry.id (Child.files exampleChildBuilt)
  = [js "zeta"; js "intro"; js "Basics"; js "myfile"]
  /\ map FileEntry.label (Child.files exampleChildBuilt)
     = [js "Zed"; js "Title"; js "Hello & World"; js "Custom"]
  /\ map FileEntry.path (Child.files exampleChildBuilt)
     = [js "content/algorithms/zeta.html"; js "content/algorithms/intro.html";
        js "content/algorithms/Basics.HTML"; js "content/algorithms/myfile.html"].
Proof. repeat split; vm_compute; reflexivity. Qed.

Lemma child_files_order_witness :
  buildChild exampleRoot rootCollation mixedCaseChild mixedCaseFs
  = (Ok mixedCaseBuilt, mixedCaseFs)
  /\ exists es,
       resolve mixedCaseFs (path_join exampleRoot (ChildConfig.directory mixedCaseChild))
       = inr (Dir es)
       /\ orderFiles rootCollation (htmlNames es)
            (listedNames (ChildConfig.fileOrder mixedCaseChild))
          = firstOccurrences
              (List.filter (memb (htmlNames es))
                 (default [] (listedNames (ChildConfig.fileOrder mixedCaseChild))))
            ++ sortByLocale rootCollation
                 (List.filter
                    (fun x =>
                       negb (memb (default []
                                     (listedNames (ChildConfig.fileOrder mixedCaseChild)))
                               x))
                    (firstOccurrences (htmlNames es))).
Proof.
  assert (H : buildChild exampleRoot rootCollation mixedCaseChild mixedCaseFs
              = (Ok mixedCaseBuilt, mixedCaseFs)) by (vm_compute; reflexivity).
  split; [exact H|].
  destruct (child_files_order exampleRoot rootCollation rootCollation_total
              rootCollation_trans mixedCaseChild mixedCaseFs mixedCaseBuilt
              mixedCaseFs H) as (es & Hdir & Horder & _).
  exists es. split; [exact Hdir | exact Horder].
Defined.

Lemma missing_directory_aborts_witness :
  readConfig exampleRoot exampleParse bareFs = (Ok exampleConfig, bareFs)
  /\ run exampleRoot exampleParse exampleStringify codeUnitCompare bareFs
     = (1%Z, bareFs).
Proof.
  assert (H : readConfig exampleRoot exampleParse bareFs = (Ok exampleConfig, bareFs))
    by (vm_compute; reflexivity).
  split; [exact H|].
  apply (missing_directory_aborts exampleRoot exampleParse exampleStringify
           codeUnitCompare bareFs exampleConfig exampleCollection exampleChild H).
  - simpl. left.
  - simpl. left.
  - intros es. vm_compute. discriminate.
Defined.

Lemma listHtmlFiles_immediate_witness :
  resolve exampleFs exampleDirectory = inr (Dir exampleEntries)
  /\ listHtmlFiles exampleDirectory exampleFs
     = (Ok [js "myfile.html"; js "intro.html"; js "Basics.HTML"; js "zeta.html"],
        exampleFs).
Proof.
  assert (H : resolve exampleFs exampleDirectory = inr (Dir exampleEntries))
    by (vm_compute; reflexivity).
  split; [exact H|].
  destruct (listHtmlFiles_immediate exampleDirectory exampleFs exampleEntries H)
    as [Hlist _].
  rewrite Hlist. vm_compute. reflexivity.
Defined.

Lemma override_precedence_witness :
  exists entry,
    buildFileEntry exampleRoot exampleDirectory (js "myfile.html")
      {[ js "myfile" := {| Override.label := Some (js "Custom");
                           Override.description := None |} ]} exampleFs
    = (Ok entry, exampleFs)
    /\ headingTextOf (js "<h2>Original</h2><p>Extracted text</p>") = js "Original"
    /\ FileEntry.label entry = js "Custom"
    /\ FileEntry.description entry = js "Extracted text".
Proof.
  destruct (override_precedence exampleRoot exampleDirectory (js "myfile.html")
              {[ js "myfile" := {| Override.label := Some (js "Custom");
                                   Override.description := None |} ]}
              exampleFs (js "<h2>Original</h2><p>Extracted text</p>")
              {| Override.label := Some (js "Custom"); Override.description := None |})
    as (entry & Hentry & Hlabel & Hdescription).
  - vm_compute. reflexivity.
  - vm_compute. reflexivity.
  - exists entry. split; [exact Hentry|]. split; [vm_compute; reflexivity|].
    split; [exact Hlabel|]. rewrite Hdescription. vm_compute. reflexivity.
Defined.

Lemma extract_postprocessing_witness :
  matchElement (js "p") (js "<h2>Hello &amp; World</h2><p>A <b>bold</b> test.</p>")
  = Some (js "A <b>bold</b> test.")
  /\ extractTextFromHtml (js "<h2>Hello &amp; World</h2><p>A <b>bold</b> test.</p>")
       (js "p")
     = decodeHtmlEntities (trim (collapseSpaces (stripTags (js "A <b>bold</b> test.")))).
Proof.
  assert (H : matchElement (js "p")
                (js "<h2>Hello &amp; World</h2><p>A <b>bold</b> test.</p>")
              = Some (js "A <b>bold</b> test.")) by (vm_compute; reflexivity).
  split; [exact H|].
  exact (proj1 (extract_postprocessing _ (js "p") _ eq_refl H)).
Defined.

Lemma heading_extraction_witness :
  exists entry,
    buildFileEntry exampleRoot exampleDirectory (js "intro.html") ∅ exampleFs
    = (Ok entry, exampleFs)
    /\ FileEntry.label entry = js "Title"
    /\ FileEntry.description entry = [].
Proof.
  destruct (heading_extraction exampleRoot exampleDirectory (js "intro.html") ∅
              exampleFs (js "<h1>Title</h1>"))
    as (entry & Hentry & _ & _ & _ & _ & _ & _ & _ & Hexample & _).
  - vm_compute. reflexivity.
  - exists entry. split; [exact Hentry|]. apply Hexample; reflexivity.
Defined.

Lemma missing_listed_file_omitted_witness :
  (js "missing.html" ∉ htmlNames exampleEntries)
  /\ orderFiles codeUnitCompare (htmlNames exampleEntries)
       (Some ([js "zeta.html"] ++ js "missing.html" :: [js "intro.html"]))
     = orderFiles codeUnitCompare (htmlNames exampleEntries)
         (Some ([js "zeta.html"] ++ [js "intro.html"])).
Proof.
  assert (H : js "missing.html" ∉ htmlNames exampleEntries).
  { apply (bool_decide_unpack _). vm_compute. reflexivity. }
  split; [exact H|].
  refine (proj1 (missing_listed_file_omitted exampleRoot codeUnitCompare exampleChild
                   [js "zeta.html"] (js "missing.html") [js "intro.html"]
                   exampleFs exampleEntries _ _ H)).
  - vm_compute. reflexivity.
  - vm_compute. reflexivity.
Defined.

Lemma run_twice_witness :
  run exampleRoot exampleParse exampleStringify codeUnitCompare
    (run exampleRoot exampleParse exampleStringify codeUnitCompare exampleFs).2
  = run exampleRoot exampleParse exampleStringify codeUnitCompare exampleFs.
Proof.
  exact (proj1 (run_twice exampleRoot exampleParse exampleStringify codeUnitCompare
                  exampleFs)).
Defined.

(** * Further properties of the code *)

(** ** orderFiles: every discovered file once *)

Lemma sortByLocale_elem localeCompare l x :
  x ∈ sortByLocale localeCompare l <-> x ∈ l.
Proof.
  rewrite !list_elem_of_In. split; apply Permutation_in.
  - apply sortByLocale_perm.
  - apply Permutation_sym, sortByLocale_perm.
Qed.

Lemma sortByLocale_NoDup localeCompare l :
  NoDup l -> NoDup (sortByLocale localeCompare l).
Proof. intros H. by rewrite sortByLocale_perm. Qed.

Lemma orderFiles_elem_iff localeCompare files fileOrder x :
  x ∈ orderFiles localeCompare files fileOrder <-> x ∈ files.
Proof.
  split; [apply orderFiles_elem|]. intros Hx.
  rewrite orderFiles_default, orderFiles_spec, elem_of_app.
  destruct (decide (x ∈ default [] fileOrder)) as [Hfo|Hfo].
  - left. apply firstOccurrences_elem, elem_of_filter_bool. split; [done|].
    by apply bool_decide_eq_true.
  - right. apply sortByLocale_elem, elem_of_filter_bool. split.
    + by apply firstOccurrences_elem.
    + by apply negb_true_iff, bool_decide_eq_false.
Qed.

Lemma orderFiles_NoDup localeCompare files fileOrder :
  NoDup (orderFiles localeCompare files fileOrder).
Proof.
  rewrite orderFiles_default, orderFiles_spec. apply NoDup_app. split; [|split].
  - apply firstOccurrences_NoDup.
  - intros x Hx Hx'.
    apply (proj1 (firstOccurrences_elem _ _)) in Hx.
    apply (proj1 (elem_of_filter_bool _ _ _)) in Hx as [Hx _].
    apply (proj1 (sortByLocale_elem _ _ _)) in Hx'.
    apply (proj1 (elem_of_filter_bool _ _ _)) in Hx' as [_ Hx'].
    apply negb_true_iff, bool_decide_eq_false in Hx'. done.
  - apply sortByLocale_NoDup, NoDup_filter_bool, firstOccurrences_NoDup.
Qed.

Lemma orderFiles_perm localeCompare files fileOrder :
  Permutation (orderFiles localeCompare files fileOrder) (firstOccurrences files).
Proof.
  apply NoDup_Permutation.
  - apply orderFiles_NoDup.
  - apply firstOccurrences_NoDup.
  - intros x. by rewrite orderFiles_elem_iff, firstOccurrences_elem.
Qed.

(** X1: whatever [fileOrder] holds, the ordered list names every discovered
    file exactly once and names nothing else. *)
Theorem orderFiles_each_file_once localeCompare files fileOrder :
  Permutation (orderFiles localeCompare files fileOrder) (firstOccurrences files)
  /\ NoDup (orderFiles localeCompare files fileOrder)
  /\ (forall x, x ∈ orderFiles localeCompare files fileOrder <-> x ∈ files).
Proof.
  split; [apply orderFiles_perm|].
  split; [apply orderFiles_NoDup | apply orderFiles_elem_iff].
Qed.

Lemma firstOccurrences_repeat l x l' :
  x ∈ l -> firstOccurrences (l ++ x :: l') = firstOccurrences (l ++ l').
Proof.
  induction l as [|a l IH]; [by intros ?%elem_of_nil|].
  intros Hx. cbn [app firstOccurrences]. f_equal.
  destruct (decide (a = x)) as [->|Hne].
  - unfold Set_delete. rewrite !firstOccurrences_filter, !List.filter_app.
    cbn [List.filter]. by rewrite bool_decide_eq_true_2.
  - apply elem_of_cons in Hx as [->|Hx]; [done|]. by rewrite IH.
Qed.

(** X2: a name that [fileOrder] lists a second time is ignored there: the
    order is the one without the repetition. *)
Theorem orderFiles_repeated_name localeCompare files before name between after :
  orderFiles localeCompare files (Some (before ++ name :: between ++ name :: after))
  = orderFiles localeCompare files (Some (before ++ name :: between ++ after)).
Proof.
  rewrite !orderFiles_spec. f_equal.
  - rewrite !List.filter_app. cbn [List.filter]. rewrite !List.filter_app.
    cbn [List.filter]. destruct (memb files name); [|done].
    pose proof (firstOccurrences_repeat
                  (List.filter (memb files) before
                     ++ name :: List.filter (memb files) between)
                  name (List.filter (memb files) after)) as E.
    rewrite <- !app_assoc in E. cbn [app] in E. apply E.
    apply elem_of_app. right. left.
  - f_equal. apply List.filter_ext. intros y. unfold memb. f_equal.
    apply bool_decide_ext. rewrite !elem_of_app, !elem_of_cons, !elem_of_app,
      !elem_of_cons. tauto.
Qed.

Lemma filter_none {A} (f : A -> bool) l :
  (forall x, x ∈ l -> f x = false) -> List.filter f l = [].
Proof.
  induction l as [|y l IH]; intros H; [done|]. simpl.
  rewrite H by left. apply IH. intros x Hx. apply H. by right.
Qed.

(** X3: the order that [orderFiles] returns is a fixed point: given back as
    [fileOrder], it is returned unchanged. *)
Theorem orderFiles_fixed_point localeCompare files fileOrder :
  orderFiles localeCompare files
    (Some (orderFiles localeCompare files fileOrder))
  = orderFiles localeCompare files fileOrder.
Proof.
  rewrite (orderFiles_spec _ files (orderFiles localeCompare files fileOrder)).
  rewrite filter_all.
  2:{ intros x Hx. apply bool_decide_eq_true. by apply orderFiles_elem_iff in Hx. }
  rewrite (firstOccurrences_id _ (orderFiles_NoDup _ _ _)).
  assert (Hnone : List.filter
            (fun x => negb (memb (orderFiles localeCompare files fileOrder) x))
            (firstOccurrences files) = []).
  { apply filter_none. intros x Hx. apply negb_false_iff, bool_decide_eq_true.
    by apply orderFiles_elem_iff, firstOccurrences_elem. }
  by rewrite Hnone, app_nil_r.
Qed.

(** ** extractTextFromHtml: the shape of the result *)

Lemma spacedWords_word afterSpace p rest :
  p <> [] -> forallb (fun c => negb (isWhiteSpace c)) p = true ->
  spacedWords afterSpace (p ++ rest) = spacedWords false rest.
Proof.
  revert afterSpace; induction p as [|c p IH]; intros afterSpace Hp Hall; [done|].
  cbn [forallb] in Hall. apply andb_true_iff in Hall as [Hc Hall].
  apply negb_true_iff in Hc. cbn [app spacedWords]. rewrite Hc.
  destruct p as [|d p]; [done|]. by apply IH.
Qed.

Lemma spacedWords_replaceAll pat r afterSpace s :
  pat <> [] -> forallb (fun c => negb (isWhiteSpace c)) pat = true ->
  isWhiteSpace r = false ->
  spacedWords afterSpace s = true ->
  spacedWords afterSpace (replaceAll (matchLiteral pat) [r] s) = true.
Proof.
  intros Hpat Hall Hr. remember (length s) as n eqn:Hn.
  revert s Hn afterSpace. induction n as [n IH] using lt_wf_ind.
  intros s -> afterSpace Hs. destruct s as [|c s]; [done|].
  destruct (matchLiteral pat (c :: s)) as [k|] eqn:Hm.
  - unfold matchLiteral in Hm.
    destruct (startsWith (c :: s) pat) eqn:Hstart; [|done].
    injection Hm as <-. apply startsWith_spec in Hstart as [rest Hrest].
    destruct pat as [|p pat]; [done|].
    rewrite (replaceAll_match _ _ (c :: s) (length pat)); [|done|].
    2:{ unfold matchLiteral. by rewrite Hrest, startsWith_app. }
    rewrite Hrest in Hs |- *. rewrite spacedWords_word in Hs by done.
    change (S (length pat)) with (length (p :: pat)). rewrite drop_app_length.
    cbn [app spacedWords]. rewrite Hr.
    eapply (IH (length rest)); [|done|done].
    apply (f_equal length) in Hrest. rewrite length_app in Hrest.
    simpl in *. lia.
  - rewrite replaceAll_skip by done. cbn [spacedWords] in *.
    destruct (isWhiteSpace c).
    + apply andb_true_iff in Hs as [Hs1 Hs2]. rewrite Hs1. cbn [andb].
      eapply (IH (length s)); [simpl; lia|done|done].
    + eapply (IH (length s)); [simpl; lia|done|done].
Qed.

Lemma tidy_replaceAll pat r s :
  pat <> [] -> forallb (fun c => negb (isWhiteSpace c)) pat = true ->
  isWhiteSpace r = false ->
  tidy s = true -> tidy (replaceAll (matchLiteral pat) [r] s) = true.
Proof.
  intros Hpat Hall Hr Hs. destruct s as [|c s]; [done|].
  cbn [tidy] in Hs. apply (spacedWords_replaceAll pat r) in Hs; try done.
  unfold tidy. by destruct (replaceAll (matchLiteral pat) [r] (c :: s)).
Qed.

Lemma tidy_decodeHtmlEntities s : tidy s = true -> tidy (decodeHtmlEntities s) = true.
Proof.
  intros H. unfold decodeHtmlEntities.
  repeat (apply tidy_replaceAll; [done|vm_compute; reflexivity|
                                  vm_compute; reflexivity|]).
  exact H.
Qed.

(** What [spacedWords] says, position by position. *)
Lemma spacedWords_at afterSpace s x a y :
  spacedWords afterSpace s = true ->
  s = x ++ a :: y -> isWhiteSpace a = true ->
  a = SPACE
  /\ (x = [] -> afterSpace = false)
  /\ (forall x' b, x = x' ++ [b] -> isWhiteSpace b = false)
  /\ (exists c y', y = c :: y' /\ isWhiteSpace c = false).
Proof.
  revert afterSpace x; induction s as [|c0 s IH]; intros afterSpace x Hs Hx Ha.
  - by destruct x.
  - cbn [spacedWords] in Hs. destruct x as [|x0 x]; cbn [app] in Hx.
    + injection Hx as -> ->. rewrite Ha in Hs.
      apply andb_true_iff in Hs as [Hs1 Hs2].
      apply andb_true_iff in Hs1 as [Hspace Hafter].
      apply N.eqb_eq in Hspace. apply negb_true_iff in Hafter.
      repeat split; try done.
      * intros x' b Hb. by destruct x'.
      * destruct y as [|c y]; [done|]. cbn [spacedWords] in Hs2.
        destruct (isWhiteSpace c) eqn:Hc; [|eauto].
        apply andb_true_iff in Hs2 as [Hs2 _].
        by apply andb_true_iff in Hs2 as [_ ?].
    + injection Hx as -> ->.
      destruct (isWhiteSpace x0) eqn:Hx0.
      * apply andb_true_iff in Hs as [_ Hs].
        destruct (IH true x Hs eq_refl Ha) as (Hspace & Hnil & Hlast & Hnext).
        repeat split; try done.
        intros x' b Hb. destruct x' as [|x1 x'].
        -- destruct x; [by specialize (Hnil eq_refl) | by destruct x].
        -- injection Hb as _ Hb. by eapply Hlast.
      * destruct (IH false x Hs eq_refl Ha) as (Hspace & Hnil & Hlast & Hnext).
        repeat split; try done.
        intros x' b Hb. destruct x' as [|x1 x'].
        -- destruct x; [by injection Hb as <- | by destruct x].
        -- injection Hb as _ Hb. by eapply Hlast.
Qed.

Lemma spacedWords_intro afterSpace s :
  (s = [] -> afterSpace = false) ->
  (forall x a y, s = x ++ a :: y -> isWhiteSpace a = true ->
     a = SPACE
     /\ (x = [] -> afterSpace = false)
     /\ (forall x' b, x = x' ++ [b] -> isWhiteSpace b = false)
     /\ (exists c y', y = c :: y' /\ isWhiteSpace c = false)) ->
  spacedWords afterSpace s = true.
Proof.
  revert afterSpace; induction s as [|c0 s IH]; intros afterSpace Hnil H.
  - cbn. by rewrite Hnil.
  - cbn [spacedWords]. destruct (isWhiteSpace c0) eqn:Hc0.
    + destruct (H [] c0 s eq_refl Hc0) as (-> & Hafter & _ & (c & y' & -> & Hc)).
      rewrite (Hafter eq_refl). cbn [negb andb N.eqb]. rewrite N.eqb_refl. cbn [andb].
      apply IH; [done|]. intros x a y Hx Ha.
      destruct (H (SPACE :: x) a y) as (Hspace & _ & Hlast & Hnext).
      { cbn [app]. by rewrite Hx. }
      { done. }
      repeat split; try done.
      * intros ->. cbn [app] in Hx. injection Hx as <- _. congruence.
      * intros x' b ->. by apply (Hlast (SPACE :: x') b).
    + apply IH; [done|]. intros x a y Hx Ha.
      destruct (H (c0 :: x) a y) as (Hspace & _ & Hlast & Hnext).
      { cbn [app]. by rewrite Hx. }
      { done. }
      repeat split; try done.
      intros x' b ->. by apply (Hlast (c0 :: x') b).
Qed.

Lemma tidy_trim_collapse s : tidy (trim (collapseSpaces s)) = true.
Proof.
  destruct (trim (collapseSpaces s)) as [|t0 t] eqn:Ht; [done|].
  cbn [tidy]. rewrite <- Ht.
  destruct (trim_decompose (collapseSpaces s)) as (l & r & Hdec & _ & _).
  apply spacedWords_intro; [by rewrite Ht|].
  intros x a y Hx Ha.
  assert (Hsingle : forall x1 a1 y1,
            trim (collapseSpaces s) = x1 ++ a1 :: y1 -> isWhiteSpace a1 = true ->
            a1 = SPACE /\ forall b y', y1 ++ r = b :: y' -> isWhiteSpace b = false).
  { intros x1 a1 y1 Hx1 Ha1.
    apply (collapseSpaces_single s (l ++ x1) a1 (y1 ++ r)); [|done].
    rewrite Hdec at 1. rewrite Hx1, <- !app_assoc. done. }
  destruct (Hsingle x a y Hx Ha) as [-> Hnext].
  split; [done|]. split; [|split].
  - intros ->. cbn [app] in Hx. apply trim_head in Hx. congruence.
  - intros x' b ->. destruct (isWhiteSpace b) eqn:Hb; [|done].
    destruct (Hsingle x' b (SPACE :: y)) as [_ Hnext'].
    { by rewrite Hx, <- app_assoc. }
    { done. }
    by rewrite (Hnext' SPACE (y ++ r) eq_refl) in Ha.
  - destruct y as [|c y'].
    + apply trim_last in Hx. congruence.
    + exists c, y'. split; [done|]. by apply (Hnext c (y' ++ r)).
Qed.

Lemma tidy_extractTextFromHtml html tagName :
  tidy (extractTextFromHtml html tagName) = true.
Proof.
  unfold extractTextFromHtml. destruct (matchElement tagName html); [|done].
  apply tidy_decodeHtmlEntities, tidy_trim_collapse.
Qed.

(** X4: in an extracted heading or description, white space occurs only as
    a single space with a code unit that is not white space on either side:
    no tab or line break, no run of spaces, nothing to trim. *)
Theorem extracted_text_spacing html tagName x a y :
  extractTextFromHtml html tagName = x ++ a :: y ->
  isWhiteSpace a = true ->
  a = SPACE
  /\ (exists x' b, x = x' ++ [b] /\ isWhiteSpace b = false)
  /\ (exists c y', y = c :: y' /\ isWhiteSpace c = false).
Proof.
  intros Hx Ha. pose proof (tidy_extractTextFromHtml html tagName) as Ht.
  rewrite Hx in Ht. assert (Hs : spacedWords true (x ++ a :: y) = true).
  { by destruct x. }
  destruct (spacedWords_at true _ x a y Hs eq_refl Ha) as (-> & Hnil & Hlast & Hnext).
  split; [done|]. split; [|done].
  destruct (exists_last (l := x)) as (x' & b & ->).
  { intros ->. by specialize (Hnil eq_refl). }
  exists x', b. split; [done|]. by apply (Hlast x' b).
Qed.

Lemma extracted_text_spacing_witness :
  extractTextFromHtml (js "<h2>  two
	words </h2>") (js "h2") = js "two" ++ SPACE :: js "words"
  /\ (exists x' b, js "two" = x' ++ [b] /\ isWhiteSpace b = false).
Proof.
  assert (H : extractTextFromHtml (js "<h2>  two
	words </h2>") (js "h2") = js "two" ++ SPACE :: js "words")
    by (vm_compute; reflexivity).
  split; [exact H|].
  exact (proj1 (proj2 (extracted_text_spacing _ _ _ _ _ H eq_refl))).
Defined.

(** ** extractTextFromHtml: plain text comes back *)

Lemma stripTags_without_lt s :
  forallb (fun c => negb (c =? LT)) s = true -> stripTags s = s.
Proof.
  induction s as [|c s IH]; [done|]. cbn [forallb].
  intros [Hc Hs]%andb_true_iff. apply negb_true_iff in Hc.
  rewrite stripTags_other by by apply matchTag_not_lt. by rewrite IH.
Qed.

Lemma spacedWords_head_true c s :
  spacedWords true (c :: s) = true -> isWhiteSpace c = false.
Proof.
  cbn [spacedWords]. destruct (isWhiteSpace c); [|done].
  intros H. apply andb_true_iff in H as [H _].
  by apply andb_true_iff in H as [_ H].
Qed.

Lemma collapseSpaces_spacedWords afterSpace s :
  spacedWords afterSpace s = true -> collapseSpaces s = s.
Proof.
  revert afterSpace; induction s as [|c s IH]; intros afterSpace; [done|].
  cbn [spacedWords]. destruct (isWhiteSpace c) eqn:Hc.
  - intros H. apply andb_true_iff in H as [H Hs].
    apply andb_true_iff in H as [Hspace _]. apply N.eqb_eq in Hspace as ->.
    rewrite collapseSpaces_ws by done.
    destruct s as [|d s]; [done|].
    pose proof (spacedWords_head_true _ _ Hs) as Hd.
    cbn [dropWhile]. rewrite Hd. by rewrite (IH true).
  - intros Hs. rewrite collapseSpaces_other by done. by rewrite (IH false).
Qed.

Lemma trim_tidy s : tidy s = true -> trim s = s.
Proof.
  destruct s as [|c s]; [done|]. cbn [tidy]. intros Hs. unfold trim.
  pose proof (spacedWords_head_true _ _ Hs) as Hc.
  cbn [dropWhile]. rewrite Hc.
  destruct (rev (c :: s)) as [|l rs] eqn:Hrev.
  - apply (f_equal (@rev N)) in Hrev. by rewrite rev_involutive in Hrev.
  - assert (Hl : isWhiteSpace l = false).
    { destruct (isWhiteSpace l) eqn:Hl; [|done].
      apply (f_equal (@rev N)) in Hrev. rewrite rev_involutive in Hrev.
      cbn [rev] in Hrev.
      destruct (spacedWords_at true _ (rev rs) l [] Hs Hrev Hl)
        as (_ & _ & _ & (? & ? & ? & _)). done. }
    cbn [dropWhile]. rewrite Hl, <- Hrev. apply rev_involutive.
Qed.

Lemma canonicalize_lt c : canonicalize c = canonicalize LT -> c = LT.
Proof.
  unfold canonicalize, LT. cbn.
  destruct ((97 <=? c) && (c <=? 122)) eqn:E; [|done].
  apply andb_true_iff in E as [E1 E2]. apply N.leb_le in E1, E2. lia.
Qed.

Lemma matchElementAt_not_lt tagName c s :
  (c =? LT) = false -> matchElementAt tagName (c :: s) = None.
Proof.
  intros Hc. unfold matchElementAt. cbn [matchLiteralI].
  destruct (canonicalize c =? canonicalize LT) eqn:E; [|done].
  apply N.eqb_eq, canonicalize_lt in E. subst c. done.
Qed.

Lemma matchElement_skip tagName pre html :
  forallb (fun c => negb (c =? LT)) pre = true ->
  html <> [] ->
  matchElement tagName (pre ++ html) = matchElement tagName html.
Proof.
  intros Hpre Hhtml. induction pre as [|c pre IH]; [done|].
  cbn [forallb] in Hpre. apply andb_true_iff in Hpre as [Hc Hpre].
  apply negb_true_iff in Hc. cbn [app matchElement].
  rewrite matchElementAt_not_lt by done. by apply IH.
Qed.

Lemma lazyUntil_plain tagName body post :
  forallb (fun c => negb (c =? LT)) body = true ->
  lazyUntil (LT :: SLASH :: tagName ++ [GT])
    (body ++ (LT :: SLASH :: tagName ++ [GT]) ++ post)
  = Some body.
Proof.
  intros Hbody. apply lazyUntil_spec.
  exists ((LT :: SLASH :: tagName ++ [GT]) ++ post). split; [done|]. split.
  - exists post. apply matchLiteralI_spec. by eexists.
  - intros k Hk. rewrite drop_app_le by lia.
    destruct (drop k body) as [|c rest] eqn:Hd.
    { apply (f_equal length) in Hd. rewrite length_drop in Hd. simpl in Hd. lia. }
    assert (Hc : (c =? LT) = false).
    { apply negb_true_iff.
      assert (Hin : c ∈ body).
      { rewrite <- (take_drop k body), Hd. apply elem_of_app. right. left. }
      apply list_elem_of_In in Hin.
      by apply (proj1 (forallb_forall _ _) Hbody). }
    cbn [app matchLiteralI].
    destruct (canonicalize c =? canonicalize LT) eqn:E; [|done].
    apply N.eqb_eq, canonicalize_lt in E. subst c. done.
Qed.

(** X5: for a tag name of letters and digits, text that stands between an
    opening and a closing tag, is free of [<] and [&] and has its white
    space in order, is extracted as it is; attributes of the tag, text
    before the element without [<] and whatever follows the element do not
    matter. *)
Theorem extract_plain_text tagName pre attrs body post :
  plainTag tagName = true ->
  forallb (fun c => negb (c =? LT)) pre = true ->
  forallb notGT attrs = true ->
  tidy body = true ->
  forallb (fun c => negb (c =? LT)) body = true ->
  forallb (fun c => negb (c =? AMP)) body = true ->
  extractTextFromHtml
    (pre ++ (LT :: tagName) ++ attrs ++ GT :: body
         ++ (LT :: SLASH :: tagName ++ [GT]) ++ post)
    tagName
  = body.
Proof.
  intros _ Hpre Hattrs Htidy Hlt Hamp.
  unfold extractTextFromHtml. rewrite matchElement_skip by done.
  assert (Hat : matchElementAt tagName
                  ((LT :: tagName) ++ attrs ++ GT :: body
                     ++ (LT :: SLASH :: tagName ++ [GT]) ++ post) = Some body).
  { apply matchElementAt_spec. exists (LT :: tagName), attrs,
      (body ++ (LT :: SLASH :: tagName ++ [GT]) ++ post).
    repeat split; try done. by apply lazyUntil_plain. }
  assert (Hm : matchElement tagName
                 ((LT :: tagName) ++ attrs ++ GT :: body
                    ++ (LT :: SLASH :: tagName ++ [GT]) ++ post) = Some body).
  { cbn [app matchElement] in *. by rewrite Hat. }
  rewrite Hm, stripTags_without_lt by done.
  destruct body as [|b body]; [by vm_compute|].
  rewrite (collapseSpaces_spacedWords true) by done.
  rewrite trim_tidy by done. by apply decode_without_amp.
Qed.

Lemma extract_plain_text_witness :
  extractTextFromHtml (js "intro <h2 class=x>Two words</h2><p>rest</p>") (js "h2")
  = js "Two words".
Proof.
  apply (extract_plain_text (js "h2") (js "intro ") (js " class=x")
           (js "Two words") (js "<p>rest</p>")); vm_compute; reflexivity.
Defined.

(** ** The identifier of an HTML file *)

Lemma html_suffix_shape w :
  toLowerCase w = js ".html" ->
  exists c1 c2 c3 c4,
    w = [46; c1; c2; c3; c4]
    /\ Forall (fun c => (c =? 47) = false /\ (c =? 46) = false) [c1; c2; c3; c4].
Proof.
  change (js ".html") with [46; 104; 116; 109; 108].
  destruct w as [|d [|c1 [|c2 [|c3 [|c4 [|? ?]]]]]]; try discriminate.
  unfold toLowerCase. cbn [map]. intros [= Hd H1 H2 H3 H4].
  exists c1, c2, c3, c4. split.
  - f_equal. destruct ((65 <=? d) && (d <=? 90)) eqn:E; [|exact Hd].
    apply andb_true_iff in E as [E1 E2]. apply N.leb_le in E1, E2. lia.
  - repeat constructor; apply N.eqb_neq; intros ->;
      first [by vm_compute in H1 | by vm_compute in H2
            | by vm_compute in H3 | by vm_compute in H4].
Qed.

Lemma last_cons_cons {A} (c : A) rs :
  last (c :: rs) = match last rs with Some d => Some d | None => Some c end.
Proof.
  destruct rs as [|d rs]; [done|].
  change (last (c :: d :: rs)) with (last (d :: rs)).
  destruct (last (d :: rs)) eqn:E; [done|]. by apply last_None in E.
Qed.

(** Before the last dot the scan only records whether the code unit it saw
    last was a dot. *)
Lemma extnameScan_before_dot rs i sd sp e ms pd :
  plainName rs = true -> e <> (-1)%Z -> sd <> (-1)%Z ->
  extnameScan rs i
    {| startDot := sd; startPart := sp; endIdx := e; matchedSlash := ms;
       preDotState := pd |}
  = {| startDot := sd; startPart := sp; endIdx := e; matchedSlash := ms;
       preDotState := match last rs with
                      | None => pd
                      | Some c => if c =? 46 then 1%Z else (-1)%Z
                      end |}.
Proof.
  intros Hrs He Hsd. revert i pd Hrs.
  induction rs as [|c rs IH]; intros i pd Hrs; [done|].
  cbn [plainName forallb] in Hrs. apply andb_true_iff in Hrs as [Hc Hrs].
  apply negb_true_iff in Hc. unfold SLASH in Hc.
  cbn [extnameScan endIdx startDot startPart matchedSlash preDotState].
  rewrite Hc. rewrite (proj2 (Z.eqb_neq _ _) He).
  cbn [endIdx startDot startPart matchedSlash preDotState].
  rewrite (proj2 (Z.eqb_neq _ _) Hsd).
  cbn [negb endIdx startDot startPart matchedSlash preDotState].
  rewrite last_cons_cons.
  destruct (c =? 46) eqn:Hdot.
  - destruct (pd =? 1)%Z eqn:Hpd; cbn [negb].
    + apply Z.eqb_eq in Hpd as ->. rewrite (IH _ _ Hrs). f_equal.
      destruct (last rs); cbn; rewrite ?Hdot; done.
    + rewrite (IH _ _ Hrs). f_equal.
      destruct (last rs); cbn; rewrite ?Hdot; done.
  - rewrite (IH _ _ Hrs). f_equal.
    destruct (last rs); cbn; rewrite ?Hdot; done.
Qed.

Lemma plainName_rev s : plainName s = true -> plainName (rev s) = true.
Proof. apply forallb_rev_true. Qed.

Lemma extnameScan_plain_step c rs i sp e ms pd :
  (c =? 47) = false -> (c =? 46) = false ->
  extnameScan (c :: rs) i
    {| startDot := -1; startPart := sp; endIdx := e; matchedSlash := ms;
       preDotState := pd |}
  = extnameScan rs (i - 1)
      {| startDot := -1; startPart := sp;
         endIdx := (if (e =? -1)%Z then (i + 1)%Z else e);
         matchedSlash := (if (e =? -1)%Z then false else ms);
         preDotState := pd |}.
Proof.
  intros Hslash Hdot.
  cbn [extnameScan endIdx startDot startPart matchedSlash preDotState].
  rewrite Hslash, Hdot. by destruct (e =? -1)%Z.
Qed.

Lemma extnameScan_dot_step rs i sp e ms pd :
  e <> (-1)%Z ->
  extnameScan (46 :: rs) i
    {| startDot := -1; startPart := sp; endIdx := e; matchedSlash := ms;
       preDotState := pd |}
  = extnameScan rs (i - 1)
      {| startDot := i; startPart := sp; endIdx := e; matchedSlash := ms;
         preDotState := pd |}.
Proof.
  intros He.
  cbn [extnameScan endIdx startDot startPart matchedSlash preDotState].
  change (46 =? 47) with false. change (46 =? 46) with true. cbv iota.
  by rewrite (proj2 (Z.eqb_neq _ _) He).
Qed.

Lemma slice_inrange s a b :
  (0 <= a <= b)%Z -> (b <= Z.of_nat (length s))%Z ->
  slice s a b = take (Z.to_nat (b - a)) (drop (Z.to_nat a) s).
Proof.
  intros Ha Hb. unfold slice.
  destruct (Z.ltb_spec a 0), (Z.ltb_spec b 0); try lia.
  by rewrite !Z.min_l by lia.
Qed.

Lemma slice_suffix (a b : jsstring) :
  slice (a ++ b) (Z.of_nat (length a)) (Z.of_nat (length (a ++ b))) = b.
Proof.
  rewrite slice_inrange; [|rewrite length_app; lia|lia].
  rewrite Nat2Z.id, drop_app_length.
  replace (Z.to_nat _) with (length b) by (rewrite length_app; lia).
  apply firstn_all.
Qed.

Lemma slice_prefix (a b : jsstring) :
  slice (a ++ b) 0 (Z.of_nat (length a)) = a.
Proof.
  rewrite slice_inrange; [|lia|rewrite length_app; lia].
  cbn [Z.to_nat drop].
  replace (Z.to_nat _) with (length a) by lia. apply take_app_length.
Qed.

Lemma extname_html stem c1 c2 c3 c4 :
  stem <> [] -> plainName stem = true ->
  Forall (fun c => (c =? 47) = false /\ (c =? 46) = false) [c1; c2; c3; c4] ->
  extname (stem ++ [46; c1; c2; c3; c4]) = [46; c1; c2; c3; c4].
Proof.
  intros Hstem Hplain Hcs.
  apply Forall_cons in Hcs as [[H1 H1'] Hcs].
  apply Forall_cons in Hcs as [[H2 H2'] Hcs].
  apply Forall_cons in Hcs as [[H3 H3'] Hcs].
  apply Forall_cons in Hcs as [[H4 H4'] _].
  unfold extname. rewrite rev_app_distr.
  change (rev [46; c1; c2; c3; c4]) with [c4; c3; c2; c1; 46]. cbn [app].
  set (i := (Z.of_nat (length (stem ++ [46; c1; c2; c3; c4]%N)) - 1)%Z).
  assert (Hi : i = (Z.of_nat (length stem) + 4)%Z).
  { unfold i. rewrite length_app. cbn [length]. lia. }
  rewrite (extnameScan_plain_step c4) by done.
  change (-1 =? -1)%Z with true. cbv iota.
  rewrite (extnameScan_plain_step c3) by done.
  rewrite (extnameScan_plain_step c2) by done.
  rewrite (extnameScan_plain_step c1) by done.
  assert (He : ((i + 1 =? -1) = false)%Z) by (apply Z.eqb_neq; lia).
  rewrite !He.
  rewrite extnameScan_dot_step by lia.
  rewrite extnameScan_before_dot; [|by apply plainName_rev|lia|lia].
  cbn [endIdx startDot startPart matchedSlash preDotState].
  assert (Hlast : exists s0, last (rev stem) = Some s0).
  { destruct stem as [|s0 stem']; [done|]. exists s0. cbn [rev]. apply last_snoc. }
  destruct Hlast as [s0 ->].
  replace (i - 1 - 1 - 1 - 1)%Z with (Z.of_nat (length stem)) by lia.
  replace (i + 1)%Z with (Z.of_nat (length (stem ++ [46; c1; c2; c3; c4]%N)))
    by (unfold i; lia).
  rewrite slice_suffix.
  rewrite (proj2 (Z.eqb_neq (Z.of_nat (length stem)) (-1)%Z)) by lia.
  rewrite (proj2 (Z.eqb_neq (Z.of_nat (length (stem ++ [46; c1; c2; c3; c4]%N))) (-1)%Z))
    by lia.
  rewrite (proj2 (Z.eqb_neq (Z.of_nat (length stem))
                   (Z.of_nat (length (stem ++ [46; c1; c2; c3; c4]%N)) - 1)%Z)).
  2:{ rewrite length_app. cbn [length]. lia. }
  rewrite andb_false_r. cbn [orb andb].
  by destruct (s0 =? 46).
Qed.

Lemma basenameScan_match_step suffix c rs i bs be ms k fnse :
  (c =? 47) = false -> (0 <= k)%Z -> suffix !! Z.to_nat k = Some c ->
  basenameScan suffix (c :: rs) i
    {| bStart := bs; bEnd := be; bMatchedSlash := ms; extIdx := k;
       firstNonSlashEnd := fnse |}
  = basenameScan suffix rs (i - 1)
      {| bStart := bs;
         bEnd := (if (k - 1 =? -1)%Z then i else be);
         bMatchedSlash := (if (fnse =? -1)%Z then false else ms);
         extIdx := (k - 1)%Z;
         firstNonSlashEnd := (if (fnse =? -1)%Z then (i + 1)%Z else fnse) |}.
Proof.
  intros Hslash Hk Hc.
  cbn [basenameScan bStart bEnd bMatchedSlash extIdx firstNonSlashEnd].
  rewrite Hslash.
  destruct (fnse =? -1)%Z;
    cbn [bStart bEnd bMatchedSlash extIdx firstNonSlashEnd];
    rewrite (proj2 (Z.leb_le _ _) Hk), (bool_decide_eq_true_2 _ Hc);
    by destruct (k - 1 =? -1)%Z.
Qed.

(** Behind the suffix the scan changes nothing as long as there is no
    slash. *)
Lemma basenameScan_before_suffix suffix rs i bs be ms k fnse :
  plainName rs = true -> fnse <> (-1)%Z -> (k < 0)%Z ->
  basenameScan suffix rs i
    {| bStart := bs; bEnd := be; bMatchedSlash := ms; extIdx := k;
       firstNonSlashEnd := fnse |}
  = {| bStart := bs; bEnd := be; bMatchedSlash := ms; extIdx := k;
       firstNonSlashEnd := fnse |}.
Proof.
  intros Hrs Hf Hk. revert i Hrs. induction rs as [|c rs IH]; intros i Hrs; [done|].
  cbn [plainName forallb] in Hrs. apply andb_true_iff in Hrs as [Hc Hrs].
  apply negb_true_iff in Hc. unfold SLASH in Hc.
  cbn [basenameScan bStart bEnd bMatchedSlash extIdx firstNonSlashEnd].
  rewrite Hc, (proj2 (Z.eqb_neq _ _) Hf).
  cbn [bStart bEnd bMatchedSlash extIdx firstNonSlashEnd].
  rewrite (proj2 (Z.leb_gt _ _) Hk). by apply IH.
Qed.

Lemma basename_html stem c1 c2 c3 c4 :
  stem <> [] -> plainName stem = true ->
  Forall (fun c => (c =? 47) = false /\ (c =? 46) = false) [c1; c2; c3; c4] ->
  basename (stem ++ [46; c1; c2; c3; c4]) [46; c1; c2; c3; c4] = stem.
Proof.
  intros Hstem Hplain Hcs.
  apply Forall_cons in Hcs as [[H1 _] Hcs].
  apply Forall_cons in Hcs as [[H2 _] Hcs].
  apply Forall_cons in Hcs as [[H3 _] Hcs].
  apply Forall_cons in Hcs as [[H4 _] _].
  unfold basename.
  set (len := Z.of_nat (length (stem ++ [46; c1; c2; c3; c4]%N))).
  assert (Hlen : len = (Z.of_nat (length stem) + 5)%Z).
  { unfold len. rewrite length_app. cbn [length]. lia. }
  assert (Hstem' : (0 < Z.of_nat (length stem))%Z).
  { destruct stem; [done|]. cbn [length]. lia. }
  change (Z.of_nat (length [46; c1; c2; c3; c4]%N)) with 5%Z.
  change (0 <? 5)%Z with true. rewrite (proj2 (Z.leb_le 5 len)) by lia.
  cbn [andb]. rewrite bool_decide_eq_false_2.
  2:{ intros H. apply (f_equal length) in H. rewrite length_app in H.
      cbn [length] in H. lia. }
  rewrite rev_app_distr.
  change (rev [46; c1; c2; c3; c4]) with [c4; c3; c2; c1; 46]. cbn [app].
  change (5 - 1)%Z with 4%Z.
  rewrite (basenameScan_match_step _ c4) by done.
  change (-1 =? -1)%Z with true. cbv iota.
  change (4 - 1 =? -1)%Z with false. change (4 - 1)%Z with 3%Z. cbv iota.
  assert (Hf : ((len - 1 + 1 =? -1) = false)%Z) by (apply Z.eqb_neq; lia).
  rewrite (basenameScan_match_step _ c3) by done. rewrite !Hf.
  change (3 - 1 =? -1)%Z with false. change (3 - 1)%Z with 2%Z. cbv iota.
  rewrite (basenameScan_match_step _ c2) by done. rewrite !Hf.
  change (2 - 1 =? -1)%Z with false. change (2 - 1)%Z with 1%Z. cbv iota.
  rewrite (basenameScan_match_step _ c1) by done. rewrite !Hf.
  change (1 - 1 =? -1)%Z with false. change (1 - 1)%Z with 0%Z. cbv iota.
  rewrite (basenameScan_match_step _ 46) by done. rewrite !Hf.
  change (0 - 1 =? -1)%Z with true. change (0 - 1)%Z with (-1)%Z. cbv iota.
  rewrite basenameScan_before_suffix; [|by apply plainName_rev|lia|lia].
  cbn [bStart bEnd bMatchedSlash extIdx firstNonSlashEnd].
  replace (len - 1 - 1 - 1 - 1 - 1)%Z with (Z.of_nat (length stem)) by lia.
  rewrite (proj2 (Z.eqb_neq 0 (Z.of_nat (length stem)))) by lia.
  rewrite (proj2 (Z.eqb_neq (Z.of_nat (length stem)) (-1))) by lia.
  apply slice_prefix.
Qed.

(** X6: the identifier of an HTML file whose name has something before the
    [.html] suffix (in any case) is the name without the suffix; further
    dots in the name stay. *)
Theorem slug_of_html_name stem suffix :
  toLowerCase suffix = js ".html" ->
  stem <> [] -> plainName stem = true ->
  slugOf (stem ++ suffix) = stem.
Proof.
  intros Hsuffix Hstem Hplain.
  destruct (html_suffix_shape suffix Hsuffix) as (c1 & c2 & c3 & c4 & -> & Hcs).
  unfold slugOf. rewrite extname_html by done. by apply basename_html.
Qed.

Lemma slug_of_html_name_witness : slugOf (js "a.min" ++ js ".HTML") = js "a.min".
Proof. apply slug_of_html_name; [vm_compute; reflexivity | discriminate | vm_compute; reflexivity]. Defined.

(** ** The path of an entry *)

Lemma path_relative_below ROOT rel : path_relative ROOT (ROOT ++ rel) = rel.
Proof.
  induction ROOT as [|a ROOT IH]; [by destruct rel|].
  cbn [app path_relative]. by rewrite bool_decide_eq_true_2.
Qed.

Lemma isHtmlName_length n : isHtmlName n = true -> (5 <= length n)%nat.
Proof.
  intros (u & w & -> & Hw)%isHtmlName_split. rewrite length_app.
  apply (f_equal length) in Hw. unfold toLowerCase in Hw.
  rewrite length_map in Hw. simpl in Hw. lia.
Qed.

Lemma normalizeStep_name allowAboveRoot stack n :
  (3 <= length n)%nat -> normalizeStep allowAboveRoot stack n = stack ++ [n].
Proof.
  intros Hn. unfold normalizeStep.
  rewrite !bool_decide_eq_false_2; [done| | |];
    intros Heq; rewrite Heq in Hn; simpl in Hn; lia.
Qed.

Lemma path_join_html_name dir n :
  isHtmlName n = true -> plainName n = true -> path_join dir n = dir ++ [n].
Proof.
  intros Hhtml Hplain. unfold path_join.
  rewrite (splitPath_no_slash n Hplain). cbn [fold_left].
  apply normalizeStep_name. apply isHtmlName_length in Hhtml. lia.
Qed.

Lemma replaceAll_backslash s :
  forallb (fun c => negb (c =? BACKSLASH))
    (replaceAll (matchLiteral [BACKSLASH]) [SLASH] s) = true.
Proof.
  induction s as [|c s IH]; [done|].
  destruct (c =? BACKSLASH) eqn:Hc.
  - apply N.eqb_eq in Hc as ->.
    rewrite (replaceAll_match _ _ (BACKSLASH :: s) 0) by done.
    change (drop 1 (BACKSLASH :: s)) with s.
    change ([SLASH] ++ replaceAll (matchLiteral [BACKSLASH]) [SLASH] s)
      with (SLASH :: replaceAll (matchLiteral [BACKSLASH]) [SLASH] s).
    cbn [forallb]. by rewrite IH.
  - rewrite replaceAll_skip.
    + cbn [forallb]. by rewrite Hc, IH.
    + unfold matchLiteral. cbn [startsWith]. by rewrite Hc.
Qed.

(** X7: for a directory below the root, the path of an entry is the
    directory's segments below the root and the file name, joined by
    slashes, with every backslash turned into a slash; it holds no
    backslash, and without backslashes in the names it is the joined text
    itself. *)
Theorem entry_path ROOT rel fileName overrides fs raw :
  resolve fs (path_join (ROOT ++ rel) fileName) = inr (File raw) ->
  isHtmlName fileName = true ->
  plainName fileName = true ->
  exists entry,
    buildFileEntry ROOT (ROOT ++ rel) fileName overrides fs = (Ok entry, fs)
    /\ FileEntry.path entry
       = replaceAll (matchLiteral [BACKSLASH]) [SLASH]
           (joinWith [SLASH] (rel ++ [fileName]))
    /\ forallb (fun c => negb (c =? BACKSLASH)) (FileEntry.path entry) = true
    /\ (forallb (fun c => negb (c =? BACKSLASH)) (joinWith [SLASH] (rel ++ [fileName]))
        = true ->
        FileEntry.path entry = joinWith [SLASH] (rel ++ [fileName])).
Proof.
  intros Hfile Hhtml Hplain. eexists. split; [by apply buildFileEntry_file|].
  unfold entryOf. cbn [FileEntry.path].
  assert (Hjoin : path_join_relative (path_relative ROOT (ROOT ++ rel)) fileName
                  = joinWith [SLASH] (rel ++ [fileName])).
  { rewrite path_relative_below. unfold path_join_relative.
    rewrite (splitPath_no_slash fileName Hplain). cbn [fold_left].
    rewrite normalizeStep_name by (apply isHtmlName_length in Hhtml; lia).
    by destruct rel. }
  rewrite Hjoin. split; [done|]. split; [apply replaceAll_backslash|].
  apply replaceAll_literal_absent.
Qed.

Lemma entry_path_witness :
  exists entry,
    buildFileEntry exampleRoot (exampleRoot ++ [js "content"; js "algorithms"])
      (js "intro.html") ∅ exampleFs = (Ok entry, exampleFs)
    /\ FileEntry.path entry = js "content/algorithms/intro.html".
Proof.
  destruct (entry_path exampleRoot [js "content"; js "algorithms"] (js "intro.html")
              ∅ exampleFs (js "<h1>Title</h1>"))
    as (entry & Hentry & _ & _ & Hpath).
  - vm_compute. reflexivity.
  - vm_compute. reflexivity.
  - vm_compute. reflexivity.
  - exists entry. split; [exact Hentry|]. rewrite Hpath; vm_compute; reflexivity.
Defined.

(** ** What a run leaves alone *)

(** X8: a run changes no file other than the manifest: every other file
    keeps its content, and every directory stays a directory with the same
    HTML files. *)
Theorem run_keeps_other_files ROOT JSON_parse JSON_stringify localeCompare fs :
  let after := (run ROOT JSON_parse JSON_stringify localeCompare fs).2 in
  (forall p data,
     p <> OUTPUT_PATH ROOT ->
     resolve fs p = inr (File data) -> resolve after p = inr (File data))
  /\ (forall p es,
        resolve fs p = inr (Dir es) ->
        exists es1, resolve after p = inr (Dir es1) /\ htmlNames es1 = htmlNames es).
Proof.
  cbv zeta. rewrite run_spec.
  destruct (buildManifest ROOT JSON_parse localeCompare fs)
    as [[manifest|e] fs'] eqn:Hbuild;
    pose proof (readonly_result _ _ _ _
      (readonly_buildManifest ROOT JSON_parse localeCompare) Hbuild) as ->.
  - destruct (writeAt (OUTPUT_PATH ROOT) (payloadOf JSON_stringify manifest) (Some fs))
      as [c|fs1] eqn:Hwrite; cbn [snd].
    + split; [done | eauto].
    + apply (writeAt_sameInputs _ _ _ _ (output_name_not_html ROOT) Hwrite).
  - cbn [snd]. split; [done | eauto].
Qed.

Lemma run_keeps_other_files_witness :
  resolve (run exampleRoot exampleParse exampleStringify codeUnitCompare exampleFs).2
    [js "site"; js "content"; js "manifest.config.json"]
  = inr (File (js "{}")).
Proof.
  apply (proj1 (run_keeps_other_files exampleRoot exampleParse exampleStringify
                  codeUnitCompare exampleFs)).
  - vm_compute. discriminate.
  - vm_compute. reflexivity.
Defined.

(** ** The configuration *)

(** X9: when the configuration file cannot be read as a file, or its text
    is not accepted by [JSON.parse], the run ends with exit code 1 and an
    unchanged file system, before any directory is looked at. *)
Theorem config_failure_aborts ROOT JSON_parse JSON_stringify localeCompare fs :
  (forall raw, resolve fs (CONFIG_PATH ROOT) = inr (File raw) ->
               JSON_parse raw = None) ->
  (exists e, readConfig ROOT JSON_parse fs = (Err e, fs))
  /\ run ROOT JSON_parse JSON_stringify localeCompare fs = (1%Z, fs).
Proof.
  intros Hconfig.
  assert (Hread : exists e, readConfig ROOT JSON_parse fs = (Err e, fs)).
  { unfold readConfig. unfold_M.
    destruct (resolve fs (CONFIG_PATH ROOT)) as [c|[raw|es|]] eqn:E; eauto.
    rewrite (Hconfig raw eq_refl). eauto. }
  split; [done|]. destruct Hread as [e He].
  apply (main_fails ROOT JSON_parse JSON_stringify localeCompare fs e).
  unfold buildManifest, mbind, M_bind. by rewrite He.
Qed.

Lemma config_failure_aborts_witness :
  run exampleRoot (fun _ => None) exampleStringify codeUnitCompare exampleFs
  = (1%Z, exampleFs).
Proof.
  apply (config_failure_aborts exampleRoot (fun _ => None) exampleStringify
           codeUnitCompare exampleFs).
  intros raw _. reflexivity.
Defined.

Lemma forEach_no_children ROOT localeCompare collections fs :
  Forall (fun collection => CollectionConfig.children collection = []) collections ->
  forEach (buildCollection ROOT localeCompare) collections fs
  = (Ok (map (fun collection =>
                {| Collection.label := CollectionConfig.label collection;
                   Collection.children := [] |}) collections), fs).
Proof.
  induction 1 as [|collection collections Hc _ IH]; [done|].
  cbn [forEach map]. unfold mbind at 1, M_bind at 1.
  unfold buildCollection at 1. rewrite Hc. cbn [forEach].
  unfold mbind at 1, M_bind at 1. unfold mret at 1, M_ret at 1.
  unfold mret at 1, M_ret at 1. unfold mbind, M_bind. by rewrite IH.
Qed.

(** X10: a configuration in which no collection has a child yields the
    manifest that repeats the title, the description and the collection
    labels with empty lists of children; no directory has to exist. *)
Theorem no_children_manifest ROOT JSON_parse localeCompare fs config :
  readConfig ROOT JSON_parse fs = (Ok config, fs) ->
  Forall (fun collection => CollectionConfig.children collection = [])
    (Configuration.collections config) ->
  buildManifest ROOT JSON_parse localeCompare fs = (Ok (emptyManifest config), fs).
Proof.
  intros Hconfig Hnone. unfold buildManifest. unfold mbind at 1, M_bind at 1.
  rewrite Hconfig. unfold mbind, M_bind.
  by rewrite (forEach_no_children _ _ _ _ Hnone).
Qed.

Lemma no_children_manifest_witness :
  buildManifest exampleRoot (fun _ => Some childlessConfig) codeUnitCompare bareFs
  = (Ok (emptyManifest childlessConfig), bareFs).
Proof.
  apply (no_children_manifest exampleRoot (fun _ => Some childlessConfig)
           codeUnitCompare bareFs childlessConfig).
  - vm_compute. reflexivity.
  - repeat constructor.
Defined.

Lemma buildCollection_ok ROOT localeCompare collection fs built fs' :
  buildCollection ROOT localeCompare collection fs = (Ok built, fs') ->
  fs' = fs /\ mirrorsCollection collection built.
Proof.
  unfold buildCollection, mbind, M_bind.
  destruct (forEach _ _ fs) as [[children|e] fs1] eqn:Hchildren; [|done].
  apply forEach_ok in Hchildren as [-> Hall]; [|apply readonly_buildChild].
  intros [= <- <-]. split; [done|]. split; [done|].
  cbn [Collection.children]. eapply Forall2_impl; [exact Hall|].
  intros child c Hc. apply buildChild_ok in Hc as (_ & es & _ & _ & _ & Hid & Hl & Hd).
  by repeat split.
Qed.

(** X11: a manifest that is built repeats the preview title and description
    of the configuration and has, in the order of the configuration, one
    collection per configured collection with its label and one child per
    configured child with its id, label and description. *)
Theorem manifest_mirrors_configuration ROOT JSON_parse localeCompare fs manifest fs' :
  buildManifest ROOT JSON_parse localeCompare fs = (Ok manifest, fs') ->
  exists config,
    readConfig ROOT JSON_parse fs = (Ok config, fs)
    /\ Manifest.previewTitle manifest = Configuration.previewTitle config
    /\ Manifest.previewDescription manifest = Configuration.previewDescription config
    /\ Forall2
         (fun collection built =>
            Collection.label built = CollectionConfig.label collection
            /\ Forall2
                 (fun child c =>
                    Child.id c = ChildConfig.id child
                    /\ Child.label c = ChildConfig.label child
                    /\ Child.description c = ChildConfig.description child)
                 (CollectionConfig.children collection)
                 (Collection.children built))
         (Configuration.collections config)
         (Manifest.collections manifest).
Proof.
  unfold buildManifest. unfold mbind at 1, M_bind at 1.
  destruct (readConfig ROOT JSON_parse fs) as [[config|e] fs1] eqn:Hconfig; [|done].
  pose proof (readonly_result _ _ _ _ (readonly_readConfig ROOT JSON_parse) Hconfig)
    as ->.
  unfold mbind, M_bind.
  destruct (forEach _ _ fs) as [[collections|e] fs1] eqn:Hcollections; [|done].
  apply forEach_ok in Hcollections as [-> Hall]; [|apply readonly_buildCollection].
  intros [= <- <-]. exists config. repeat split; try done.
  cbn [Manifest.collections]. eapply Forall2_impl; [exact Hall|].
  intros collection built Hb. by apply buildCollection_ok in Hb as [_ Hm].
Qed.

Lemma manifest_mirrors_configuration_witness :
  buildManifest exampleRoot exampleParse codeUnitCompare exampleFs
  = (Ok exampleManifest, exampleFs)
  /\ exists config,
       readConfig exampleRoot exampleParse exampleFs = (Ok config, exampleFs)
       /\ Manifest.previewTitle exampleManifest = Configuration.previewTitle config.
Proof.
  assert (H : buildManifest exampleRoot exampleParse codeUnitCompare exampleFs
              = (Ok exampleManifest, exampleFs)) by (vm_compute; reflexivity).
  split; [exact H|].
  destruct (manifest_mirrors_configuration _ _ _ _ _ _ H)
    as (config & Hconfig & Htitle & _).
  exists config. split; [exact Hconfig | exact Htitle].
Defined.

(** ** When the builder succeeds *)

Lemma resolve_app t p q :
  resolve t (p ++ q)
  = match resolve t p with
    | inr c => resolve c q
    | inl e => inl e
    end.
Proof.
  revert t; induction p as [|n p IH]; intros t; [done|].
  cbn [app resolve]. destruct t as [|es|]; try done.
  destruct (findEntry n es); [apply IH | done].
Qed.









(** ** Failures before the write *)

(** X14: a failure before the write step changes nothing.  Building the
    manifest never changes the file system; when it throws, for whatever
    reason, the run ends with exit code 1 and the file system, and with it
    the manifest of an earlier run, exactly as it was. *)
Theorem failure_before_write_changes_nothing
    ROOT JSON_parse JSON_stringify localeCompare fs e fs' :
  buildManifest ROOT JSON_parse localeCompare fs = (Err e, fs') ->
  fs' = fs
  /\ main ROOT JSON_parse JSON_stringify localeCompare fs = (Err e, fs)
  /\ run ROOT JSON_parse JSON_stringify localeCompare fs = (1%Z, fs)
  /\ forall fs0, (buildManifest ROOT JSON_parse localeCompare fs0).2 = fs0.
Proof.
  intros Hbuild.
  pose proof (readonly_result _ _ _ _
    (readonly_buildManifest ROOT JSON_parse localeCompare) Hbuild) as ->.
  split; [done|].
  destruct (main_fails ROOT JSON_parse JSON_stringify localeCompare fs e Hbuild)
    as [Hmain Hrun].
  split; [done|]. split; [done|]. apply readonly_buildManifest.
Qed.

Lemma failure_before_write_changes_nothing_witness :
  run exampleRoot exampleParse exampleStringify codeUnitCompare bareFs
  = (1%Z, bareFs).
Proof.
  refine (proj1 (proj2 (proj2
    (failure_before_write_changes_nothing exampleRoot exampleParse exampleStringify
       codeUnitCompare bareFs
       (JsError (DirectoryNotFound [js "site"; js "content"; js "algorithms"]))
       bareFs _)))).
  vm_compute. reflexivity.
Defined.

(** ** A null [fileOrder] *)

(** X15: a child whose [fileOrder] is [null] aborts the run.  The default
    of [orderFiles] stands in for an absent [fileOrder] only; [null]
    reaches the loop over the names, which throws, so the run ends with
    exit code 1 and an unchanged file system, also when the directory of
    the child exists and every file in it can be read. *)
Theorem null_fileOrder_aborts
    ROOT JSON_parse JSON_stringify localeCompare fs config collection child :
  readConfig ROOT JSON_parse fs = (Ok config, fs) ->
  collection ∈ Configuration.collections config ->
  child ∈ CollectionConfig.children collection ->
  ChildConfig.fileOrder child = Some FileOrderNull ->
  (exists e, buildChild ROOT localeCompare child fs = (Err e, fs))
  /\ (forall es,
        resolve fs (path_join ROOT (ChildConfig.directory child)) = inr (Dir es) ->
        buildChild ROOT localeCompare child fs = (Err TypeError, fs))
  /\ run ROOT JSON_parse JSON_stringify localeCompare fs = (1%Z, fs).
Proof.
  intros Hconfig Hcollection Hchild Hnull.
  assert (He1 : exists e, buildChild ROOT localeCompare child fs = (Err e, fs)).
  { destruct (buildChild ROOT localeCompare child fs) as [[c|e] fs'] eqn:E.
    - apply buildChild_ok in E as (_ & es & _ & Hnot & _). by destruct Hnot.
    - pose proof (readonly_result _ _ _ _
        (readonly_buildChild ROOT localeCompare child) E) as ->. eauto. }
  split; [exact He1|]. split.
  { intros es Hdir. unfold buildChild. cbv zeta. unfold mbind at 1, M_bind at 1.
    rewrite ensureDirectoryExists_spec, Hdir.
    unfold mbind at 1, M_bind at 1. rewrite listHtmlFiles_spec, Hdir.
    unfold mbind at 1, M_bind at 1. by rewrite Hnull. }
  destruct He1 as [e1 He1].
  destruct (forEach_throws (buildChild ROOT localeCompare) _ _ _ _
              (readonly_buildChild ROOT localeCompare) Hchild He1) as [e2 He2].
  assert (He3 : buildCollection ROOT localeCompare collection fs = (Err e2, fs)).
  { unfold buildCollection, mbind, M_bind. by rewrite He2. }
  destruct (forEach_throws (buildCollection ROOT localeCompare) _ _ _ _
              (readonly_buildCollection ROOT localeCompare) Hcollection He3)
    as [e4 He4].
  assert (He5 : buildManifest ROOT JSON_parse localeCompare fs = (Err e4, fs)).
  { unfold buildManifest. unfold mbind at 1, M_bind at 1. rewrite Hconfig.
    unfold mbind, M_bind. by rewrite He4. }
  by destruct (main_fails ROOT JSON_parse JSON_stringify localeCompare fs e4 He5).
Qed.

Lemma null_fileOrder_aborts_witness :
  buildChild exampleRoot codeUnitCompare nullOrderChild exampleFs
  = (Err TypeError, exampleFs)
  /\ run exampleRoot (fun _ => Some nullOrderConfig) exampleStringify
       codeUnitCompare exampleFs
     = (1%Z, exampleFs).
Proof.
  destruct (null_fileOrder_aborts exampleRoot (fun _ => Some nullOrderConfig)
              exampleStringify codeUnitCompare exampleFs nullOrderConfig
              {| CollectionConfig.label := js "Guides";
                 CollectionConfig.children := [nullOrderChild] |}
              nullOrderChild) as (_ & Hchild & Hrun).
  - vm_compute. reflexivity.
  - left.
  - left.
  - reflexivity.
  - split; [|exact Hrun]. apply (Hchild exampleEntries). vm_compute. reflexivity.
Defined.
